(** * SimpleDB: a shallow embedding of the engine and its checked properties

    The development follows the layout of the Python package [simpledb]:
    values and errors, the AST ([ast.py]), the lexer ([lexer.py]), the
    parser ([parser.py]), the catalog ([catalog.py]), the heap
    ([storage/heap.py]), the executor ([exec/executor.py]) and the facade
    ([db.py], together with the caller layer [finance_tracker/app]).

    Modelling conventions.
    - A Python [dict] keyed by strings is a [gmap string _]; dict equality
      in Python ignores insertion order, as does equality of [gmap]s.
    - A Python [set] of hashable scalars is a list searched with Python's
      [==] ([py_eq]); a set of record ids is a [gset Z].
    - Exceptions are values of [error]; a method that raises returns [Err]
      together with the state reached at the point of the raise (writes
      performed before a raise persist, exactly as in Python).
    - Files hold decoded JSON: the data file of a table is the list of the
      objects on its lines, the meta file is its [next_rid], the catalog
      file is a JSON value.  Text encoding and decoding of JSON is not
      modelled, and neither are unparseable lines.
    - The files of a table are found under its name: different table
      names denote different files (a case-sensitive file system).
    - Characters are ASCII; the length of a string is its number of
      characters.
    - An error message into which the source formats the [repr] of a
      value is modelled without that part. *)

From stdpp Require Import gmap strings list fin_maps sorting pretty.
From Stdlib Require Import ZArith Ascii.

Set Warnings "-clear-no-such-hyp".

Local Open Scope string_scope.
Local Open Scope list_scope.

(* ================================================================== *)
(** * Python values and errors *)
(* ================================================================== *)

(** The scalar values the engine handles: [None], [int], [str], [bool]. *)
Inductive value : Type :=
| VNone
| VInt (n : Z)
| VStr (s : string)
| VBool (b : bool).

#[global] Instance value_eq_dec : EqDecision value.
Proof. solve_decision. Defined.

(** [isinstance(v, int)]: in Python [bool] is a subclass of [int], and
    [True == 1], [False == 0].  [as_int] is the integer a value denotes
    when it is an instance of [int]. *)
Definition as_int (v : value) : option Z :=
  match v with
  | VInt n => Some n
  | VBool true => Some 1%Z
  | VBool false => Some 0%Z
  | VNone | VStr _ => None
  end.

Definition isinstance_int (v : value) : bool :=
  match as_int v with Some _ => true | None => false end.

Definition isinstance_bool (v : value) : bool :=
  match v with VBool _ => true | _ => false end.

Definition isinstance_str (v : value) : bool :=
  match v with VStr _ => true | _ => false end.

(** [v is None] and [v is True]. *)
Definition is_None (v : value) : bool :=
  match v with VNone => true | _ => false end.

Definition is_True (v : value) : bool :=
  match v with VBool true => true | _ => false end.

(** Python's [a == b] on scalars. *)
Definition py_eq (a b : value) : bool :=
  match a, b with
  | VNone, VNone => true
  | VStr s, VStr t => bool_decide (s = t)
  | VNone, _ | _, VNone | VStr _, _ | _, VStr _ => false
  | _, _ => bool_decide (as_int a = as_int b)
  end.

(** [v in s] for a Python set [s] of scalars (hash and [==] agree on the
    scalars modelled here). *)
Definition py_in (v : value) (s : list value) : bool :=
  existsb (py_eq v) s.

(** A JSON object / Python [dict] with scalar values: a stored record, a
    logical row. *)
Abbreviation record := (gmap string value).

(** [d.get(k)]: [None] when the key is absent. *)
Definition get (k : string) (d : record) : value :=
  default VNone (d !! k).

Record Position : Type := mkPosition { line : nat; col : nat }.

#[global] Instance Position_eq_dec : EqDecision Position.
Proof. solve_decision. Defined.

(** The three error kinds of [errors.py]; [PyError] stands for any other
    Python exception (KeyError, IndexError, AttributeError, ...). *)
Inductive error : Type :=
| SqlSyntaxError (message : string) (position : option Position)
| ExecutionError (message : string)
| ConstraintError (message : string)
| PyError (name : string).

Inductive result (A : Type) : Type :=
| Ok (a : A)
| Err (e : error).
Arguments Ok {A} a.
Arguments Err {A} e.

Definition is_Ok {A} (r : result A) : bool :=
  match r with Ok _ => true | Err _ => false end.

Definition bindR {A B} (m : result A) (k : A → result B) : result B :=
  match m with
  | Ok a => k a
  | Err e => Err e
  end.

Notation "'let?' x ':=' m 'in' k" := (bindR m (λ x, k))
  (at level 10, x pattern, m at level 100, k at level 200,
   format "'[v' 'let?'  x  ':='  m  'in' '/' k ']'").

(** [for x in xs: f(x)] where [f] may raise. *)
Fixpoint forR {A} (f : A → result unit) (xs : list A) : result unit :=
  match xs with
  | [] => Ok tt
  | x :: xs' => let? _ := f x in forR f xs'
  end.

(** [[f(x) for x in xs]] where [f] may raise. *)
Fixpoint mapR {A B} (f : A → result B) (xs : list A) : result (list B) :=
  match xs with
  | [] => Ok []
  | x :: xs' => let? y := f x in let? ys := mapR f xs' in Ok (y :: ys)
  end.

(** ASCII [str.upper()]. *)
Definition upper_ascii (c : ascii) : ascii :=
  let n := nat_of_ascii c in
  if (97 <=? n)%nat && (n <=? 122)%nat then ascii_of_nat (n - 32) else c.

Fixpoint upper (s : string) : string :=
  match s with
  | EmptyString => EmptyString
  | String c s' => String (upper_ascii c) (upper s')
  end.

(* ================================================================== *)
(** * storage/heap.py: the record log *)
(* ================================================================== *)

Module Heap.

(** ** Reading the log

    [scan_active] makes one pass over the log, collecting the tombstoned
    rids in [deleted] and the other records in [rows], then yields the
    rows whose [_rid] is an [int] that is not in [deleted]. *)

Definition scan_step (acc : gset Z * list record) (obj : record)
  : gset Z * list record :=
  let '(deleted, rows) := acc in
  if py_eq (get "_op" obj) (VStr "DELETE") then
    match as_int (get "_rid" obj) with
    | Some rid => ({[ rid ]} ∪ deleted, rows)
    | None => (deleted, rows)
    end
  else if is_True (get "_deleted" obj) && isinstance_int (get "_rid" obj) then
    match as_int (get "_rid" obj) with
    | Some rid => ({[ rid ]} ∪ deleted, rows)
    | None => (deleted, rows)
    end
  else (deleted, rows ++ [obj]).

Definition scan_pass (log : list record) : gset Z * list record :=
  foldl scan_step (∅, []) log.

Definition is_live (deleted : gset Z) (r : record) : bool :=
  match as_int (get "_rid" r) with
  | Some rid => bool_decide (rid ∉ deleted)
  | None => false
  end.

Definition scan_active (log : list record) : list record :=
  let '(deleted, rows) := scan_pass log in
  List.filter (is_live deleted) rows.

(** ** Writing the log *)

(** [stored = {"_rid": rid, **row}]: the entries of [row] are written
    after [_rid] and win on a shared key. *)
Definition stored (rid : Z) (row : record) : record :=
  row ∪ {[ "_rid" := VInt rid ]}.

(** [rec = {"_op": "DELETE", "_rid": int(rid)}]. *)
Definition tombstone_record (rid : Z) : record :=
  <[ "_rid" := VInt rid ]> {[ "_op" := VStr "DELETE" ]}.

(** The two files of one table; a missing file is [None]. *)
Record files : Type := mkFiles {
  data_file : option (list record);
  meta_file : option Z;
}.

(** [HeapTable.open]: create whichever file is missing. *)
Definition open (f : files) : files :=
  {| data_file := Some (default [] (data_file f));
     meta_file := Some (default 1%Z (meta_file f)) |}.

(** Appending a line: opening in mode ["a"] creates a missing file. *)
Definition append (rec : record) (f : files) : files :=
  {| data_file := Some (default [] (data_file f) ++ [rec]);
     meta_file := meta_file f |}.

Definition _load_meta (f : files) : result Z :=
  match meta_file f with
  | Some n => Ok n
  | None => Err (PyError "FileNotFoundError")
  end.

Definition _save_meta (n : Z) (f : files) : files :=
  {| data_file := data_file f; meta_file := Some n |}.

(** [insert]: the meta file is rewritten first, then the line is appended.
    Returns the allocated rid and the files after both writes. *)
Definition insert (row : record) (f : files) : result Z * files :=
  match _load_meta f with
  | Err e => (Err e, f)
  | Ok rid =>
      let f1 := _save_meta (rid + 1)%Z f in
      let f2 := append (stored rid row) f1 in
      (Ok rid, f2)
  end.

Definition tombstone (rid : Z) (f : files) : files :=
  append (tombstone_record rid) f.

(** [scan_active] on the files: reading a missing data file raises. *)
Definition scan (f : files) : result (list record) :=
  match data_file f with
  | Some log => Ok (scan_active log)
  | None => Err (PyError "FileNotFoundError")
  end.

(** ** The reading of scan_active given in the specification

    A tombstone is a record with op DELETE or a record carrying
    [deleted = true]; the tombstoned rids are the rids of the tombstones;
    every other record whose rid is not tombstoned is yielded. *)

Definition spec_is_tombstone (r : record) : bool :=
  py_eq (get "_op" r) (VStr "DELETE") || is_True (get "_deleted" r).

Definition spec_tombstoned (log : list record) : list value :=
  map (get "_rid") (List.filter spec_is_tombstone log).

Definition spec_scan_active (log : list record) : list record :=
  List.filter
    (λ r, negb (spec_is_tombstone r)
          && negb (py_in (get "_rid" r) (spec_tombstoned log)))
    log.

(** The records the pass of [scan_active] sets aside as tombstones. *)
Definition code_is_tombstone (r : record) : bool :=
  py_eq (get "_op" r) (VStr "DELETE")
  || (is_True (get "_deleted" r) && isinstance_int (get "_rid" r)).

(** The rids the code tombstones: the integer rids of the tombstones. *)
Definition tombstoned_ints (log : list record) : gset Z :=
  list_to_set (omap (λ r, as_int (get "_rid" r))
                 (List.filter spec_is_tombstone log)).

(** All rids of a log that are integers. *)
Definition log_rids (log : list record) : list Z :=
  omap (λ r, as_int (get "_rid" r)) log.

(** The invariant on the meta file: [next_rid] exceeds every integer rid
    of the log. *)
Definition next_rid_above (f : files) : Prop :=
  ∀ n, n ∈ log_rids (default [] (data_file f)) →
       (n < default 1 (meta_file f))%Z.

End Heap.

(* ================================================================== *)
(** * ast.py *)
(* ================================================================== *)

Record TypeSpec : Type := mkTypeSpec {
  ts_name : string;
  ts_params : list Z;
}.

Record ColumnDef : Type := mkColumnDef {
  cd_name : string;
  cd_typ : TypeSpec;
  cd_not_null : bool;
  cd_unique : bool;
  cd_primary_key : bool;
}.

Record ColumnRef : Type := mkColumnRef {
  cr_column : string;
  cr_table : option string;
}.

Record Condition : Type := mkCondition {
  cond_left : ColumnRef;
  cond_op : string;
  cond_right : value;
}.

Record WhereClause : Type := mkWhereClause {
  conditions : list Condition;
}.

Record JoinClause : Type := mkJoinClause {
  jc_table_name : string;
  jc_left : ColumnRef;
  jc_right : ColumnRef;
}.

Record Assignment : Type := mkAssignment {
  as_column : string;
  as_value : value;
}.

Inductive Statement : Type :=
| CreateTable (table_name : string) (columns : list ColumnDef)
| CreateIndex (index_name table_name column_name : string)
| Insert (table_name : string) (columns : list string) (values : list value)
| Select (columns : option (list ColumnRef)) (from_table : string)
         (joins : list JoinClause) (where_ : option WhereClause)
| Update (table_name : string) (assignments : list Assignment)
         (where_ : option WhereClause)
| Delete (table_name : string) (where_ : option WhereClause).

#[global] Instance TypeSpec_eq_dec : EqDecision TypeSpec.
Proof. solve_decision. Defined.
#[global] Instance ColumnDef_eq_dec : EqDecision ColumnDef.
Proof. solve_decision. Defined.
#[global] Instance ColumnRef_eq_dec : EqDecision ColumnRef.
Proof. solve_decision. Defined.

(** results.py *)
Inductive outcome : Type :=
| CommandOk (rows_affected : nat) (message : string)
| QueryResult (columns : list string) (rows : list (list value)).

(* ================================================================== *)
(** * lexer.py *)
(* ================================================================== *)

Module Lexer.

Inductive TokenType : Type :=
| EOF | IDENT | INT | STRING | BOOL
| LPAREN | RPAREN | COMMA | SEMI | EQ | STAR | DOT
| CREATE | TABLE | INDEX | INSERT | INTO | VALUES | SELECT | FROM | WHERE
| AND | UPDATE | SET | DELETE | JOIN | ON | PRIMARY | KEY | UNIQUE | NOT
| NULL.

#[global] Instance TokenType_eq_dec : EqDecision TokenType.
Proof. solve_decision. Defined.

Definition KEYWORDS : list (string * TokenType) :=
  [ ("CREATE", CREATE); ("TABLE", TABLE); ("INDEX", INDEX);
    ("INSERT", INSERT); ("INTO", INTO); ("VALUES", VALUES);
    ("SELECT", SELECT); ("FROM", FROM); ("WHERE", WHERE); ("AND", AND);
    ("UPDATE", UPDATE); ("SET", SET); ("DELETE", DELETE); ("JOIN", JOIN);
    ("ON", ON); ("PRIMARY", PRIMARY); ("KEY", KEY); ("UNIQUE", UNIQUE);
    ("NOT", NOT); ("NULL", NULL) ].

Fixpoint lookup_keyword (u : string) (kws : list (string * TokenType))
  : option TokenType :=
  match kws with
  | [] => None
  | (k, t) :: kws' => if bool_decide (k = u) then Some t
                      else lookup_keyword u kws'
  end.

Record Token : Type := mkToken {
  typ : TokenType;
  lexeme : string;
  tvalue : value;
  pos : Position;
}.

(** ASCII character classes ([str.isspace], [str.isdigit], [str.isalpha]). *)
Definition isspace (c : ascii) : bool :=
  let n := nat_of_ascii c in
  ((9 <=? n)%nat && (n <=? 13)%nat) || ((28 <=? n)%nat && (n <=? 32)%nat).

Definition isdigit (c : ascii) : bool :=
  let n := nat_of_ascii c in (48 <=? n)%nat && (n <=? 57)%nat.

Definition isalpha (c : ascii) : bool :=
  let n := nat_of_ascii c in
  ((65 <=? n)%nat && (n <=? 90)%nat) || ((97 <=? n)%nat && (n <=? 122)%nat).

Definition isalnum (c : ascii) : bool := isalpha c || isdigit c.

Definition quote : ascii := "'"%char.
Definition newline : ascii := ascii_of_nat 10.
Definition underscore : ascii := "_"%char.

(** The lexer's cursor: [rest] is [sql[i:]]. *)
Record cursor : Type := mkCursor {
  rest : string;
  cur_line : nat;
  cur_col : nat;
}.

Definition cur_pos (c : cursor) : Position :=
  mkPosition (cur_line c) (cur_col c).

Definition advance1 (c : cursor) : cursor :=
  match rest c with
  | EmptyString => c
  | String ch r =>
      if bool_decide (ch = newline)
      then mkCursor r (S (cur_line c)) 1
      else mkCursor r (cur_line c) (S (cur_col c))
  end.

Fixpoint advance (n : nat) (c : cursor) : cursor :=
  match n with
  | O => c
  | S n' => advance n' (advance1 c)
  end.

(** The inner loop of a string literal, entered after the opening quote:
    the characters up to the next quote, and the cursor after that quote;
    [None] when the input ends first. *)
Fixpoint read_string (s : string) (ln cl : nat) : option (string * cursor) :=
  match s with
  | EmptyString => None
  | String c s' =>
      if bool_decide (c = quote) then Some (EmptyString, mkCursor s' ln (S cl))
      else
        let '(ln', cl') :=
          if bool_decide (c = newline) then (S ln, 1) else (ln, S cl) in
        match read_string s' ln' cl' with
        | Some (buf, cur) => Some (String c buf, cur)
        | None => None
        end
  end.

(** [sql[i:j]] for the maximal [j] with [p] holding on [sql[i..j)]. *)
Fixpoint take_while (p : ascii → bool) (s : string) : string :=
  match s with
  | EmptyString => EmptyString
  | String c s' => if p c then String c (take_while p s') else EmptyString
  end.

(** [int(lex)] for a run of ASCII digits. *)
Fixpoint int_of_digits (acc : Z) (s : string) : Z :=
  match s with
  | EmptyString => acc
  | String c s' =>
      int_of_digits (acc * 10 + Z.of_nat (nat_of_ascii c - 48))%Z s'
  end.

Definition symbol_type (ch : ascii) : option TokenType :=
  if bool_decide (ch = "("%char) then Some LPAREN
  else if bool_decide (ch = ")"%char) then Some RPAREN
  else if bool_decide (ch = ","%char) then Some COMMA
  else if bool_decide (ch = ";"%char) then Some SEMI
  else if bool_decide (ch = "="%char) then Some EQ
  else if bool_decide (ch = "*"%char) then Some STAR
  else if bool_decide (ch = "."%char) then Some DOT
  else None.

Definition word_token (lex : string) (start : Position) : Token :=
  let u := upper lex in
  if bool_decide (u = "TRUE") then mkToken BOOL lex (VBool true) start
  else if bool_decide (u = "FALSE") then mkToken BOOL lex (VBool false) start
  else match lookup_keyword u KEYWORDS with
       | Some t => mkToken t lex (VStr u) start
       | None => mkToken IDENT lex (VStr lex) start
       end.

(** One iteration of the main [while] loop, at a cursor whose first
    character is [ch]: the token appended (none for white space) and the
    cursor afterwards. *)
Definition lex_step (ch : ascii) (c : cursor) : result (option Token * cursor) :=
  if isspace ch then Ok (None, advance 1 c)
  else match symbol_type ch with
  | Some t => Ok (Some (mkToken t (String ch EmptyString) VNone (cur_pos c)),
                  advance 1 c)
  | None =>
  if bool_decide (ch = quote) then
    let start := cur_pos c in
    let c1 := advance 1 c in
    match read_string (rest c1) (cur_line c1) (cur_col c1) with
    | None => Err (SqlSyntaxError "Unterminated string literal" (Some start))
    | Some (s, c2) =>
        Ok (Some (mkToken STRING (String quote (s ++ String quote EmptyString))
                    (VStr s) start), c2)
    end
  else if isdigit ch then
    let lex := take_while isdigit (rest c) in
    Ok (Some (mkToken INT lex (VInt (int_of_digits 0 lex)) (cur_pos c)),
        advance (String.length lex) c)
  else if isalpha ch || bool_decide (ch = underscore) then
    let lex :=
      take_while (λ x, isalnum x || bool_decide (x = underscore)) (rest c) in
    Ok (Some (word_token lex (cur_pos c)), advance (String.length lex) c)
  else Err (SqlSyntaxError "Unexpected character" (Some (cur_pos c)))
  end.

(** The main loop; every iteration consumes a character, so [fuel] equal
    to the length of the input is never exhausted. *)
Fixpoint tokenize_loop (fuel : nat) (c : cursor) : result (list Token) :=
  match rest c with
  | EmptyString => Ok [mkToken EOF "" VNone (cur_pos c)]
  | String ch _ =>
      match fuel with
      | O => Err (PyError "unreachable")
      | S fuel' =>
          let? (tok, c') := lex_step ch c in
          let? toks := tokenize_loop fuel' c' in
          Ok (match tok with Some t => t :: toks | None => toks end)
      end
  end.

Definition tokenize (sql : string) : result (list Token) :=
  tokenize_loop (String.length sql) (mkCursor sql 1 1).

(** Strings without a single quote. *)
Fixpoint quote_free (s : string) : bool :=
  match s with
  | EmptyString => true
  | String c s' => negb (bool_decide (c = quote)) && quote_free s'
  end.

(** A token [parse_literal] accepts and converts without raising. *)
Definition literal_token (t : Token) : bool :=
  bool_decide (typ t = STRING) || bool_decide (typ t = BOOL)
  || (bool_decide (typ t = INT) && isinstance_int (tvalue t)).

(** The tokens of [x0 sep x1 sep x2 ...], given [x0] and the pairs
    [(sep, xi)]. *)
Definition separated (x0 : Token) (more : list (Token * Token)) : list Token :=
  x0 :: flat_map (λ sx, [fst sx; snd sx]) more.

End Lexer.

(* ================================================================== *)
(** * Python conversions used by the parser and the executor *)
(* ================================================================== *)

(** [str(v)]. *)
Definition py_str (v : value) : string :=
  match v with
  | VStr s => s
  | VNone => "None"
  | VBool true => "True"
  | VBool false => "False"
  | VInt n => pretty n
  end.

(** [bool(v)]. *)
Definition py_bool (v : value) : bool :=
  match v with
  | VBool b => b
  | VNone => false
  | VInt n => negb (n =? 0)%Z
  | VStr s => negb (bool_decide (s = ""))
  end.

(** [int(v)]; the conversion of a [str] (which would parse it) is not
    modelled and is reported as the error it raises on a non-numeral. *)
Definition py_int (v : value) : result Z :=
  match as_int v with
  | Some n => Ok n
  | None =>
      match v with
      | VStr _ => Err (PyError "ValueError")
      | _ => Err (PyError "TypeError")
      end
  end.

(* ================================================================== *)
(** * parser.py *)
(* ================================================================== *)

Module Parser.
Import Lexer.

(** A parser method: the token list is fixed, the state is the index
    [self.i]. *)
Definition P (A : Type) : Type := nat → result (A * nat).

Definition retP {A} (a : A) : P A := λ i, Ok (a, i).

Definition failP {A} (e : error) : P A := λ _, Err e.

Definition bindP {A B} (m : P A) (k : A → P B) : P B :=
  λ i, match m i with
       | Ok (a, i') => k a i'
       | Err e => Err e
       end.

Definition liftP {A} (r : result A) : P A :=
  λ i, match r with Ok a => Ok (a, i) | Err e => Err e end.

Notation "'do' x <- m ; k" := (bindP m (λ x, k))
  (at level 10, x pattern, m at level 100, k at level 200,
   format "'[v' 'do'  x  <-  m ; '/' k ']'").

Section WithTokens.

Variable tokens : list Token.

(** [peek]: past the end, the last token ([tokens[-1]] raises on an
    empty list). *)
Definition peek (offset : nat) : P Token := λ i,
  match tokens !! (i + offset) with
  | Some t => Ok (t, i)
  | None =>
      match last tokens with
      | Some t => Ok (t, i)
      | None => Err (PyError "IndexError")
      end
  end.

Definition at_ (ty : TokenType) : P bool :=
  do t <- peek 0; retP (bool_decide (typ t = ty)).

Definition consume : P Token :=
  do t <- peek 0; λ i, Ok (t, S i).

Definition expect (ty : TokenType) (msg : string) : P Token :=
  do t <- peek 0;
  if bool_decide (typ t = ty) then consume
  else failP (SqlSyntaxError msg (Some (pos t))).

Definition match_ (ty : TokenType) : P bool :=
  do b <- at_ ty;
  if b then do _ <- consume; retP true else retP false.

(** [while self.match(sep): xs.append(item())].  A loop that outruns its
    fuel stands for a Python loop that does not terminate. *)
Fixpoint sep_loop {A} (fuel : nat) (sep : TokenType) (item : P A)
  : P (list A) :=
  match fuel with
  | O => failP (PyError "diverges")
  | S fuel' =>
      do b <- match_ sep;
      if b then
        do x <- item;
        do xs <- sep_loop fuel' sep item;
        retP (x :: xs)
      else retP []
  end.

Definition loop_fuel : nat := S (length tokens).

(** [xs = [item()]; while self.match(sep): xs.append(item())]. *)
Definition sep_list {A} (sep : TokenType) (item : P A) : P (list A) :=
  do x <- item;
  do xs <- sep_loop loop_fuel sep item;
  retP (x :: xs).

(** *** atoms *)

Definition parse_column_ref : P ColumnRef :=
  do first <- expect IDENT "Expected identifier";
  do dot <- match_ DOT;
  if dot then
    do second <- expect IDENT "Expected identifier after '.'";
    retP (mkColumnRef (py_str (tvalue second)) (Some (py_str (tvalue first))))
  else retP (mkColumnRef (py_str (tvalue first)) None).

Definition parse_literal : P value :=
  do t <- peek 0;
  if bool_decide (typ t = INT) then
    do c <- consume; do n <- liftP (py_int (tvalue c)); retP (VInt n)
  else if bool_decide (typ t = STRING) then
    do c <- consume; retP (VStr (py_str (tvalue c)))
  else if bool_decide (typ t = BOOL) then
    do c <- consume; retP (VBool (py_bool (tvalue c)))
  else failP (SqlSyntaxError " literal (INT, STRING, BOOL)" (Some (pos t))).

(** *** WHERE *)

Definition parse_condition : P Condition :=
  do l <- parse_column_ref;
  do _ <- expect EQ "Expected '=' in WHERE condition";
  do r <- parse_literal;
  retP (mkCondition l "=" r).

Definition parse_where_clause_after_where : P WhereClause :=
  do conds <- sep_list AND parse_condition;
  retP (mkWhereClause conds).

Definition parse_optional_where : P (option WhereClause) :=
  do w <- match_ WHERE;
  if w then do wc <- parse_where_clause_after_where; retP (Some wc)
  else retP None.

(** *** CREATE *)

Definition parse_int_param : P Z :=
  do t <- expect INT "Expected integer type parameter";
  liftP (py_int (tvalue t)).

Definition parse_type_spec : P TypeSpec :=
  do type_name <- expect IDENT "Expected type name";
  do lp <- match_ LPAREN;
  do params <-
    (if lp then
       do ps <- sep_list COMMA parse_int_param;
       do _ <- expect RPAREN "Expected ')' after type parameters";
       retP ps
     else retP []);
  retP (mkTypeSpec (upper (py_str (tvalue type_name))) params).

(** The constraint loop of [parse_column_def]: the three flags are
    threaded through the iterations. *)
Fixpoint constraint_loop (fuel : nat) (not_null unique primary_key : bool)
  : P (bool * bool * bool) :=
  match fuel with
  | O => failP (PyError "diverges")
  | S fuel' =>
      do n <- match_ NOT;
      if n then
        do _ <- expect NULL "Expected NULL after NOT";
        constraint_loop fuel' true unique primary_key
      else
        do u <- match_ UNIQUE;
        if u then constraint_loop fuel' not_null true primary_key
        else
          do p <- match_ PRIMARY;
          if p then
            do _ <- expect KEY "Expected KEY after PRIMARY";
            constraint_loop fuel' not_null unique true
          else retP (not_null, unique, primary_key)
  end.

Definition parse_column_def : P ColumnDef :=
  do col_name <- expect IDENT "Expected column name";
  do ty <- parse_type_spec;
  do flags <- constraint_loop loop_fuel false false false;
  let '(not_null, unique, primary_key) := flags in
  retP (mkColumnDef (py_str (tvalue col_name)) ty not_null unique primary_key).

Definition parse_create_table_after_keyword : P Statement :=
  do table <- expect IDENT "Expected table name";
  do _ <- expect LPAREN "Expected '(' after table name";
  do cols <- sep_list COMMA parse_column_def;
  do _ <- expect RPAREN "Expected ')' after column definitions";
  retP (CreateTable (py_str (tvalue table)) cols).

Definition parse_create_index_after_keyword : P Statement :=
  do idx_name <- expect IDENT "Expected index name";
  do _ <- expect ON "Expected ON after index name";
  do table <- expect IDENT "Expected table name";
  do _ <- expect LPAREN "Expected '(' after table name";
  do c <- expect IDENT "Expected column name";
  do _ <- expect RPAREN "Expected ')' after column name";
  retP (CreateIndex (py_str (tvalue idx_name)) (py_str (tvalue table))
          (py_str (tvalue c))).

Definition parse_create : P Statement :=
  do _ <- expect CREATE "Expected CREATE";
  do t <- match_ TABLE;
  if t then parse_create_table_after_keyword
  else
    do x <- match_ INDEX;
    if x then parse_create_index_after_keyword
    else
      do nxt <- peek 0;
      failP (SqlSyntaxError "Expected TABLE or INDEX after CREATE"
               (Some (pos nxt))).

(** *** INSERT *)

Definition parse_column_name : P string :=
  do t <- expect IDENT "Expected column name"; retP (py_str (tvalue t)).

Definition parse_insert : P Statement :=
  do _ <- expect INSERT "Expected INSERT";
  do _ <- expect INTO "Expected INTO after INSERT";
  do table <- expect IDENT "Expected table name";
  do _ <- expect LPAREN "Expected '(' before column list";
  do cols <- sep_list COMMA parse_column_name;
  do _ <- expect RPAREN "Expected ')' after column list";
  do _ <- expect VALUES "Expected VALUES";
  do _ <- expect LPAREN "Expected '(' before values";
  do vals <- sep_list COMMA parse_literal;
  do _ <- expect RPAREN "Expected ')' after values";
  if bool_decide (length cols ≠ length vals) then
    do nxt <- peek 0;
    failP (SqlSyntaxError "Number of columns does not match number of values"
             (Some (pos nxt)))
  else retP (Insert (py_str (tvalue table)) cols vals).

(** *** SELECT *)

Definition parse_select_list : P (option (list ColumnRef)) :=
  do star <- match_ STAR;
  if star then retP None
  else do cols <- sep_list COMMA parse_column_ref; retP (Some cols).

Definition parse_join_clause : P JoinClause :=
  do table <- expect IDENT "Expected table name after JOIN";
  do _ <- expect ON "Expected ON in JOIN clause";
  do l <- parse_column_ref;
  do _ <- expect EQ "Expected '=' in JOIN condition";
  do r <- parse_column_ref;
  retP (mkJoinClause (py_str (tvalue table)) l r).

Definition parse_select : P Statement :=
  do _ <- expect SELECT "Expected SELECT";
  do cols <- parse_select_list;
  do _ <- expect FROM "Expected FROM";
  do from_table <- expect IDENT "Expected table name";
  do joins <- sep_loop loop_fuel JOIN parse_join_clause;
  do w <- parse_optional_where;
  retP (Select cols (py_str (tvalue from_table)) joins w).

(** *** UPDATE and DELETE *)

Definition parse_assignment : P Assignment :=
  do c <- expect IDENT "Expected column name";
  do _ <- expect EQ "Expected '=' in assignment";
  do v <- parse_literal;
  retP (mkAssignment (py_str (tvalue c)) v).

Definition parse_update : P Statement :=
  do _ <- expect UPDATE "Expected UPDATE";
  do table <- expect IDENT "Expected table name";
  do _ <- expect SET "Expected SET";
  do assignments <- sep_list COMMA parse_assignment;
  do w <- parse_optional_where;
  retP (Update (py_str (tvalue table)) assignments w).

Definition parse_delete : P Statement :=
  do _ <- expect DELETE "Expected DELETE";
  do _ <- expect FROM "Expected FROM after DELETE";
  do table <- expect IDENT "Expected table name";
  do w <- parse_optional_where;
  retP (Delete (py_str (tvalue table)) w).

(** *** dispatch and entry points *)

Definition parse_statement : P Statement :=
  do t <- peek 0;
  if bool_decide (typ t = CREATE) then parse_create
  else if bool_decide (typ t = INSERT) then parse_insert
  else if bool_decide (typ t = SELECT) then parse_select
  else if bool_decide (typ t = UPDATE) then parse_update
  else if bool_decide (typ t = DELETE) then parse_delete
  else failP (SqlSyntaxError "Unexpected token" (Some (pos t))).

Fixpoint script_loop (fuel : nat) : P (list Statement) :=
  match fuel with
  | O => failP (PyError "diverges")
  | S fuel' =>
      do e <- at_ EOF;
      if e then retP []
      else
        do semi <- match_ SEMI;
        if semi then script_loop fuel'
        else
          do s <- parse_statement;
          do _ <- match_ SEMI;
          do ss <- script_loop fuel';
          retP (s :: ss)
  end.

Definition parse_script : P (list Statement) := script_loop loop_fuel.

Definition parse_one : P Statement :=
  do stmts <- parse_script;
  match stmts with
  | [] => failP (SqlSyntaxError "Empty input" (Some (mkPosition 1 1)))
  | [s] => retP s
  | _ :: _ :: _ =>
      do t <- peek 0;
      failP (SqlSyntaxError "Expected a single statement" (Some (pos t)))
  end.

End WithTokens.

(** The value [parse_literal] returns on a literal token. *)
Definition literal_value (t : Token) : value :=
  if bool_decide (typ t = INT) then VInt (default 0%Z (as_int (tvalue t)))
  else if bool_decide (typ t = STRING) then VStr (py_str (tvalue t))
  else VBool (py_bool (tvalue t)).

(** The token stream of an INSERT statement up to the token [nxt] that
    follows the closing parenthesis of the value list. *)
Definition insert_tokens (kw_insert kw_into name lp1 : Token)
    (col0 : Token) (cols : list (Token * Token))
    (rp1 kw_values lp2 : Token)
    (val0 : Token) (vals : list (Token * Token))
    (rp2 nxt : Token) (more : list Token) : list Token :=
  [kw_insert; kw_into; name; lp1] ++ separated col0 cols
  ++ [rp1; kw_values; lp2] ++ separated val0 vals ++ rp2 :: nxt :: more.

(** The public helpers: [Parser(tokens).parse_one()] starts at index 0. *)
Definition run {A} (p : P A) : result A :=
  match p 0 with Ok (a, _) => Ok a | Err e => Err e end.

Definition parse_sql (sql : string) : result Statement :=
  let? tokens := tokenize sql in run (parse_one tokens).

Definition parse_script_sql (sql : string) : result (list Statement) :=
  let? tokens := tokenize sql in run (parse_script tokens).

End Parser.

(* ================================================================== *)
(** * catalog.py *)
(* ================================================================== *)

(** Decoded JSON.  An object is the list of its items in file order; the
    objects handled here have distinct keys. *)
#[local] Unset Elimination Schemes.
Inductive json : Type :=
| JNull
| JBool (b : bool)
| JInt (n : Z)
| JStr (s : string)
| JArr (items : list json)
| JObj (items : list (string * json)).
#[local] Set Elimination Schemes.

Module Catalog.

Record IndexMeta : Type := mkIndexMeta {
  im_name : string;
  im_table_name : string;
  im_column_name : string;
}.

Record TableMeta : Type := mkTableMeta {
  tm_name : string;
  tm_columns : list ColumnDef;
  tm_indexes : gmap string IndexMeta;
}.

Record t : Type := mkCatalog {
  version : Z;
  tables : gmap string TableMeta;
  indexes : gmap string IndexMeta;
}.

Definition SUPPORTED_TYPES : list string :=
  ["INTEGER"; "VARCHAR"; "TEXT"; "DATE"; "BOOLEAN"].

(** [TableMeta.column_names]; a set, used only for membership. *)
Definition column_names (tm : TableMeta) : list string :=
  map cd_name (tm_columns tm).

Definition primary_key_column (tm : TableMeta) : option string :=
  head (map cd_name (List.filter cd_primary_key (tm_columns tm))).

Definition empty : t := mkCatalog 1 ∅ ∅.

(** ** JSON access *)

(** [obj.get(k)] on a decoded object. *)
Fixpoint assoc (k : string) (kvs : list (string * json)) : option json :=
  match kvs with
  | [] => None
  | (k', v) :: kvs' => if bool_decide (k' = k) then Some v else assoc k kvs'
  end.

Definition items_of (j : json) : result (list (string * json)) :=
  match j with
  | JObj kvs => Ok kvs
  | _ => Err (PyError "AttributeError")
  end.

(** [obj[k]]. *)
Definition field (k : string) (j : json) : result json :=
  let? kvs := items_of j in
  match assoc k kvs with
  | Some v => Ok v
  | None => Err (PyError "KeyError")
  end.

(** [obj.get(k, dflt)]. *)
Definition field_or (k : string) (dflt : json) (j : json) : result json :=
  let? kvs := items_of j in Ok (default dflt (assoc k kvs)).

(** A field the dataclasses declare as [str]; the embedding is typed, so
    any other JSON value in its place is reported as an error. *)
Definition as_str (j : json) : result string :=
  match j with JStr s => Ok s | _ => Err (PyError "TypeError") end.

(** [int(j)]. *)
Definition json_int (j : json) : result Z :=
  match j with
  | JInt n => Ok n
  | JBool true => Ok 1%Z
  | JBool false => Ok 0%Z
  | JStr _ => Err (PyError "ValueError")
  | _ => Err (PyError "TypeError")
  end.

(** [bool(j)]. *)
Definition json_bool (j : json) : bool :=
  match j with
  | JNull => false
  | JBool b => b
  | JInt n => negb (n =? 0)%Z
  | JStr s => negb (bool_decide (s = ""))
  | JArr l => negb (bool_decide (l = []))
  | JObj l => negb (bool_decide (List.length l = 0))
  end.

(** [list(j)] for a field declared as [list[int]]. *)
Definition json_int_list (j : json) : result (list Z) :=
  match j with
  | JArr l => mapR (λ x, match x with
                         | JInt n => Ok n
                         | _ => Err (PyError "TypeError")
                         end) l
  | _ => Err (PyError "TypeError")
  end.

Definition key_le (a b : string * json) : Prop :=
  String.leb (fst a) (fst b) = true.

#[global] Instance key_le_dec a b : Decision (key_le a b).
Proof. unfold key_le. apply _. Defined.

(** The items of a dict as [json.dumps(..., sort_keys=True)] writes them
    and [json.loads] reads them back: ordered by key. *)
Definition sorted_items {A} (f : A → json) (m : gmap string A)
  : list (string * json) :=
  merge_sort key_le (map (λ kv, (fst kv, f (snd kv))) (map_to_list m)).

(** ** save

    The objects with fixed keys list them in sorted order, as
    [sort_keys=True] writes them. *)

Definition typ_to_dict (ty : TypeSpec) : json :=
  JObj [("name", JStr (ts_name ty));
        ("params", JArr (map JInt (ts_params ty)))].

Definition col_to_dict (c : ColumnDef) : json :=
  JObj [("name", JStr (cd_name c));
        ("not_null", JBool (cd_not_null c));
        ("primary_key", JBool (cd_primary_key c));
        ("typ", typ_to_dict (cd_typ c));
        ("unique", JBool (cd_unique c))].

Definition idx_to_dict (idx : IndexMeta) : json :=
  JObj [("column_name", JStr (im_column_name idx));
        ("table_name", JStr (im_table_name idx))].

Definition table_to_dict (tm : TableMeta) : json :=
  JObj [("columns", JArr (map col_to_dict (tm_columns tm)));
        ("indexes", JObj (sorted_items idx_to_dict (tm_indexes tm)))].

(** The content written to [catalog.json]. *)
Definition save (c : t) : json :=
  JObj [("indexes", JObj (sorted_items idx_to_dict (indexes c)));
        ("tables", JObj (sorted_items table_to_dict (tables c)));
        ("version", JInt (version c))].

(** ** load *)

Definition load_column (c : json) : result ColumnDef :=
  let? ty := field "typ" c in
  let? tname := field "name" ty in
  let? tname := as_str tname in
  let? params := field_or "params" (JArr []) ty in
  let? params := json_int_list params in
  let? name := field "name" c in
  let? name := as_str name in
  let? nn := field_or "not_null" (JBool false) c in
  let? un := field_or "unique" (JBool false) c in
  let? pk := field_or "primary_key" (JBool false) c in
  Ok (mkColumnDef name (mkTypeSpec tname params)
        (json_bool nn) (json_bool un) (json_bool pk)).

Definition load_index (iname : string) (im : json) : result IndexMeta :=
  let? tn := field "table_name" im in
  let? tn := as_str tn in
  let? cn := field "column_name" im in
  let? cn := as_str cn in
  Ok (mkIndexMeta iname tn cn).

(** The loop over one table's ["indexes"]: every index is entered in the
    table's map and in the global map. *)
Fixpoint load_table_indexes (kvs : list (string * json))
    (t_indexes indexes : gmap string IndexMeta)
  : result (gmap string IndexMeta * gmap string IndexMeta) :=
  match kvs with
  | [] => Ok (t_indexes, indexes)
  | (iname, im) :: kvs' =>
      let? idx := load_index iname im in
      load_table_indexes kvs' (<[iname := idx]> t_indexes)
        (<[iname := idx]> indexes)
  end.

Definition load_table (tname : string) (tj : json)
    (indexes : gmap string IndexMeta)
  : result (TableMeta * gmap string IndexMeta) :=
  let? cols := field_or "columns" (JArr []) tj in
  let? cols := match cols with
               | JArr l => mapR load_column l
               | _ => Err (PyError "TypeError")
               end in
  let? idxs := field_or "indexes" (JObj []) tj in
  let? idxs := items_of idxs in
  let? (t_indexes, indexes') := load_table_indexes idxs ∅ indexes in
  Ok (mkTableMeta tname cols t_indexes, indexes').

Fixpoint load_tables (kvs : list (string * json))
    (tables : gmap string TableMeta) (indexes : gmap string IndexMeta)
  : result (gmap string TableMeta * gmap string IndexMeta) :=
  match kvs with
  | [] => Ok (tables, indexes)
  | (tname, tj) :: kvs' =>
      let? (tm, indexes') := load_table tname tj indexes in
      load_tables kvs' (<[tname := tm]> tables) indexes'
  end.

(** The merge of the file's global ["indexes"]: only names not yet
    present are added. *)
Fixpoint load_global_indexes (kvs : list (string * json))
    (indexes : gmap string IndexMeta) : result (gmap string IndexMeta) :=
  match kvs with
  | [] => Ok indexes
  | (iname, im) :: kvs' =>
      match indexes !! iname with
      | Some _ => load_global_indexes kvs' indexes
      | None =>
          let? idx := load_index iname im in
          load_global_indexes kvs' (<[iname := idx]> indexes)
      end
  end.

Definition load (file : option json) : result t :=
  match file with
  | None => Ok empty
  | Some raw =>
      let? v := field_or "version" (JInt 1) raw in
      let? version := json_int v in
      let? ts := field_or "tables" (JObj []) raw in
      let? ts := items_of ts in
      let? (tables, indexes) := load_tables ts ∅ ∅ in
      let? gs := field_or "indexes" (JObj []) raw in
      let? gs := items_of gs in
      let? indexes := load_global_indexes gs indexes in
      Ok (mkCatalog version tables indexes)
  end.

(** ** validation helpers *)

Definition require_table (c : t) (table_name : string) : result TableMeta :=
  match tables c !! table_name with
  | Some tm => Ok tm
  | None => Err (ExecutionError ("Table not found: " +:+ table_name))
  end.

Definition validate_type (ty : TypeSpec) : result unit :=
  let tname := upper (ts_name ty) in
  if bool_decide (tname ∉ SUPPORTED_TYPES) then
    Err (ExecutionError ("Unsupported type: " +:+ ts_name ty))
  else if bool_decide (tname = "VARCHAR") then
    match ts_params ty with
    | [p] => if (p <=? 0)%Z
             then Err (ExecutionError
                         "VARCHAR requires exactly one positive length parameter, e.g. VARCHAR(255)")
             else Ok tt
    | _ => Err (ExecutionError
                  "VARCHAR requires exactly one positive length parameter, e.g. VARCHAR(255)")
    end
  else
    match ts_params ty with
    | [] => Ok tt
    | _ :: _ => Err (ExecutionError
                       ("Type " +:+ tname +:+ " does not accept parameters"))
    end.

Definition validate_create_table (c : t) (table_name : string)
    (columns : list ColumnDef) : result unit :=
  if bool_decide (is_Some (tables c !! table_name)) then
    Err (ExecutionError ("Table already exists: " +:+ table_name))
  else
    let col_names := map cd_name columns in
    if bool_decide (List.length (remove_dups col_names) ≠ List.length col_names)
    then Err (ExecutionError "Duplicate column name in CREATE TABLE")
    else
      let pk_cols := map cd_name (List.filter cd_primary_key columns) in
      if bool_decide (1 < List.length pk_cols) then
        Err (ExecutionError
               "Only one PRIMARY KEY column is supported in this phase")
      else forR (λ c, validate_type (cd_typ c)) columns.

Definition validate_create_index (c : t)
    (index_name table_name column_name : string) : result unit :=
  if bool_decide (is_Some (indexes c !! index_name)) then
    Err (ExecutionError ("Index already exists: " +:+ index_name))
  else
    let? table := require_table c table_name in
    if bool_decide (column_name ∉ column_names table) then
      Err (ExecutionError
             ("Column not found: " +:+ table_name +:+ "." +:+ column_name))
    else Ok tt.

End Catalog.

(* ================================================================== *)
(** * The database directory and the executor's state monad *)
(* ================================================================== *)

(** The state an [Executor] acts on: the in-memory catalog shared with
    the [Database] object, and the files under the database directory. *)
Record db : Type := mkDb {
  catalog : Catalog.t;
  catalog_file : option json;
  heaps : gmap string Heap.files;
}.

(** The two heap files of a table; both are missing for a name that was
    never opened. *)
Definition heap_of (st : db) (table_name : string) : Heap.files :=
  default (Heap.mkFiles None None) (heaps st !! table_name).

Definition set_heap (table_name : string) (f : Heap.files) (st : db) : db :=
  mkDb (catalog st) (catalog_file st) (<[table_name := f]> (heaps st)).

Definition set_catalog (c : Catalog.t) (st : db) : db :=
  mkDb c (catalog_file st) (heaps st).

(** The log of a table as a reader finds it. *)
Definition log_of (st : db) (table_name : string) : list record :=
  default [] (Heap.data_file (heap_of st table_name)).

(** What [HeapTable.open(...).scan_active()] yields. *)
Definition scan_of (st : db) (table_name : string) : list record :=
  Heap.scan_active (log_of st table_name).

Definition M (A : Type) : Type := db → result A * db.

Definition retM {A} (a : A) : M A := λ st, (Ok a, st).

Definition raiseM {A} (e : error) : M A := λ st, (Err e, st).

Definition bindM {A B} (m : M A) (k : A → M B) : M B :=
  λ st, match m st with
        | (Ok a, st') => k a st'
        | (Err e, st') => (Err e, st')
        end.

Definition liftM {A} (r : result A) : M A :=
  λ st, (r, st).

Definition getsM {A} (f : db → A) : M A := λ st, (Ok (f st), st).

Definition modifyM (f : db → db) : M unit := λ st, (Ok tt, f st).

(** [for x in xs: f(x)] with effects. *)
Fixpoint forM {A} (f : A → M unit) (xs : list A) : M unit :=
  match xs with
  | [] => retM tt
  | x :: xs' => bindM (f x) (λ _, forM f xs')
  end.

(* ================================================================== *)
(** * exec/executor.py *)
(* ================================================================== *)

Module Executor.
Import Catalog.

Notation "'do' x <- m ; k" := (bindM m (λ x, k))
  (at level 10, x pattern, m at level 100, k at level 200,
   format "'[v' 'do'  x  <-  m ; '/' k ']'").

(** ** heap handles *)

Definition heap_open (table_name : string) : M unit :=
  modifyM (λ st, set_heap table_name (Heap.open (heap_of st table_name)) st).

Definition heap_scan_active (table_name : string) : M (list record) :=
  do f <- getsM (λ st, heap_of st table_name);
  liftM (Heap.scan f).

Definition heap_insert (table_name : string) (row : record) : M Z := λ st,
  let '(r, f) := Heap.insert row (heap_of st table_name) in
  (r, set_heap table_name f st).

Definition heap_tombstone (table_name : string) (rid : Z) : M unit :=
  modifyM (λ st,
    set_heap table_name (Heap.tombstone rid (heap_of st table_name)) st).

Definition catalog_save : M unit :=
  modifyM (λ st,
    mkDb (catalog st) (Some (Catalog.save (catalog st))) (heaps st)).

(** ** DDL *)

Definition _create_table (table_name : string) (columns : list ColumnDef)
  : M outcome :=
  do c <- getsM catalog;
  do _ <- liftM (validate_create_table c table_name columns);
  let table := mkTableMeta table_name columns ∅ in
  do _ <- modifyM (set_catalog
            (mkCatalog (version c) (<[table_name := table]> (tables c))
               (indexes c)));
  do _ <- catalog_save;
  do _ <- heap_open table_name;
  retM (CommandOk 0 ("Table created: " +:+ table_name)).

Definition _create_index (index_name table_name column_name : string)
  : M outcome :=
  do c <- getsM catalog;
  do _ <- liftM (validate_create_index c index_name table_name column_name);
  let idx := mkIndexMeta index_name table_name column_name in
  let c1 := mkCatalog (version c) (tables c) (<[index_name := idx]> (indexes c)) in
  do _ <- modifyM (set_catalog c1);
  do table <- liftM (require_table c1 table_name);
  let table' := mkTableMeta (tm_name table) (tm_columns table)
                  (<[index_name := idx]> (tm_indexes table)) in
  do _ <- modifyM (set_catalog
            (mkCatalog (version c1) (<[table_name := table']> (tables c1))
               (indexes c1)));
  do _ <- catalog_save;
  retM (CommandOk 0
          ("Index created: " +:+ index_name +:+ " ON " +:+ table_name
           +:+ "(" +:+ column_name +:+ ")")).

(** ** common helpers *)

Definition _resolve_col (table_name : string) (colref : ColumnRef)
    (ctx : string) : result string :=
  match cr_table colref with
  | Some q =>
      if bool_decide (q ≠ table_name) then
        Err (ExecutionError
               (ctx +:+ ": column qualifier " +:+ q +:+ "." +:+ cr_column colref
                +:+ " does not match " +:+ table_name))
      else Ok (cr_column colref)
  | None => Ok (cr_column colref)
  end.

Definition validate_value (table : TableMeta) (col_def : ColumnDef)
    (val : value) : result unit :=
  let t := upper (ts_name (cd_typ col_def)) in
  let where_ := tm_name table +:+ "." +:+ cd_name col_def in
  if bool_decide (t = "INTEGER") then
    if negb (isinstance_int val) || isinstance_bool val then
      Err (ExecutionError ("Type error: " +:+ where_ +:+ " expects INTEGER"))
    else Ok tt
  else if bool_decide (t ∈ ["VARCHAR"; "TEXT"; "DATE"]) then
    match val with
    | VStr s =>
        if bool_decide (t = "VARCHAR") then
          match ts_params (cd_typ col_def) with
          | max_len :: _ =>
              if (max_len <? Z.of_nat (String.length s))%Z then
                Err (ExecutionError
                       ("Type error: " +:+ where_ +:+ " exceeds VARCHAR("
                        +:+ pretty max_len +:+ ")"))
              else Ok tt
          | [] => Err (PyError "IndexError")
          end
        else Ok tt
    | _ => Err (ExecutionError ("Type error: " +:+ where_ +:+ " expects TEXT/DATE"))
    end
  else if bool_decide (t = "BOOLEAN") then
    if negb (isinstance_bool val) then
      Err (ExecutionError ("Type error: " +:+ where_ +:+ " expects BOOLEAN"))
    else Ok tt
  else Err (ExecutionError ("Unsupported type: " +:+ t)).

Definition _validate_insert_types (table : TableMeta) (row : record)
  : result unit :=
  forR (λ col_def,
          match row !! cd_name col_def with
          | None => Ok tt
          | Some val =>
              if is_None val then Ok tt
              else validate_value table col_def val
          end)
       (tm_columns table).

(** The loop over the conditions of a WHERE clause. *)
Fixpoint conditions_match (table_name : string) (row : record)
    (conds : list Condition) : result bool :=
  match conds with
  | [] => Ok true
  | cond :: conds' =>
      if bool_decide (cond_op cond ≠ "=") then
        Err (ExecutionError "Only '=' is supported in WHERE in this phase")
      else
        let? c := _resolve_col table_name (cond_left cond) "WHERE" in
        if negb (py_eq (get c row) (cond_right cond)) then Ok false
        else conditions_match table_name row conds'
  end.

Definition _row_matches_where (table_name : string) (row : record)
    (where_ : option WhereClause) : result bool :=
  match where_ with
  | None => Ok true
  | Some w => conditions_match table_name row (conditions w)
  end.

(** [[r for r in rows if p(r)]] where [p] may raise. *)
Fixpoint filterR {A} (p : A → result bool) (xs : list A) : result (list A) :=
  match xs with
  | [] => Ok []
  | x :: xs' =>
      let? b := p x in
      let? ys := filterR p xs' in
      Ok (if b then x :: ys else ys)
  end.

(** ** constraint helpers *)

Definition not_null_check (table : TableMeta) (nr : record) (c : ColumnDef)
  : result unit :=
  if cd_not_null c || cd_primary_key c then
    if is_None (get (cd_name c) nr) then
      if cd_primary_key c then
        Err (ConstraintError
               ("PRIMARY KEY column cannot be NULL: " +:+ tm_name table
                +:+ "." +:+ cd_name c))
      else
        Err (ConstraintError
               ("NOT NULL constraint failed: " +:+ tm_name table +:+ "."
                +:+ cd_name c))
    else Ok tt
  else Ok tt.

(** The loop over the candidates for the primary key: [existing_pks] is
    fixed, [seen_new_pks] grows. *)
Fixpoint pk_loop (table : TableMeta) (pk_col : string)
    (existing_pks seen_new_pks : list value) (new_rows : list record)
  : result unit :=
  match new_rows with
  | [] => Ok tt
  | nr :: new_rows' =>
      let pk_val := get pk_col nr in
      if py_in pk_val existing_pks then
        Err (ConstraintError
               ("PRIMARY KEY constraint failed: duplicate value for "
                +:+ tm_name table +:+ "." +:+ pk_col))
      else if py_in pk_val seen_new_pks then
        Err (ConstraintError
               "PRIMARY KEY constraint failed: duplicate value within UPDATE/INSERT batch")
      else pk_loop table pk_col existing_pks (pk_val :: seen_new_pks) new_rows'
  end.

Fixpoint unique_loop (table : TableMeta) (ucol : string)
    (existing_vals seen_new : list value) (new_rows : list record)
  : result unit :=
  match new_rows with
  | [] => Ok tt
  | nr :: new_rows' =>
      let v := get ucol nr in
      if is_None v then
        unique_loop table ucol existing_vals seen_new new_rows'
      else if py_in v existing_vals then
        Err (ConstraintError
               ("UNIQUE constraint failed: duplicate value for "
                +:+ tm_name table +:+ "." +:+ ucol))
      else if py_in v seen_new then
        Err (ConstraintError
               ("UNIQUE constraint failed: duplicate value within UPDATE/INSERT batch for "
                +:+ tm_name table +:+ "." +:+ ucol))
      else unique_loop table ucol existing_vals (v :: seen_new) new_rows'
  end.

(** [existing_kept]: the rows whose rid is not excluded. *)
Definition keep_existing (existing_rows : list record) (exclude_rids : gset Z)
  : result (list record) :=
  filterR (λ r, let? rid := py_int (get "_rid" r) in
                Ok (bool_decide (rid ∉ exclude_rids)))
          existing_rows.

Definition _enforce_constraints_batch (table : TableMeta)
    (existing_rows new_rows : list record) (exclude_rids : gset Z)
  : result unit :=
  let? existing_kept := keep_existing existing_rows exclude_rids in
  let? _ := forR (λ nr, forR (not_null_check table nr) (tm_columns table))
              new_rows in
  let? _ :=
    match primary_key_column table with
    | Some pk_col =>
        pk_loop table pk_col (map (get pk_col) existing_kept) [] new_rows
    | None => Ok tt
    end in
  let unique_cols := map cd_name (List.filter cd_unique (tm_columns table)) in
  forR (λ ucol,
          let existing_vals :=
            List.filter (λ v, negb (is_None v)) (map (get ucol) existing_kept) in
          unique_loop table ucol existing_vals [] new_rows)
       unique_cols.

(** ** INSERT *)

(** [{c.name: None for c in table.columns}]. *)
Definition null_row (table : TableMeta) : record :=
  foldl (λ row c, <[cd_name c := VNone]> row) ∅ (tm_columns table).

(** [for c, v in pairs: row[c] = v]. *)
Definition assign_all (pairs : list (string * value)) (row : record) : record :=
  foldl (λ row cv, <[fst cv := snd cv]> row) row pairs.

Definition check_known (what table_name : string) (table : TableMeta)
    (cols : list string) : result unit :=
  forR (λ c, if bool_decide (c ∉ column_names table) then
               Err (ExecutionError
                      ("Unknown column in " +:+ what +:+ ": " +:+ table_name
                       +:+ "." +:+ c))
             else Ok tt)
       cols.

(** The row an INSERT builds from its column and value lists. *)
Definition insert_row (table : TableMeta) (columns : list string)
    (values : list value) : record :=
  assign_all (zip columns values) (null_row table).

Definition _insert (table_name : string) (columns : list string)
    (values : list value) : M outcome :=
  do c <- getsM catalog;
  do table <- liftM (require_table c table_name);
  do _ <- liftM (check_known "INSERT" table_name table columns);
  let row := insert_row table columns values in
  do _ <- liftM (_validate_insert_types table row);
  do _ <- heap_open table_name;
  do existing <- heap_scan_active table_name;
  do _ <- liftM (_enforce_constraints_batch table existing [row] ∅);
  do _ <- heap_insert table_name row;
  retM (CommandOk 1 "1 row inserted").

(** ** SELECT *)

Definition _select (columns : option (list ColumnRef)) (from_table : string)
    (joins : list JoinClause) (where_ : option WhereClause) : M outcome :=
  match joins with
  | _ :: _ => raiseM (ExecutionError "JOIN not implemented yet (later step)")
  | [] =>
      do c <- getsM catalog;
      do table <- liftM (require_table c from_table);
      do _ <- heap_open from_table;
      do out_cols <-
        liftM (match columns with
               | None => Ok (map cd_name (tm_columns table))
               | Some cols =>
                   let? out_cols :=
                     mapR (λ cr, _resolve_col from_table cr "SELECT") cols in
                   let? _ := check_known "SELECT" from_table table out_cols in
                   Ok out_cols
               end);
      do live <- heap_scan_active from_table;
      do matching <-
        liftM (filterR (λ row, _row_matches_where from_table row where_) live);
      retM (QueryResult out_cols
              (map (λ row, map (λ c, get c row) out_cols) matching))
  end.

(** ** UPDATE *)

(** [old["_rid"]] raises when the key is absent. *)
Definition rid_of (r : record) : result Z :=
  match r !! "_rid" with
  | Some v => py_int v
  | None => Err (PyError "KeyError")
  end.

(** [{c.name: old.get(c.name) for c in table.columns}]. *)
Definition logical_columns (table : TableMeta) (old : record) : record :=
  foldl (λ row c, <[cd_name c := get (cd_name c) old]> row) ∅
    (tm_columns table).

Definition candidate_of (table : TableMeta) (assignments : list Assignment)
    (old : record) : record :=
  assign_all (map (λ a, (as_column a, as_value a)) assignments)
    (logical_columns table old).

(** The loop that builds [new_rows] and [exclude_rids]. *)
Fixpoint build_candidates (table : TableMeta) (assignments : list Assignment)
    (matches : list record) : result (list record * gset Z) :=
  match matches with
  | [] => Ok ([], ∅)
  | old :: matches' =>
      let? old_rid := rid_of old in
      let candidate := candidate_of table assignments old in
      let? _ := _validate_insert_types table candidate in
      let? (new_rows, exclude_rids) :=
        build_candidates table assignments matches' in
      Ok (candidate :: new_rows, {[ old_rid ]} ∪ exclude_rids)
  end.

Definition apply_update (table_name : string) (pair : record * record)
  : M unit :=
  do _ <- heap_insert table_name (snd pair);
  do rid <- liftM (rid_of (fst pair));
  heap_tombstone table_name rid.

Definition _update (table_name : string) (assignments : list Assignment)
    (where_ : option WhereClause) : M outcome :=
  do c <- getsM catalog;
  do table <- liftM (require_table c table_name);
  do _ <- heap_open table_name;
  do _ <- liftM (check_known "UPDATE" table_name table
                   (map as_column assignments));
  do existing <- heap_scan_active table_name;
  do matches <-
    liftM (filterR (λ r, _row_matches_where table_name r where_) existing);
  match matches with
  | [] => retM (CommandOk 0 "0 rows updated")
  | _ :: _ =>
      do built <- liftM (build_candidates table assignments matches);
      let '(new_rows, exclude_rids) := built in
      do _ <- liftM (_enforce_constraints_batch table existing new_rows
                       exclude_rids);
      do _ <- forM (apply_update table_name) (zip matches new_rows);
      retM (CommandOk (List.length matches)
              (pretty (List.length matches) +:+ " rows updated"))
  end.

(** ** DELETE *)

Definition apply_delete (table_name : string) (r : record) : M unit :=
  do rid <- liftM (rid_of r);
  heap_tombstone table_name rid.

Definition _delete (table_name : string) (where_ : option WhereClause)
  : M outcome :=
  do c <- getsM catalog;
  do _ <- liftM (require_table c table_name);
  do _ <- heap_open table_name;
  do existing <- heap_scan_active table_name;
  do matches <-
    liftM (filterR (λ r, _row_matches_where table_name r where_) existing);
  do _ <- forM (apply_delete table_name) matches;
  retM (CommandOk (List.length matches)
          (pretty (List.length matches) +:+ " rows deleted")).

Definition execute (stmt : Statement) : M outcome :=
  match stmt with
  | CreateTable table_name columns => _create_table table_name columns
  | CreateIndex index_name table_name column_name =>
      _create_index index_name table_name column_name
  | Insert table_name columns values => _insert table_name columns values
  | Select columns from_table joins where_ =>
      _select columns from_table joins where_
  | Update table_name assignments where_ =>
      _update table_name assignments where_
  | Delete table_name where_ => _delete table_name where_
  end.

End Executor.

(* ================================================================== *)
(** * db.py: the facade *)
(* ================================================================== *)

Module Database.

(** The content of a database directory. *)
Record directory : Type := mkDirectory {
  dir_catalog_file : option json;
  dir_heaps : gmap string Heap.files;
}.

Definition empty_directory : directory := mkDirectory None ∅.

Definition directory_of (st : db) : directory :=
  mkDirectory (catalog_file st) (heaps st).

(** [Database.open(path)]: load the catalog found in the directory. *)
Definition open (d : directory) : result db :=
  let? c := Catalog.load (dir_catalog_file d) in
  Ok (mkDb c (dir_catalog_file d) (dir_heaps d)).

(** [Database.execute(sql)]. *)
Definition execute (sql : string) : M outcome :=
  bindM (liftM (Parser.parse_sql sql)) Executor.execute.

(** What a call of a method of a [Database] object returns. *)
Inductive returned : Type :=
| One (o : outcome)
| Several (os : list outcome).

(** The instance methods class [Database] defines, by name ([open] is a
    class method; [root_dir] and [catalog] are data attributes). *)
Definition methods : list (string * (string → M returned)) :=
  [("execute",
    λ sql, bindM (execute sql) (λ o, retM (One o)))].

Fixpoint find_method (name : string)
    (ms : list (string * (string → M returned)))
  : option (string → M returned) :=
  match ms with
  | [] => None
  | (n, m) :: ms' => if bool_decide (n = name) then Some m
                     else find_method name ms'
  end.

(** [db.<name>(sql)]: attribute lookup, then the call. *)
Definition call_method (name : string) (sql : string) : M returned :=
  match find_method name methods with
  | Some m => m sql
  | None => raiseM (PyError "AttributeError")
  end.

End Database.

(* ================================================================== *)
(** * finance_tracker/app: the caller layer *)
(* ================================================================== *)

Module db_core.

(** [with _DB_LOCK: return _DB.execute(sql)]. *)
Definition execute (sql : string) : M Database.returned :=
  Database.call_method "execute" sql.

(** [with _DB_LOCK: return _DB.execute_script(sql)]. *)
Definition execute_script (sql : string) : M Database.returned :=
  Database.call_method "execute_script" sql.

End db_core.

Module sql.

(** [value.replace("'", "''")]. *)
Fixpoint sql_escape_string (s : string) : string :=
  match s with
  | EmptyString => EmptyString
  | String c s' =>
      if bool_decide (c = Lexer.quote)
      then String Lexer.quote (String Lexer.quote (sql_escape_string s'))
      else String c (sql_escape_string s')
  end.

Definition sql_literal (v : value) : string :=
  match v with
  | VNone => "NULL"
  | VBool true => "true"
  | VBool false => "false"
  | VInt n => pretty n
  | VStr s => "'" +:+ sql_escape_string s +:+ "'"
  end.

End sql.

(* ================================================================== *)
(** * Reachable states and the predicates of the statements *)
(* ================================================================== *)

(** The state after opening an empty directory. *)
Definition initial : db := mkDb Catalog.empty None ∅.

(** The states an engine started on an empty directory can be in: every
    call of [execute] moves on to the state it leaves, whether it returns
    or raises, and the database may be reopened on its directory at any
    time. *)
Inductive reachable : db → Prop :=
| reachable_initial : reachable initial
| reachable_step st stmt r st' :
    reachable st →
    Executor.execute stmt st = (r, st') →
    reachable st'
| reachable_reopen st st' :
    reachable st →
    Database.open (Database.directory_of st) = Ok st' →
    reachable st'.

(** Running a list of SQL statements through [Database.execute], keeping
    the results. *)
Fixpoint run_sql (sqls : list string) (st : db)
  : list (result outcome) * db :=
  match sqls with
  | [] => ([], st)
  | s :: sqls' =>
      let '(r, st1) := Database.execute s st in
      let '(rs, st2) := run_sql sqls' st1 in
      (r :: rs, st2)
  end.

(** The statements that write rows: INSERT and UPDATE. *)
Definition is_insert_or_update (stmt : Statement) : bool :=
  match stmt with
  | Insert _ _ _ | Update _ _ _ => true
  | _ => false
  end.

(** No two values of the list are equal in the sense of Python's [==]. *)
Fixpoint py_distinct (l : list value) : Prop :=
  match l with
  | [] => True
  | v :: l' => py_in v l' = false ∧ py_distinct l'
  end.

(** The value paired with the last occurrence of column [c]. *)
Definition last_assigned (c : string) (pairs : list (string * value))
  : option value :=
  last (map snd (List.filter (λ cv, bool_decide (fst cv = c)) pairs)).

(** [for k, v in items: m[k] = v]. *)
Definition ins_all {V} (l : list (string * V)) (m : gmap string V)
  : gmap string V :=
  foldl (λ m kv, <[kv.1 := kv.2]> m) m l.

(** Catalogs in which every table and index is filed under its own name
    and every entry of a per-table index map is the entry of the global
    index map. *)
Definition catalog_wf (c : Catalog.t) : Prop :=
  (∀ k tm, Catalog.tables c !! k = Some tm →
           Catalog.tm_name tm = k
           ∧ ∀ i idx, Catalog.tm_indexes tm !! i = Some idx →
                      Catalog.indexes c !! i = Some idx)
  ∧ (∀ i idx, Catalog.indexes c !! i = Some idx → Catalog.im_name idx = i).

(** Reopening the database finds the catalog that is in memory. *)
Definition persisted (st : db) : Prop :=
  Catalog.load (catalog_file st) = Ok (catalog st).

(** Heap files exist only for the tables of the catalog. *)
Definition files_known (st : db) : Prop :=
  ∀ t, is_Some (heaps st !! t) → is_Some (Catalog.tables (catalog st) !! t).

(** The primary-key values of the live rows of every table are pairwise
    different. *)
Definition pk_unique (st : db) : Prop :=
  ∀ t tm pk,
    Catalog.tables (catalog st) !! t = Some tm →
    Catalog.primary_key_column tm = Some pk →
    py_distinct (map (get pk) (scan_of st t)).

(** Appending [extra] to the log of [t] keeps its primary-key values
    pairwise different. *)
Definition keeps_pk (st : db) (t : string) (extra : list record) : Prop :=
  ∀ tm pk,
    Catalog.tables (catalog st) !! t = Some tm →
    Catalog.primary_key_column tm = Some pk →
    py_distinct (map (get pk) (scan_of st t)) →
    py_distinct (map (get pk) (Heap.scan_active (log_of st t ++ extra))).

(** The invariant of the reachable states. *)
Definition invariant (st : db) : Prop :=
  catalog_wf (catalog st) ∧ persisted st ∧ files_known st ∧ pk_unique st.

(** The integer rid of a live row. *)
Definition rid_or_zero (r : record) : Z :=
  default 0%Z (as_int (get "_rid" r)).

(** The lines an UPDATE appends for its matches, the first replacement
    row getting rid [n]: a new row, then the tombstone of the old one. *)
Fixpoint update_lines (n : Z) (pairs : list (record * record))
  : list record :=
  match pairs with
  | [] => []
  | (old, cand) :: pairs' =>
      Heap.stored n cand :: Heap.tombstone_record (rid_or_zero old)
      :: update_lines (n + 1)%Z pairs'
  end.

(** A statement's effect on the files: nothing, or the heap of table [t]
    is open and its log has grown by [extra]. *)
Inductive heap_step (st : db) (t : string) (extra : list record) (st' : db)
  : Prop :=
| heap_step_same : extra = [] → st' = st → heap_step st t extra st'
| heap_step_write m :
    is_Some (Catalog.tables (catalog st) !! t) →
    st' = set_heap t (Heap.mkFiles (Some (log_of st t ++ extra)) (Some m)) st →
    heap_step st t extra st'.

(* ================================================================== *)
(** * Predicates on token lists and parser methods *)
(* ================================================================== *)

(** A SqlSyntaxError that carries a position. *)
Definition syntax_error (e : error) : Prop :=
  ∃ msg p, e = SqlSyntaxError msg (Some p).

(** The token lists [tokenize] returns: a closing EOF token and no other
    one, and an [int] as the value of every INT token. *)
Definition lexed (tokens : list Lexer.Token) : Prop :=
  (∃ body eof, tokens = body ++ [eof]
               ∧ Lexer.typ eof = Lexer.EOF
               ∧ Forall (λ t, Lexer.typ t ≠ Lexer.EOF) body)
  ∧ Forall (λ t, Lexer.typ t = Lexer.INT →
                 isinstance_int (Lexer.tvalue t) = true) tokens.

(** Started at an index [i] inside the token list, the parser method [p]
    either raises a SqlSyntaxError or returns with the index moved
    forward (by at least one token when [strict]) and still inside. *)
Definition advances {A} (tokens : list Lexer.Token) (strict : bool)
    (p : Parser.P A) (i : nat) : Prop :=
  (i < length tokens)%nat →
  match p i with
  | Ok (_, j) =>
      (if strict then (i < j)%nat else (i ≤ j)%nat) ∧ (j < length tokens)%nat
  | Err e => syntax_error e
  end.

(* ================================================================== *)
(** * Predicates on schemas, rows and rids *)
(* ================================================================== *)

(** The rid [HeapTable.insert] allocates next in table [t]. *)
Definition next_rid (st : db) (t : string) : Z :=
  default 1%Z (Heap.meta_file (heap_of st t)).

(** The state after [HeapTable.open] on table [t]. *)
Definition opened (st : db) (t : string) : db :=
  set_heap t (Heap.open (heap_of st t)) st.

(** The state after appending [extra] to the log of [t] and moving its
    [next_rid] on by [k]. *)
Definition written (st : db) (t : string) (extra : list record) (k : Z)
  : db :=
  set_heap t
    (Heap.mkFiles (Some (log_of st t ++ extra)) (Some (next_rid st t + k)%Z))
    st.

(** The rows a WHERE clause selects. *)
Definition matches (t : string) (w : option WhereClause) (r : record)
  : bool :=
  match Executor._row_matches_where t r w with
  | Ok b => b
  | Err _ => false
  end.

(** The table definitions [validate_create_table] accepts. *)
Definition schema_ok (tm : Catalog.TableMeta) : Prop :=
  NoDup (Catalog.column_names tm)
  ∧ (length (List.filter cd_primary_key (Catalog.tm_columns tm)) ≤ 1)%nat
  ∧ Forall (λ c, Catalog.validate_type (cd_typ c) = Ok tt)
      (Catalog.tm_columns tm).

(** A row with a field for every column of the table, no NULL in a
    NOT NULL or PRIMARY KEY column, and in every column NULL or a value
    that [_validate_insert_types] accepts. *)
Definition row_ok (tm : Catalog.TableMeta) (r : record) : Prop :=
  ∀ c, c ∈ Catalog.tm_columns tm →
       is_Some (r !! cd_name c)
       ∧ (cd_not_null c || cd_primary_key c = true →
          get (cd_name c) r ≠ VNone)
       ∧ (get (cd_name c) r ≠ VNone →
          Executor.validate_value tm c (get (cd_name c) r) = Ok tt).

(** The values that are not NULL. *)
Definition non_null (vs : list value) : list value :=
  List.filter (λ v, negb (is_None v)) vs.

(** In every UNIQUE column the values other than NULL are pairwise
    different. *)
Definition unique_ok (tm : Catalog.TableMeta) (rows : list record) : Prop :=
  ∀ c, c ∈ Catalog.tm_columns tm → cd_unique c = true →
       py_distinct (non_null (map (get (cd_name c)) rows)).

(** [next_rid] exceeds every rid of the log, and the live rows have
    pairwise different rids. *)
Definition rids_ok (st : db) (t : string) : Prop :=
  (∀ n, n ∈ Heap.log_rids (log_of st t) → (n < next_rid st t)%Z)
  ∧ NoDup (map rid_or_zero (scan_of st t)).

(** The field names the heap uses for its own bookkeeping. *)
Definition reserved : list string := ["_rid"; "_op"; "_deleted"].

(** Tables none of whose columns has a reserved name. *)
Definition plain (tm : Catalog.TableMeta) : Prop :=
  ∀ k, k ∈ reserved → k ∉ Catalog.column_names tm.

(** What holds of every table of a reachable state. *)
Definition table_invariant (st : db) (t : string) (tm : Catalog.TableMeta)
  : Prop :=
  schema_ok tm
  ∧ Forall (row_ok tm) (scan_of st t)
  ∧ unique_ok tm (scan_of st t)
  ∧ ("_rid" ∉ Catalog.column_names tm → rids_ok st t).

Definition rows_invariant (st : db) : Prop :=
  ∀ t tm, Catalog.tables (catalog st) !! t = Some tm →
          table_invariant st t tm.

(** The replacement rows of an UPDATE as they are stored, the first one
    under rid [n]. *)
Fixpoint stored_from (n : Z) (rows : list record) : list record :=
  match rows with
  | [] => []
  | r :: rows' => Heap.stored n r :: stored_from (n + 1)%Z rows'
  end.

(* ================================================================== *)
(** * Facts about lists and results *)
(* ================================================================== *)

Lemma filter_filter_andb {A} (p q : A → bool) (l : list A) :
  List.filter p (List.filter q l) = List.filter (λ x, q x && p x) l.
Proof.
  induction l as [|x l IH]; [done|]. simpl.
  destruct (q x); simpl; [destruct (p x)|]; by rewrite ?IH.
Qed.

Lemma filter_ext_bool {A} (p q : A → bool) (l : list A) :
  (∀ x, p x = q x) → List.filter p l = List.filter q l.
Proof.
  intros H. induction l as [|x l IH]; [done|]. simpl. by rewrite H, IH.
Qed.

Lemma filter_ext_in_bool {A} (p q : A → bool) (l : list A) :
  (∀ x, x ∈ l → p x = q x) → List.filter p l = List.filter q l.
Proof.
  induction l as [|x l IH]; intros H; [done|]. simpl.
  rewrite (H x) by left. rewrite IH; [done|].
  intros y Hy. apply H. by right.
Qed.

(* ================================================================== *)
(** * The heap *)
(* ================================================================== *)

Section HeapFacts.
Import Heap.

Lemma scan_step_unfold (d : gset Z) (rows : list record) (r : record) :
  scan_step (d, rows) r =
  if code_is_tombstone r
  then (match as_int (get "_rid" r) with
        | Some n => {[ n ]} ∪ d
        | None => d
        end, rows)
  else (d, rows ++ [r]).
Proof.
  unfold scan_step, code_is_tombstone.
  destruct (py_eq (get "_op" r) (VStr "DELETE")); simpl.
  - by destruct (as_int (get "_rid" r)).
  - destruct (is_True (get "_deleted" r) && isinstance_int (get "_rid" r));
      [|done].
    by destruct (as_int (get "_rid" r)).
Qed.

Lemma tombstoned_ints_cons (r : record) (log : list record) :
  tombstoned_ints (r :: log) =
  if spec_is_tombstone r
  then match as_int (get "_rid" r) with
       | Some n => {[ n ]} ∪ tombstoned_ints log
       | None => tombstoned_ints log
       end
  else tombstoned_ints log.
Proof.
  unfold tombstoned_ints. simpl.
  destruct (spec_is_tombstone r); [|done]. simpl.
  by destruct (as_int (get "_rid" r)).
Qed.

Lemma tombstoned_ints_app (l1 l2 : list record) :
  tombstoned_ints (l1 ++ l2) = tombstoned_ints l1 ∪ tombstoned_ints l2.
Proof.
  induction l1 as [|r l1 IH].
  - simpl. unfold tombstoned_ints at 2. simpl. set_solver.
  - rewrite <- app_comm_cons, !tombstoned_ints_cons, IH.
    destruct (spec_is_tombstone r); [|done].
    destruct (as_int (get "_rid" r)); [|done]. set_solver.
Qed.

(** The code's tombstones are the spec's tombstones, except for a record
    flagged [_deleted] whose rid is not an integer. *)
Lemma code_tombstone_spec (r : record) :
  code_is_tombstone r =
  spec_is_tombstone r
  && (py_eq (get "_op" r) (VStr "DELETE") || isinstance_int (get "_rid" r)).
Proof.
  unfold code_is_tombstone, spec_is_tombstone.
  destruct (py_eq _ _), (is_True _), (isinstance_int _); done.
Qed.

Lemma scan_pass_from (d0 : gset Z) (rows0 log : list record) :
  foldl scan_step (d0, rows0) log =
  (tombstoned_ints log ∪ d0,
   rows0 ++ List.filter (λ r, negb (code_is_tombstone r)) log).
Proof.
  revert d0 rows0. induction log as [|r log IH]; intros d0 rows0.
  - cbn. f_equal; [set_solver | by rewrite app_nil_r].
  - cbn [foldl]. rewrite scan_step_unfold, tombstoned_ints_cons.
    rewrite code_tombstone_spec. simpl List.filter.
    rewrite code_tombstone_spec. unfold isinstance_int.
    destruct (spec_is_tombstone r) eqn:Hs; simpl.
    + destruct (as_int (get "_rid" r)) as [n|] eqn:Hn; simpl.
      * rewrite orb_true_r. simpl. rewrite IH. f_equal. set_solver.
      * rewrite orb_false_r.
        destruct (py_eq (get "_op" r) (VStr "DELETE")); simpl; rewrite IH;
          [done|].
        by rewrite <- app_assoc.
    + rewrite IH. by rewrite <- app_assoc.
Qed.

Lemma scan_pass_eq (log : list record) :
  scan_pass log =
  (tombstoned_ints log,
   List.filter (λ r, negb (code_is_tombstone r)) log).
Proof. unfold scan_pass. rewrite scan_pass_from. f_equal. set_solver. Qed.

(** [scan_active] as one filter over the log. *)
Lemma scan_active_filter (log : list record) :
  Heap.scan_active log =
  List.filter (λ r, negb (spec_is_tombstone r)
                    && is_live (tombstoned_ints log) r) log.
Proof.
  unfold Heap.scan_active. rewrite scan_pass_eq, filter_filter_andb.
  apply filter_ext_bool. intros r. rewrite code_tombstone_spec.
  unfold is_live, isinstance_int.
  destruct (spec_is_tombstone r), (py_eq _ _), (as_int (get "_rid" r)); done.
Qed.

(** C3 (as amended).  [scan_active] yields, in log order, exactly the
    records that are not tombstones and whose rid is an integer that no
    tombstone carries; a tombstone is a record with op DELETE or with the
    flag [_deleted] set to true, and only integer rids are tombstoned. *)
Theorem scan_active_characterisation (log : list record) :
  Heap.scan_active log =
  List.filter (λ r, negb (spec_is_tombstone r)
                    && match as_int (get "_rid" r) with
                       | Some rid => bool_decide (rid ∉ tombstoned_ints log)
                       | None => false
                       end) log.
Proof.
  unfold Heap.scan_active. rewrite scan_pass_eq, filter_filter_andb.
  apply filter_ext_bool. intros r. rewrite code_tombstone_spec.
  unfold isinstance_int.
  destruct (spec_is_tombstone r) eqn:Htomb; simpl.
  - (* a tombstone of the spec that the code keeps as a row has no
       integer rid, so it is not yielded either *)
    destruct (py_eq (get "_op" r) (VStr "DELETE")); simpl; [done|].
    unfold is_live. by destruct (as_int (get "_rid" r)).
  - reflexivity.
Qed.

(** C3, the claim as worded, fails on a record without an integer rid:
    the table below has a column named [_rid], the INSERT leaves it null,
    and the stored record is not yielded although it is no tombstone and
    no tombstone carries its rid. *)
Lemma scan_active_skips_non_integer_rid :
  let log := [ <["a" := VInt 1]> {[ "_rid" := VNone ]} ] in
  log_of (run_sql ["CREATE TABLE t (_rid INTEGER, a INTEGER);";
                   "INSERT INTO t (a) VALUES (1);"] initial).2 "t" = log
  ∧ Heap.scan_active log = []
  ∧ Heap.spec_scan_active log = log
  ∧ Heap.scan_active log ≠ Heap.spec_scan_active log.
Proof.
  repeat split; by vm_compute.
Qed.

Lemma py_eq_ints (v w : value) (n m : Z) :
  as_int v = Some n → as_int w = Some m → py_eq v w = bool_decide (n = m).
Proof.
  intros Hv Hw. unfold py_eq.
  destruct v as [|x|s|b], w as [|y|s'|b']; try discriminate;
    rewrite Hv, Hw; apply bool_decide_ext; naive_solver.
Qed.

Lemma py_eq_int_other (v w : value) (n : Z) :
  as_int v = Some n → as_int w = None → py_eq v w = false.
Proof.
  intros Hv Hw. unfold py_eq.
  destruct v as [|x|s|b], w as [|y|s'|b']; try discriminate; try done;
    by destruct b'.
Qed.

(** On a log whose records all carry an integer rid the two readings
    agree. *)
Lemma py_in_tombstoned (v : value) (n : Z) (log : list record) :
  as_int v = Some n →
  py_in v (spec_tombstoned log) = bool_decide (n ∈ tombstoned_ints log).
Proof.
  intros Hv. induction log as [|r log IH].
  - by vm_compute.
  - rewrite tombstoned_ints_cons. unfold spec_tombstoned in *. simpl.
    destruct (spec_is_tombstone r); [|done]. simpl. rewrite IH.
    destruct (as_int (get "_rid" r)) as [m|] eqn:Hm.
    + rewrite (py_eq_ints _ _ _ _ Hv Hm).
      apply eq_true_iff_eq. rewrite orb_true_iff, !bool_decide_eq_true.
      set_solver.
    + by rewrite (py_eq_int_other _ _ _ Hv Hm).
Qed.

Lemma scan_active_agrees_on_integer_rids (log : list record) :
  Forall (λ r, isinstance_int (get "_rid" r) = true) log →
  Heap.scan_active log = Heap.spec_scan_active log.
Proof.
  intros Hall. rewrite scan_active_filter. unfold spec_scan_active.
  apply filter_ext_in_bool. intros r Hr.
  rewrite Forall_forall in Hall. specialize (Hall r Hr).
  unfold isinstance_int in Hall. unfold is_live.
  destruct (as_int (get "_rid" r)) as [n|] eqn:Hn; [|done].
  rewrite (py_in_tombstoned _ n) by done.
  f_equal. by rewrite bool_decide_not.
Qed.

(** ** insert and the meta file *)

Lemma heap_insert_allocates (row : record) (f : files) (n : Z) :
  meta_file f = Some n →
  Heap.insert row f =
  (Ok n, {| data_file := Some (default [] (data_file f) ++ [stored n row]);
            meta_file := Some (n + 1)%Z |}).
Proof. intros H. unfold Heap.insert, _load_meta. by rewrite H. Qed.

Lemma stored_rid_fresh (n : Z) (row : record) :
  row !! "_rid" = None → get "_rid" (stored n row) = VInt n.
Proof.
  intros H. unfold get, stored.
  rewrite lookup_union_r by done. by rewrite lookup_singleton_eq.
Qed.

Lemma stored_rid_own (n : Z) (row : record) (v : value) :
  row !! "_rid" = Some v → get "_rid" (stored n row) = v.
Proof.
  intros H. unfold get, stored.
  by rewrite (lookup_union_Some_l _ _ _ _ H).
Qed.

Lemma log_rids_app (l1 l2 : list record) :
  log_rids (l1 ++ l2) = log_rids l1 ++ log_rids l2.
Proof. unfold log_rids. apply omap_app. Qed.

(** For a row that has no field named [_rid], [insert] keeps [next_rid]
    above every rid of the log. *)
Lemma heap_insert_keeps_next_rid_above (row : record) (f : files) (n : Z) :
  row !! "_rid" = None →
  meta_file f = Some n →
  next_rid_above f →
  next_rid_above (Heap.insert row f).2.
Proof.
  intros Hrow Hmeta Hinv. rewrite (heap_insert_allocates _ _ _ Hmeta).
  unfold next_rid_above in *. simpl. rewrite Hmeta in Hinv. simpl in Hinv.
  intros m. rewrite log_rids_app, elem_of_app. intros [Hm|Hm].
  - specialize (Hinv m Hm). lia.
  - unfold log_rids in Hm. simpl in Hm.
    rewrite stored_rid_fresh in Hm by done. simpl in Hm.
    apply list_elem_of_singleton in Hm. lia.
Qed.

(** C4.  A table may declare a column named [_rid]; the value given for
    it replaces the allocated rid in the stored record, so the log holds
    rid 7 while the meta file says [next_rid = 2]. *)
Theorem rid_column_overrides_allocated_rid :
  let run := run_sql ["CREATE TABLE t (_rid INTEGER);";
                      "INSERT INTO t (_rid) VALUES (7);"] initial in
  run.1 = [Ok (CommandOk 0 "Table created: t");
           Ok (CommandOk 1 "1 row inserted")]
  ∧ log_of run.2 "t" = [ {[ "_rid" := VInt 7 ]} ]
  ∧ Heap.meta_file (heap_of run.2 "t") = Some 2%Z
  ∧ ¬ Heap.next_rid_above (heap_of run.2 "t").
Proof.
  repeat split; try by vm_compute.
  intros H. specialize (H 7%Z).
  assert (7 < 2)%Z; [|lia].
  apply H. vm_compute. left.
Qed.

End HeapFacts.

(* ================================================================== *)
(** * The lexer *)
(* ================================================================== *)

Section LexerFacts.
Import Lexer.

Lemma string_app_cons (c : ascii) (s r : string) :
  String c s +:+ r = String c (s +:+ r).
Proof. reflexivity. Qed.

Lemma string_app_nil (r : string) : EmptyString +:+ r = r.
Proof. reflexivity. Qed.

Lemma string_app_assoc (a b c : string) :
  (a +:+ b) +:+ c = a +:+ (b +:+ c).
Proof.
  induction a as [|x a IH]; [done|].
  rewrite !string_app_cons. by rewrite IH.
Qed.

Lemma string_length_app (s r : string) :
  String.length (s +:+ r) = String.length s + String.length r.
Proof. induction s as [|c s IH]; simpl; [done|]. by rewrite IH. Qed.

Lemma advance_rest (s r : string) (ln cl : nat) :
  rest (advance (String.length s) (mkCursor (s +:+ r) ln cl)) = r.
Proof.
  revert ln cl. induction s as [|c s IH]; intros ln cl; [done|].
  simpl. unfold advance1. simpl. case_bool_decide; apply IH.
Qed.

(** The inner loop stops at the first quote. *)
Lemma read_string_to_quote (s r : string) (ln cl : nat) :
  quote_free s = true →
  read_string (s +:+ String quote r) ln cl =
  Some (s, advance (S (String.length s))
             (mkCursor (s +:+ String quote r) ln cl)).
Proof.
  revert ln cl. induction s as [|c s IH]; intros ln cl Hs.
  - simpl. by vm_compute.
  - simpl in Hs. apply andb_true_iff in Hs as [Hc Hs].
    apply negb_true_iff, bool_decide_eq_false in Hc.
    rewrite !string_app_cons. cbn [read_string].
    rewrite bool_decide_eq_false_2 by done.
    change (advance (S (String.length (String c s))) ?x)
      with (advance (S (String.length s)) (advance1 x)).
    unfold advance1 at 1. cbn [rest cur_line cur_col].
    case_bool_decide; by rewrite IH.
Qed.

Lemma lex_step_quote (s r : string) (ln cl : nat) :
  quote_free s = true →
  lex_step quote (mkCursor (String quote (s +:+ String quote r)) ln cl) =
  Ok (Some (mkToken STRING (String quote (s +:+ String quote EmptyString))
              (VStr s) (mkPosition ln cl)),
      advance (S (S (String.length s)))
        (mkCursor (String quote (s +:+ String quote r)) ln cl)).
Proof.
  intros Hs. unfold lex_step.
  change (isspace quote) with false. change (symbol_type quote) with (@None TokenType).
  cbn iota. rewrite bool_decide_eq_true_2 by done.
  change (advance 1 (mkCursor (String quote (s +:+ String quote r)) ln cl))
    with (mkCursor (s +:+ String quote r) ln (S cl)).
  cbn [rest cur_line cur_col]. rewrite read_string_to_quote by done.
  done.
Qed.

Lemma advance_quoted_rest (s r : string) (ln cl : nat) :
  rest (advance (S (S (String.length s)))
          (mkCursor (String quote (s +:+ String quote r)) ln cl)) = r.
Proof.
  change (String quote (s +:+ String quote r))
    with ((String quote s) +:+ String quote r).
  change (S (S (String.length s))) with (S (String.length (String quote s))).
  pose proof (advance_rest (String quote s +:+ String quote EmptyString) r ln cl)
    as H.
  rewrite string_length_app in H. simpl String.length in H.
  rewrite Nat.add_1_r in H.
  assert ((String quote s +:+ String quote EmptyString) +:+ r
          = String quote s +:+ String quote r) as Heq.
  { by rewrite string_app_assoc. }
  by rewrite Heq in H.
Qed.

Lemma advance_quoted (s r : string) (ln cl : nat) :
  ∃ ln' cl',
    advance (S (S (String.length s)))
      (mkCursor (String quote (s +:+ String quote r)) ln cl)
    = mkCursor r ln' cl'.
Proof.
  pose proof (advance_quoted_rest s r ln cl) as H.
  destruct (advance _ _) as [r' ln' cl']. simpl in H. subst r'. eauto.
Qed.

Lemma tokenize_loop_quote (fuel : nat) (s r : string) (ln cl : nat) :
  quote_free s = true →
  ∃ ln' cl',
    tokenize_loop (S fuel)
      (mkCursor (String quote (s +:+ String quote r)) ln cl)
    = let? toks := tokenize_loop fuel (mkCursor r ln' cl') in
      Ok (mkToken STRING (String quote (s +:+ String quote EmptyString))
            (VStr s) (mkPosition ln cl) :: toks).
Proof.
  intros Hs. destruct (advance_quoted s r ln cl) as (ln' & cl' & Hadv).
  exists ln', cl'. cbn [tokenize_loop rest].
  rewrite lex_step_quote by done. rewrite Hadv. done.
Qed.

(** C9.  A string literal runs exactly to the next single quote: the
    value of the STRING token is the text between the opening quote and
    the first quote after it, and lexing resumes right behind that quote.
    Hence two quoted runs separated by a doubled quote are two adjacent
    STRING tokens, as for ['a''b'], which is what the caller layer's
    [sql_literal] produces for the string [a'b]. *)
Theorem string_literal_has_no_escape :
  (∀ (s r : string) (ln cl : nat),
     quote_free s = true →
     ∃ c', lex_step quote
             (mkCursor (String quote (s +:+ String quote r)) ln cl)
           = Ok (Some (mkToken STRING
                         (String quote (s +:+ String quote EmptyString))
                         (VStr s) (mkPosition ln cl)), c')
           ∧ rest c' = r)
  ∧ (∀ s1 s2 : string,
       quote_free s1 = true → quote_free s2 = true →
       ∃ t1 t2 t3,
         tokenize (String quote (s1 +:+ String quote
                     (String quote (s2 +:+ String quote EmptyString))))
         = Ok [t1; t2; t3]
         ∧ (typ t1, tvalue t1) = (STRING, VStr s1)
         ∧ (typ t2, tvalue t2) = (STRING, VStr s2)
         ∧ typ t3 = EOF)
  ∧ sql.sql_literal (VStr "a'b") = "'a''b'"
  ∧ tokenize "'a''b'" =
    Ok [mkToken STRING "'a'" (VStr "a") (mkPosition 1 1);
        mkToken STRING "'b'" (VStr "b") (mkPosition 1 4);
        mkToken EOF "" VNone (mkPosition 1 7)].
Proof.
  split; [|split; [|split; by vm_compute]].
  - intros s r ln cl Hs. eexists. split; [by apply lex_step_quote|].
    apply advance_quoted_rest.
  - intros s1 s2 H1 H2. unfold tokenize.
    assert (∃ f, String.length
                   (String quote (s1 +:+ String quote
                      (String quote (s2 +:+ String quote EmptyString))))
                 = S (S f)) as [f ->].
    { cbn [String.length]. rewrite string_length_app. cbn [String.length].
      rewrite Nat.add_succ_r. eauto. }
    destruct (tokenize_loop_quote (S f) s1
                (String quote (s2 +:+ String quote EmptyString)) 1 1 H1)
      as (l1 & k1 & ->).
    destruct (tokenize_loop_quote f s2 EmptyString l1 k1 H2)
      as (l2 & k2 & ->).
    do 3 eexists. split.
    + destruct f; cbn [tokenize_loop rest bindR]; reflexivity.
    + done.
Qed.

(** Instance of the theorem: the literal ['it'] followed by ['s']. *)
Lemma string_literal_has_no_escape_witness :
  quote_free "it" = true
  ∧ ∃ c', lex_step quote (mkCursor "'it''s'" 1 1)
          = Ok (Some (mkToken STRING "'it'" (VStr "it") (mkPosition 1 1)), c')
          ∧ rest c' = "'s'".
Proof.
  split; [reflexivity|].
  exact (proj1 string_literal_has_no_escape "it" "'s'" 1 1 eq_refl).
Defined.

(** ** The main loop terminates

    Every iteration consumes at least one character, so the fuel given
    by [tokenize] is never exhausted: [tokenize] returns a token list
    ending in EOF or raises SqlSyntaxError. *)

Lemma advance_length (n : nat) (c : cursor) :
  String.length (rest (advance n c)) = String.length (rest c) - n.
Proof.
  revert c. induction n as [|n IH]; intros c; simpl; [lia|].
  rewrite IH. unfold advance1. destruct (rest c) as [|ch r] eqn:Hr.
  - by rewrite Hr.
  - case_bool_decide; simpl; lia.
Qed.

Lemma read_string_consumes (s : string) (ln cl : nat) (buf : string)
    (c' : cursor) :
  read_string s ln cl = Some (buf, c') →
  String.length (rest c') < String.length s.
Proof.
  revert ln cl buf c'. induction s as [|ch s IH]; intros ln cl buf c' H.
  - done.
  - simpl in H. case_bool_decide.
    + simplify_eq. simpl. lia.
    + destruct (bool_decide (ch = newline));
        destruct (read_string s _ _) as [[b x]|] eqn:Hs; simplify_eq;
        apply IH in Hs; simpl; lia.
Qed.

Lemma lex_step_consumes (ch : ascii) (r : string) (c c' : cursor)
    (tok : option Token) :
  rest c = String ch r →
  lex_step ch c = Ok (tok, c') →
  String.length (rest c') < String.length (rest c).
Proof.
  intros Hr H. unfold lex_step in H.
  assert (∀ n, 0 < n →
               String.length (rest (advance n c)) < String.length (rest c))
    as Hadv.
  { intros n Hn. rewrite advance_length, Hr. simpl. lia. }
  destruct (isspace ch); [simplify_eq; apply (Hadv 1); lia|].
  destruct (symbol_type ch); [simplify_eq; apply (Hadv 1); lia|].
  case_bool_decide.
  - destruct (read_string _ _ _) as [[s c2]|] eqn:Hs; [|done]. simplify_eq.
    apply read_string_consumes in Hs.
    pose proof (advance_length 1 c) as H1. lia.
  - destruct (isdigit ch) eqn:Hd.
    + simplify_eq. apply Hadv. rewrite Hr. simpl. rewrite Hd. simpl. lia.
    + destruct (isalpha ch || bool_decide (ch = underscore)) eqn:Ha; [|done].
      simplify_eq. apply Hadv. rewrite Hr. simpl.
      assert (isalnum ch || bool_decide (ch = underscore) = true) as ->.
      { unfold isalnum. apply orb_true_iff in Ha as [->| ->]; [done|].
        by rewrite orb_true_r. }
      simpl. lia.
Qed.

Lemma tokenize_loop_total (fuel : nat) (c : cursor) :
  (String.length (rest c) ≤ fuel)%nat →
  (∃ toks eof, tokenize_loop fuel c = Ok (toks ++ [eof]) ∧ typ eof = EOF)
  ∨ (∃ msg p, tokenize_loop fuel c = Err (SqlSyntaxError msg p)).
Proof.
  revert c. induction fuel as [|fuel IH]; intros c Hlen.
  - destruct (rest c) as [|ch r] eqn:Hr; [|simpl in Hlen; lia].
    left. exists [], (mkToken EOF "" VNone (cur_pos c)). simpl.
    by rewrite Hr.
  - destruct (rest c) as [|ch r] eqn:Hr.
    + left. exists [], (mkToken EOF "" VNone (cur_pos c)). simpl.
      by rewrite Hr.
    + cbn [tokenize_loop]. rewrite Hr.
      destruct (lex_step ch c) as [[tok c']|e] eqn:Hstep; cbn [bindR].
      * pose proof (lex_step_consumes _ _ _ _ _ Hr Hstep) as Hlt.
        destruct (IH c') as [(toks & eof & -> & Heof)|(msg & p & ->)].
        -- rewrite Hr in Hlt. simpl in *. lia.
        -- left. cbn [bindR]. destruct tok as [t|].
           ++ by exists (t :: toks), eof.
           ++ by exists toks, eof.
        -- right. cbn [bindR]. eauto.
      * right. unfold lex_step in Hstep.
        destruct (isspace ch); [done|]. destruct (symbol_type ch); [done|].
        case_bool_decide.
        -- destruct (read_string _ _ _) as [[]|]; simplify_eq; eauto.
        -- destruct (isdigit ch); [done|].
           destruct (isalpha ch || _); simplify_eq; eauto.
Qed.

Lemma tokenize_total (sql : string) :
  (∃ toks eof, tokenize sql = Ok (toks ++ [eof]) ∧ typ eof = EOF)
  ∨ (∃ msg p, tokenize sql = Err (SqlSyntaxError msg p)).
Proof. apply tokenize_loop_total. done. Qed.

End LexerFacts.

(* ================================================================== *)
(** * The parser *)
(* ================================================================== *)

Section ParserFacts.
Import Lexer Parser.

Variable tokens : list Token.

Lemma drop_cons_inv {A} (l : list A) (i : nat) (x : A) (l' : list A) :
  drop i l = x :: l' → l !! i = Some x ∧ drop (S i) l = l'.
Proof.
  revert i. induction l as [|y l IH]; intros i H.
  - by rewrite drop_nil in H.
  - destruct i as [|i]; simpl in *; [by simplify_eq|]. by apply IH.
Qed.

Lemma peek_at (i : nat) (t : Token) :
  tokens !! i = Some t → peek tokens 0 i = Ok (t, i).
Proof. intros H. unfold peek. by rewrite Nat.add_0_r, H. Qed.

Lemma bindP_eq {A B} (m : P A) (k : A → P B) (i : nat) (a : A) (i' : nat) :
  m i = Ok (a, i') → bindP m k i = k a i'.
Proof. intros H. unfold bindP. by rewrite H. Qed.

Lemma expect_ok (ty : TokenType) (msg : string) (i : nat) (t : Token) :
  tokens !! i = Some t → typ t = ty →
  expect tokens ty msg i = Ok (t, S i).
Proof.
  intros Hi Ht. unfold expect.
  rewrite (bindP_eq _ _ _ _ _ (peek_at _ _ Hi)).
  rewrite bool_decide_eq_true_2 by done.
  unfold consume. by rewrite (bindP_eq _ _ _ _ _ (peek_at _ _ Hi)).
Qed.

Lemma match_yes (ty : TokenType) (i : nat) (t : Token) :
  tokens !! i = Some t → typ t = ty →
  match_ tokens ty i = Ok (true, S i).
Proof.
  intros Hi Ht. unfold match_, at_.
  rewrite (bindP_eq _ _ i (bool_decide (typ t = ty)) i).
  - rewrite bool_decide_eq_true_2 by done.
    unfold consume.
    rewrite (bindP_eq _ _ i t (S i)); [done|].
    by rewrite (bindP_eq _ _ _ _ _ (peek_at _ _ Hi)).
  - by rewrite (bindP_eq _ _ _ _ _ (peek_at _ _ Hi)).
Qed.

Lemma match_no (ty : TokenType) (i : nat) (t : Token) :
  tokens !! i = Some t → typ t ≠ ty →
  match_ tokens ty i = Ok (false, i).
Proof.
  intros Hi Ht. unfold match_, at_.
  rewrite (bindP_eq _ _ i (bool_decide (typ t = ty)) i).
  - by rewrite bool_decide_eq_false_2 by done.
  - by rewrite (bindP_eq _ _ _ _ _ (peek_at _ _ Hi)).
Qed.

(** A step of the form [do t <- expect ...; k t] on a stream whose next
    token has the expected type. *)
Lemma bind_expect {B} (ty : TokenType) (msg : string) (k : Token → P B)
    (i : nat) (t : Token) (l : list Token) :
  drop i tokens = t :: l → typ t = ty →
  bindP (expect tokens ty msg) k i = k t (S i).
Proof.
  intros Hd Ht. apply bindP_eq, expect_ok; [|done].
  by apply (drop_cons_inv _ _ _ _ Hd).
Qed.

Section SepLoop.

Context {A : Type} (sep : TokenType) (item : P A).
Context (accept : Token → Prop) (f : Token → A).
Hypothesis item_ok :
  ∀ j x, tokens !! j = Some x → accept x → item j = Ok (f x, S j).

Lemma sep_loop_pairs (pairs : list (Token * Token)) :
  ∀ (fuel i : nat) (stop : Token) (more : list Token),
    drop i tokens = flat_map (λ sx, [sx.1; sx.2]) pairs ++ stop :: more →
    Forall (λ sx, typ sx.1 = sep ∧ accept sx.2) pairs →
    typ stop ≠ sep →
    length pairs < fuel →
    sep_loop tokens fuel sep item i
    = Ok (map (λ sx, f sx.2) pairs, i + 2 * length pairs).
Proof.
  induction pairs as [|[s x] pairs IH]; intros fuel i stop more Hd Hall Hstop Hf.
  - destruct fuel as [|fuel]; [simpl in Hf; lia|]. simpl in Hd.
    apply drop_cons_inv in Hd as [Hi _]. cbn [sep_loop].
    rewrite (bindP_eq _ _ _ _ _ (match_no _ _ _ Hi Hstop)).
    unfold retP. simpl. do 2 f_equal. lia.
  - destruct fuel as [|fuel]; [simpl in Hf; lia|].
    apply Forall_cons in Hall as [[Hs Hx] Hall]. simpl in Hs, Hx, Hd.
    apply drop_cons_inv in Hd as [Hi Hd].
    apply drop_cons_inv in Hd as [Hi' Hd].
    cbn [sep_loop].
    rewrite (bindP_eq _ _ _ _ _ (match_yes _ _ _ Hi Hs)).
    rewrite (bindP_eq _ _ _ _ _ (item_ok _ _ Hi' Hx)).
    rewrite (bindP_eq _ _ _ _ _ (IH fuel _ _ _ Hd Hall Hstop
                                   ltac:(simpl in Hf; lia))).
    unfold retP. simpl. do 2 f_equal. lia.
Qed.

Lemma sep_list_pairs (x0 : Token) (pairs : list (Token * Token))
    (i : nat) (stop : Token) (more : list Token) :
  drop i tokens = separated x0 pairs ++ stop :: more →
  accept x0 →
  Forall (λ sx, typ sx.1 = sep ∧ accept sx.2) pairs →
  typ stop ≠ sep →
  sep_list tokens sep item i
  = Ok (f x0 :: map (λ sx, f sx.2) pairs, S i + 2 * length pairs).
Proof.
  intros Hd H0 Hall Hstop. unfold separated in Hd. simpl in Hd.
  assert (length pairs < loop_fuel tokens) as Hfuel.
  { unfold loop_fuel.
    assert (length (drop i tokens) ≤ length tokens)%nat as Hle
      by (rewrite length_drop; lia).
    rewrite Hd in Hle. simpl in Hle. rewrite length_app in Hle.
    assert (length pairs ≤ length (flat_map (λ sx, [sx.1; sx.2]) pairs))%nat.
    { clear. induction pairs as [|p ps IH]; simpl; lia. }
    lia. }
  apply drop_cons_inv in Hd as [Hi Hd].
  unfold sep_list.
  rewrite (bindP_eq _ _ _ _ _ (item_ok _ _ Hi H0)).
  rewrite (bindP_eq _ _ _ _ _
             (sep_loop_pairs _ _ _ _ _ Hd Hall Hstop Hfuel)).
  done.
Qed.

End SepLoop.

Lemma parse_column_name_ok (j : nat) (x : Token) :
  tokens !! j = Some x → typ x = IDENT →
  parse_column_name tokens j = Ok (py_str (tvalue x), S j).
Proof.
  intros Hj Hx. unfold parse_column_name.
  by rewrite (bindP_eq _ _ _ _ _ (expect_ok _ _ _ _ Hj Hx)).
Qed.

Lemma parse_literal_ok (j : nat) (x : Token) :
  tokens !! j = Some x → literal_token x = true →
  parse_literal tokens j = Ok (literal_value x, S j).
Proof.
  intros Hj Hx. unfold parse_literal, literal_value, literal_token in *.
  assert (consume tokens j = Ok (x, S j)) as Hc.
  { unfold consume. by rewrite (bindP_eq _ _ _ _ _ (peek_at _ _ Hj)). }
  rewrite (bindP_eq _ _ _ _ _ (peek_at _ _ Hj)).
  destruct (bool_decide (typ x = INT)) eqn:Hint.
  - rewrite (bindP_eq _ _ _ _ _ Hc).
    assert (isinstance_int (tvalue x) = true) as Hv.
    { apply bool_decide_eq_true in Hint. rewrite Hint in Hx.
      by destruct (isinstance_int (tvalue x)). }
    unfold isinstance_int in Hv. unfold liftP, py_int, bindP.
    by destruct (as_int (tvalue x)).
  - destruct (bool_decide (typ x = STRING)) eqn:Hstr.
    + by rewrite (bindP_eq _ _ _ _ _ Hc).
    + destruct (bool_decide (typ x = BOOL)) eqn:Hbool; [|done].
      by rewrite (bindP_eq _ _ _ _ _ Hc).
Qed.

End ParserFacts.

Section ParseInsertArity.
Import Lexer Parser.

Variables (kw_insert kw_into name lp1 col0 rp1 kw_values lp2 val0 rp2 nxt
           : Token).
Variables (cols vals : list (Token * Token)) (more : list Token).

Hypothesis insert_kw : typ kw_insert = INSERT.
Hypothesis into_kw : typ kw_into = INTO.
Hypothesis name_ident : typ name = IDENT.
Hypothesis lp1_paren : typ lp1 = LPAREN.
Hypothesis col0_ident : typ col0 = IDENT.
Hypothesis cols_idents :
  Forall (λ sx, typ sx.1 = COMMA ∧ typ sx.2 = IDENT) cols.
Hypothesis rp1_paren : typ rp1 = RPAREN.
Hypothesis values_kw : typ kw_values = VALUES.
Hypothesis lp2_paren : typ lp2 = LPAREN.
Hypothesis val0_literal : literal_token val0 = true.
Hypothesis vals_literals :
  Forall (λ sx, typ sx.1 = COMMA ∧ literal_token sx.2 = true) vals.
Hypothesis rp2_paren : typ rp2 = RPAREN.

(** C7 (as amended).  When the column list and the value list of an
    INSERT have different lengths, parsing fails with a SqlSyntaxError
    whose position is that of the token following the closing
    parenthesis of the value list. *)
Theorem parse_insert_arity_mismatch :
  length cols ≠ length vals →
  run (parse_insert
         (insert_tokens kw_insert kw_into name lp1 col0 cols rp1 kw_values
            lp2 val0 vals rp2 nxt more))
  = Err (SqlSyntaxError "Number of columns does not match number of values"
           (Some (pos nxt))).
Proof.
  intros Hlen.
  set (tokens := insert_tokens _ _ _ _ _ _ _ _ _ _ _ _ _ _).
  assert (drop 0 tokens
          = kw_insert :: kw_into :: name :: lp1
            :: (separated col0 cols
                ++ rp1 :: kw_values :: lp2
                   :: separated val0 vals ++ rp2 :: nxt :: more))
    as Hd0 by reflexivity.
  unfold run, parse_insert.
  rewrite (bind_expect tokens _ _ _ _ _ _ Hd0 insert_kw).
  apply drop_cons_inv in Hd0 as [_ Hd0].
  rewrite (bind_expect tokens _ _ _ _ _ _ Hd0 into_kw).
  apply drop_cons_inv in Hd0 as [_ Hd0].
  rewrite (bind_expect tokens _ _ _ _ _ _ Hd0 name_ident).
  apply drop_cons_inv in Hd0 as [_ Hd0].
  rewrite (bind_expect tokens _ _ _ _ _ _ Hd0 lp1_paren).
  apply drop_cons_inv in Hd0 as [_ Hd0].
  assert (typ rp1 ≠ COMMA) as Hrp1 by (rewrite rp1_paren; done).
  assert (typ rp2 ≠ COMMA) as Hrp2 by (rewrite rp2_paren; done).
  rewrite (bindP_eq _ _ _ _ _
             (sep_list_pairs tokens COMMA (parse_column_name tokens)
                (λ x, typ x = IDENT) (λ x, py_str (tvalue x))
                (parse_column_name_ok tokens)
                col0 cols _ _ _ Hd0 col0_ident cols_idents Hrp1)).
  assert (drop (4 + length (separated col0 cols)) tokens
          = rp1 :: kw_values :: lp2 :: separated val0 vals
            ++ rp2 :: nxt :: more) as Hd1.
  { unfold tokens, insert_tokens. rewrite (app_assoc _ (separated col0 cols)).
    rewrite drop_app_length'; [done|]. rewrite length_app. done. }
  assert (length (separated col0 cols) = S (2 * length cols)) as Hlc.
  { unfold separated. simpl. f_equal. clear.
    induction cols as [|p ps IH]; simpl; lia. }
  assert (length (separated val0 vals) = S (2 * length vals)) as Hlv.
  { unfold separated. simpl. f_equal. clear.
    induction vals as [|p ps IH]; simpl; lia. }
  rewrite Hlc in Hd1.
  replace (4 + S (2 * length cols)) with (S 4 + 2 * length cols) in Hd1 by lia.
  rewrite (bind_expect tokens _ _ _ _ _ _ Hd1 rp1_paren).
  apply drop_cons_inv in Hd1 as [_ Hd1].
  rewrite (bind_expect tokens _ _ _ _ _ _ Hd1 values_kw).
  apply drop_cons_inv in Hd1 as [_ Hd1].
  rewrite (bind_expect tokens _ _ _ _ _ _ Hd1 lp2_paren).
  apply drop_cons_inv in Hd1 as [_ Hd1].
  rewrite (bindP_eq _ _ _ _ _
             (sep_list_pairs tokens COMMA (parse_literal tokens)
                (λ x, literal_token x = true) literal_value
                (parse_literal_ok tokens)
                val0 vals _ _ _ Hd1 val0_literal vals_literals Hrp2)).
  set (j := S (S (S (S (S 4 + 2 * length cols)))) + 2 * length vals) in *.
  assert (drop j tokens = rp2 :: nxt :: more) as Hd2.
  { pose proof (f_equal (drop (length (separated val0 vals))) Hd1) as Hd2.
    rewrite drop_drop, drop_app_length, Hlv in Hd2.
    rewrite <- Hd2. f_equal. unfold j. lia. }
  rewrite (bind_expect tokens _ _ _ _ _ _ Hd2 rp2_paren).
  apply drop_cons_inv in Hd2 as [_ Hd2].
  apply drop_cons_inv in Hd2 as [Hnxt _].
  rewrite bool_decide_eq_true_2.
  - rewrite (bindP_eq _ _ _ _ _ (peek_at tokens _ _ Hnxt)). done.
  - simpl. rewrite !length_map. lia.
Qed.

End ParseInsertArity.

(** C7, the claim as worded, fails: for the statement below the closing
    parenthesis of the value list is the token at line 1, column 31, and
    the error carries line 1, column 32, the position of the semicolon. *)
Lemma parse_insert_arity_position_is_not_rparen :
  let sql := "INSERT INTO t (a, b) VALUES (1);" in
  ∃ toks rparen,
    Lexer.tokenize sql = Ok toks
    ∧ last (List.filter (λ t, bool_decide (Lexer.typ t = Lexer.RPAREN)) toks)
      = Some rparen
    ∧ Lexer.pos rparen = mkPosition 1 31
    ∧ Parser.parse_sql sql
      = Err (SqlSyntaxError
               "Number of columns does not match number of values"
               (Some (mkPosition 1 32)))
    ∧ Parser.parse_sql sql
      ≠ Err (SqlSyntaxError
               "Number of columns does not match number of values"
               (Some (Lexer.pos rparen))).
Proof.
  do 2 eexists. split; [by vm_compute|].
  split; [by vm_compute|]. repeat split; by vm_compute.
Qed.

(** Instance of the theorem: the tokens of
    [INSERT INTO t (a, b) VALUES (1);]. *)
Lemma parse_insert_arity_mismatch_witness :
  let tk ty lex v c := Lexer.mkToken ty lex v (mkPosition 1 c) in
  Parser.run
    (Parser.parse_insert
       (Parser.insert_tokens
          (tk Lexer.INSERT "INSERT" (VStr "INSERT") 1)
          (tk Lexer.INTO "INTO" (VStr "INTO") 8)
          (tk Lexer.IDENT "t" (VStr "t") 13)
          (tk Lexer.LPAREN "(" VNone 15)
          (tk Lexer.IDENT "a" (VStr "a") 16)
          [(tk Lexer.COMMA "," VNone 17, tk Lexer.IDENT "b" (VStr "b") 19)]
          (tk Lexer.RPAREN ")" VNone 20)
          (tk Lexer.VALUES "VALUES" (VStr "VALUES") 22)
          (tk Lexer.LPAREN "(" VNone 29)
          (tk Lexer.INT "1" (VInt 1) 30)
          []
          (tk Lexer.RPAREN ")" VNone 31)
          (tk Lexer.SEMI ";" VNone 32)
          [tk Lexer.EOF "" VNone 33]))
  = Err (SqlSyntaxError "Number of columns does not match number of values"
           (Some (mkPosition 1 32))).
Proof.
  intros tk.
  apply (parse_insert_arity_mismatch
           (tk Lexer.INSERT "INSERT" (VStr "INSERT") 1)
           (tk Lexer.INTO "INTO" (VStr "INTO") 8)
           (tk Lexer.IDENT "t" (VStr "t") 13)
           (tk Lexer.LPAREN "(" VNone 15)
           (tk Lexer.IDENT "a" (VStr "a") 16)
           (tk Lexer.RPAREN ")" VNone 20)
           (tk Lexer.VALUES "VALUES" (VStr "VALUES") 22)
           (tk Lexer.LPAREN "(" VNone 29)
           (tk Lexer.INT "1" (VInt 1) 30)
           (tk Lexer.RPAREN ")" VNone 31)
           (tk Lexer.SEMI ";" VNone 32)
           [(tk Lexer.COMMA "," VNone 17, tk Lexer.IDENT "b" (VStr "b") 19)]
           []
           [tk Lexer.EOF "" VNone 33]);
    try reflexivity.
  - repeat constructor.
  - constructor.
  - simpl. lia.
Defined.

(* ================================================================== *)
(** * The facade and the caller layer *)
(* ================================================================== *)

(** C5.  Class [Database] defines [open] and [execute] only, so the call
    [_DB.execute_script(sql)] made by the caller layer's
    [execute_script] raises AttributeError for every script and in every
    state: nothing is parsed and nothing is executed. *)
Theorem execute_script_is_not_defined (sql : string) (st : db) :
  Database.find_method "execute_script" Database.methods = None
  ∧ db_core.execute_script sql st = (Err (PyError "AttributeError"), st).
Proof. split; reflexivity. Qed.

(** The sibling entry point [execute] is defined and runs a statement. *)
Lemma db_core_execute_runs :
  (db_core.execute "CREATE TABLE t (a INTEGER);" initial).1
  = Ok (Database.One (CommandOk 0 "Table created: t")).
Proof. by vm_compute. Qed.

(* ================================================================== *)
(** * The executor: heap handles *)
(* ================================================================== *)

Section StateFacts.
Import Catalog Executor.

Lemma heap_of_set_heap (t t' : string) (f : Heap.files) (st : db) :
  heap_of (set_heap t f st) t' = if decide (t = t') then f else heap_of st t'.
Proof.
  unfold heap_of, set_heap. simpl. rewrite lookup_insert.
  by case_decide.
Qed.

Lemma set_heap_set_heap (t : string) (f1 f2 : Heap.files) (st : db) :
  set_heap t f2 (set_heap t f1 st) = set_heap t f2 st.
Proof. unfold set_heap. simpl. by rewrite insert_insert_eq. Qed.

Lemma log_of_set_heap (t t' : string) (f : Heap.files) (st : db) :
  log_of (set_heap t f st) t'
  = if decide (t = t') then default [] (Heap.data_file f) else log_of st t'.
Proof. unfold log_of. rewrite heap_of_set_heap. by case_decide. Qed.

(** Opening a table's heap changes neither its log nor any other. *)
Lemma log_of_open (t t' : string) (st : db) :
  log_of (set_heap t (Heap.open (heap_of st t)) st) t' = log_of st t'.
Proof.
  rewrite log_of_set_heap. case_decide; [subst|done]. done.
Qed.

Lemma heap_scan_active_open (t : string) (st : db) :
  heap_scan_active t (set_heap t (Heap.open (heap_of st t)) st)
  = (Ok (scan_of st t), set_heap t (Heap.open (heap_of st t)) st).
Proof.
  unfold heap_scan_active, bindM, getsM, liftM.
  rewrite heap_of_set_heap, decide_True by done. done.
Qed.

End StateFacts.

(* ================================================================== *)
(** * The qualifier check of WHERE *)
(* ================================================================== *)

Section WhereFacts.
Import Catalog Executor.

(** With no live row the WHERE clause is never evaluated: SELECT returns
    an empty result whatever the clause refers to. *)
Lemma select_star_on_empty_table (st : db) (t : string) (tm : TableMeta)
    (w : option WhereClause) :
  tables (catalog st) !! t = Some tm →
  scan_of st t = [] →
  (Executor.execute (Select None t [] w) st).1
  = Ok (QueryResult (map cd_name (tm_columns tm)) []).
Proof.
  intros Ht Hscan. unfold execute, _select.
  unfold bindM at 1. unfold getsM at 1.
  unfold bindM at 1. unfold liftM at 1, require_table at 1. rewrite Ht.
  unfold bindM at 1. unfold heap_open, modifyM.
  unfold bindM at 1. unfold liftM at 1.
  unfold bindM at 1. rewrite heap_scan_active_open, Hscan.
  done.
Qed.

(** C6.  On a table without live rows a WHERE clause whose column is
    qualified by another table's name is not rejected: SELECT returns an
    empty result, UPDATE and DELETE report zero rows.  The same clause is
    rejected only once a live row reaches it, and a SELECT list with the
    same qualifier is rejected on the empty table as well. *)
Theorem where_qualifier_unchecked_without_rows :
  (run_sql ["CREATE TABLE t (a INTEGER);";
            "SELECT * FROM t WHERE u.a = 1;";
            "UPDATE t SET a = 2 WHERE u.a = 1;";
            "DELETE FROM t WHERE u.a = 1;";
            "SELECT u.a FROM t;";
            "INSERT INTO t (a) VALUES (5);";
            "SELECT * FROM t WHERE u.a = 1;";
            "SELECT * FROM t WHERE a = 1 AND u.a = 1;"] initial).1
  = [Ok (CommandOk 0 "Table created: t");
     Ok (QueryResult ["a"] []);
     Ok (CommandOk 0 "0 rows updated");
     Ok (CommandOk 0 "0 rows deleted");
     Err (ExecutionError "SELECT: column qualifier u.a does not match t");
     Ok (CommandOk 1 "1 row inserted");
     Err (ExecutionError "WHERE: column qualifier u.a does not match t");
     Ok (QueryResult ["a"] [])].
Proof. by vm_compute. Qed.

End WhereFacts.

(* ================================================================== *)
(** * INSERT with a repeated column *)
(* ================================================================== *)

Section InsertRowFacts.
Import Catalog Executor.

Lemma assign_all_app (p1 p2 : list (string * value)) (row : record) :
  assign_all (p1 ++ p2) row = assign_all p2 (assign_all p1 row).
Proof. unfold assign_all. apply foldl_app. Qed.

Lemma assign_all_lookup (pairs : list (string * value)) (row : record)
    (c : string) :
  assign_all pairs row !! c
  = match last_assigned c pairs with
    | Some v => Some v
    | None => row !! c
    end.
Proof.
  revert row. induction pairs as [|[c' v'] pairs IH] using rev_ind; intros row.
  - done.
  - rewrite assign_all_app. unfold last_assigned.
    rewrite List.filter_app, map_app. simpl.
    cbn [assign_all foldl]. simpl. rewrite lookup_insert.
    case_decide as Hc; subst.
    + rewrite bool_decide_eq_true_2 by done. simpl. by rewrite last_snoc.
    + rewrite bool_decide_eq_false_2 by done. simpl. rewrite app_nil_r.
      apply IH.
Qed.

Lemma last_assigned_later (c : string) (v : value)
    (p1 p2 : list (string * value)) :
  c ∈ p2.*1 →
  last_assigned c (p1 ++ (c, v) :: p2) = last_assigned c p2
  ∧ last_assigned c (p1 ++ p2) = last_assigned c p2
  ∧ is_Some (last_assigned c p2).
Proof.
  intros Hin. unfold last_assigned.
  assert (∃ w l, map snd (List.filter (λ cv, bool_decide (cv.1 = c)) p2)
                 = l ++ [w]) as (w & l & Hl).
  { clear -Hin. induction p2 as [|[c' v'] p2 IH] using rev_ind.
    - by apply elem_of_nil in Hin.
    - rewrite List.filter_app, map_app. simpl.
      case_bool_decide as Hc; simpl; [eauto|].
      rewrite app_nil_r. apply IH.
      rewrite fmap_app in Hin. apply elem_of_app in Hin as [Hin|Hin]; [done|].
      simpl in Hin. apply list_elem_of_singleton in Hin. by subst. }
  rewrite !List.filter_app, !map_app. simpl.
  rewrite bool_decide_eq_true_2 by done. simpl.
  rewrite Hl. rewrite last_snoc. split; [|split; [|by eauto]].
  - by rewrite app_comm_cons, app_assoc, last_snoc.
  - by rewrite app_assoc, last_snoc.
Qed.

Lemma zip_app_same {A B} (l1 l2 : list A) (k1 k2 : list B) :
  length l1 = length k1 → zip (l1 ++ l2) (k1 ++ k2) = zip l1 k1 ++ zip l2 k2.
Proof.
  revert k1. induction l1 as [|x l1 IH]; intros [|y k1] H; simplify_eq/=;
    [done|]. f_equal. by apply IH.
Qed.

Lemma zip_fst_same {A B} (l : list A) (k : list B) :
  length l = length k → (zip l k).*1 = l.
Proof.
  revert k. induction l as [|x l IH]; intros [|y k] H; simplify_eq/=; [done|].
  f_equal. by apply IH.
Qed.

Lemma check_known_app (what tn : string) (tm : TableMeta)
    (l1 l2 : list string) :
  check_known what tn tm (l1 ++ l2)
  = bindR (check_known what tn tm l1) (λ _, check_known what tn tm l2).
Proof.
  unfold check_known. induction l1 as [|c l1 IH]; [done|]. simpl.
  destruct (bool_decide (c ∉ column_names tm)); simpl; [done|]. apply IH.
Qed.

(** C10.  An INSERT whose column list repeats an existing column [c] is
    handled exactly as the INSERT without the earlier occurrence: the row
    that is validated and stored is the same, it gives [c] the value
    paired with the last occurrence of [c], and [execute] returns the
    same result and leaves the same state, so the repetition itself is
    never rejected and the earlier value is dropped. *)
Theorem insert_repeated_column_last_wins (st : db) (tname : string)
    (tm : TableMeta) (c : string) (v : value)
    (cs1 cs2 : list string) (vs1 vs2 : list value) :
  tables (catalog st) !! tname = Some tm →
  c ∈ column_names tm →
  length cs1 = length vs1 →
  length cs2 = length vs2 →
  c ∈ cs2 →
  insert_row tm (cs1 ++ c :: cs2) (vs1 ++ v :: vs2)
  = insert_row tm (cs1 ++ cs2) (vs1 ++ vs2)
  ∧ (∃ w, last_assigned c (zip (cs1 ++ c :: cs2) (vs1 ++ v :: vs2)) = Some w
          ∧ last_assigned c (zip cs2 vs2) = Some w
          ∧ insert_row tm (cs1 ++ c :: cs2) (vs1 ++ v :: vs2) !! c = Some w)
  ∧ Executor.execute (Insert tname (cs1 ++ c :: cs2) (vs1 ++ v :: vs2)) st
    = Executor.execute (Insert tname (cs1 ++ cs2) (vs1 ++ vs2)) st.
Proof.
  intros Ht Hc H1 H2 Hin.
  assert (c ∈ (zip cs2 vs2).*1) as Hin' by by rewrite zip_fst_same.
  destruct (last_assigned_later c v (zip cs1 vs1) (zip cs2 vs2) Hin')
    as (Hl1 & Hl2 & [w Hw]).
  assert (zip (cs1 ++ c :: cs2) (vs1 ++ v :: vs2)
          = zip cs1 vs1 ++ (c, v) :: zip cs2 vs2) as Hz1
    by by rewrite zip_app_same.
  assert (zip (cs1 ++ cs2) (vs1 ++ vs2) = zip cs1 vs1 ++ zip cs2 vs2) as Hz2
    by by rewrite zip_app_same.
  assert (insert_row tm (cs1 ++ c :: cs2) (vs1 ++ v :: vs2)
          = insert_row tm (cs1 ++ cs2) (vs1 ++ vs2)) as Hrow.
  { unfold insert_row. rewrite Hz1, Hz2. apply map_eq. intros k.
    rewrite !assign_all_lookup.
    destruct (decide (k = c)) as [->|Hk].
    - by rewrite Hl1, Hl2.
    - unfold last_assigned. rewrite !List.filter_app. simpl.
      by rewrite bool_decide_eq_false_2 by done. }
  split; [done|]. split.
  - exists w. rewrite Hz1, Hl1. split; [done|]. split; [done|].
    unfold insert_row. rewrite Hz1, assign_all_lookup, Hl1. by rewrite Hw.
  - assert (check_known "INSERT" tname tm (cs1 ++ c :: cs2)
            = check_known "INSERT" tname tm (cs1 ++ cs2)) as Hck; [|
      unfold execute, _insert, bindM, getsM, liftM, require_table;
      rewrite Ht, Hck, Hrow; done].
    rewrite !check_known_app. destruct (check_known _ _ _ cs1); [|done].
    simpl. unfold check_known at 1. simpl.
    rewrite bool_decide_eq_false_2; [done|]. by intros [].
Qed.

(** Instance of the theorem: in
    [INSERT INTO users (id, id, email) VALUES ('bad', 8, 'z')] the first
    value for [id] is not even of the column's type; the statement is
    accepted and stores [id = 8]. *)
Lemma insert_repeated_column_last_wins_witness :
  let st := (run_sql ["CREATE TABLE users (id INTEGER PRIMARY KEY, email VARCHAR(255));"]
               initial).2 in
  let stmt := Insert "users" ["id"; "id"; "email"]
                [VStr "bad"; VInt 8; VStr "z"] in
  (Executor.execute stmt st).1 = Ok (CommandOk 1 "1 row inserted")
  ∧ map (get "id") (scan_of (Executor.execute stmt st).2 "users") = [VInt 8]
  ∧ Executor.execute stmt st
    = Executor.execute (Insert "users" ["id"; "email"] [VInt 8; VStr "z"]) st.
Proof.
  intros st stmt. split; [by vm_compute|]. split; [by vm_compute|].
  refine (proj2 (proj2
    (insert_repeated_column_last_wins st "users"
       (mkTableMeta "users"
          [mkColumnDef "id" (mkTypeSpec "INTEGER" []) false false true;
           mkColumnDef "email" (mkTypeSpec "VARCHAR" [255%Z]) false false false]
          ∅)
       "id" (VStr "bad") [] ["id"; "email"] [] [VInt 8; VStr "z"]
       _ _ _ _ _))).
  - by vm_compute.
  - vm_compute. left.
  - reflexivity.
  - reflexivity.
  - left.
Defined.

End InsertRowFacts.

(* ================================================================== *)
(** * The catalog file *)
(* ================================================================== *)

Section CatalogRoundTrip.
Import Catalog.

Lemma mapR_map_ok {A B} (f : B → result A) (g : A → B) (l : list A) :
  (∀ x, f (g x) = Ok x) → mapR f (map g l) = Ok l.
Proof.
  intros H. induction l as [|x l IH]; [done|]. simpl. by rewrite H, IH.
Qed.

Lemma load_column_col_to_dict (c : ColumnDef) :
  load_column (col_to_dict c) = Ok c.
Proof.
  destruct c as [name [tname params] nn un pk]. unfold load_column.
  change (field "typ" (col_to_dict _))
    with (Ok (typ_to_dict (mkTypeSpec tname params))).
  cbn [bindR].
  change (field "name" (typ_to_dict _)) with (Ok (JStr tname)).
  cbn [bindR as_str].
  change (field_or "params" _ (typ_to_dict _))
    with (Ok (JArr (map JInt params))).
  cbn [bindR json_int_list].
  rewrite (mapR_map_ok _ JInt params) by done.
  reflexivity.
Qed.

Lemma load_index_idx_to_dict (iname : string) (idx : IndexMeta) :
  load_index iname (idx_to_dict idx)
  = Ok (mkIndexMeta iname (im_table_name idx) (im_column_name idx)).
Proof. reflexivity. Qed.

Lemma load_index_own_name (iname : string) (idx : IndexMeta) :
  im_name idx = iname → load_index iname (idx_to_dict idx) = Ok idx.
Proof. intros <-. by destruct idx. Qed.

Lemma ins_all_cons {V} (k : string) (v : V) (l : list (string * V))
    (m : gmap string V) :
  ins_all ((k, v) :: l) m = ins_all l (<[k := v]> m).
Proof. reflexivity. Qed.

Lemma ins_all_union {V} (l : list (string * V)) (m : gmap string V) :
  ins_all l m = list_to_map (reverse l) ∪ m.
Proof.
  revert m. induction l as [|[k v] l IH]; intros m.
  - simpl. by rewrite (left_id_L ∅ (∪)).
  - rewrite ins_all_cons, IH.
    rewrite reverse_cons, list_to_map_app. simpl.
    rewrite <- (assoc_L (∪)). f_equal.
    rewrite insert_union_singleton_l. by rewrite insert_empty.
Qed.

Lemma ins_all_of_map {V} (l : list (string * V)) (m : gmap string V) :
  l ≡ₚ map_to_list m → ins_all l ∅ = m.
Proof.
  intros Hp. rewrite ins_all_union, (right_id_L ∅ (∪)).
  rewrite <- (list_to_map_to_list m).
  apply list_to_map_proper.
  - rewrite reverse_Permutation, Hp. apply NoDup_fst_map_to_list.
  - by rewrite reverse_Permutation.
Qed.

Lemma ins_all_subseteq {V} (l : list (string * V)) (m g : gmap string V) :
  m ⊆ g → (∀ kv, kv ∈ l → g !! kv.1 = Some kv.2) → ins_all l m ⊆ g.
Proof.
  revert m. induction l as [|[k v] l IH]; intros m Hm Hl; [done|].
  rewrite ins_all_cons. apply IH.
  - apply insert_subseteq_l; [|done]. apply (Hl (k, v)). left.
  - intros kv Hkv. apply Hl. by right.
Qed.

Lemma ins_all_mono {V} (l : list (string * V)) (m g : gmap string V) :
  m ⊆ g → (∀ kv, kv ∈ l → g !! kv.1 = Some kv.2) → m ⊆ ins_all l m.
Proof.
  revert m. induction l as [|[k v] l IH]; intros m Hm Hl; [done|].
  rewrite ins_all_cons. etrans; [|apply IH].
  - apply map_subseteq_spec. intros i x Hi.
    destruct (decide (k = i)) as [->|Hne].
    + rewrite lookup_insert_eq.
      rewrite map_subseteq_spec in Hm. apply Hm in Hi.
      pose proof (Hl (i, v) ltac:(left)) as Hv. simpl in Hv. congruence.
    + by rewrite lookup_insert_ne.
  - apply insert_subseteq_l; [|done]. apply (Hl (k, v)). left.
  - intros kv Hkv. apply Hl. by right.
Qed.

(** The items written for a dict are those of the dict in some order. *)
Lemma sorted_items_perm {V} (f : V → json) (m : gmap string V) :
  ∃ l, sorted_items f m = map (λ kv, (kv.1, f kv.2)) l
       ∧ l ≡ₚ map_to_list m.
Proof.
  unfold sorted_items.
  pose proof (merge_sort_Permutation key_le
                (map (λ kv, (kv.1, f kv.2)) (map_to_list m))) as Hp.
  apply Permutation_map_inv in Hp as (l & Hl & Hp).
  exists l. split; [done|]. by symmetry.
Qed.

Section WithCatalog.

Variable c : t.
Hypothesis wf : catalog_wf c.

Lemma load_table_indexes_ok (l : list (string * IndexMeta))
    (t_indexes indexes : gmap string IndexMeta) :
  (∀ kv, kv ∈ l → Catalog.indexes c !! kv.1 = Some kv.2) →
  load_table_indexes (map (λ kv, (kv.1, idx_to_dict kv.2)) l)
    t_indexes indexes
  = Ok (ins_all l t_indexes, ins_all l indexes).
Proof.
  revert t_indexes indexes.
  induction l as [|[k idx] l IH]; intros ti gi Hl; [done|].
  cbn [map load_table_indexes fst snd].
  rewrite load_index_own_name.
  - cbn [bindR]. rewrite !ins_all_cons, IH; [done|]. intros kv Hkv. apply Hl. by right.
  - destruct wf as [_ Hnames]. apply Hnames. apply (Hl (k, idx)). left.
Qed.

Lemma load_table_ok (tname : string) (tm : TableMeta)
    (indexes : gmap string IndexMeta) :
  tables c !! tname = Some tm →
  indexes ⊆ Catalog.indexes c →
  ∃ indexes',
    load_table tname (table_to_dict tm) indexes = Ok (tm, indexes')
    ∧ indexes' ⊆ Catalog.indexes c.
Proof.
  intros Ht Hsub. destruct wf as [Htables _].
  destruct (Htables _ _ Ht) as [Hname Hidx].
  destruct (sorted_items_perm idx_to_dict (tm_indexes tm)) as (l & Hl & Hp).
  assert (∀ kv, kv ∈ l → Catalog.indexes c !! kv.1 = Some kv.2) as Hin.
  { intros [k idx] Hkv. apply Hidx. rewrite Hp in Hkv.
    by apply elem_of_map_to_list in Hkv. }
  exists (ins_all l indexes). split.
  - unfold load_table.
    change (field_or "columns" _ (table_to_dict tm))
      with (Ok (JArr (map col_to_dict (tm_columns tm)))).
    cbn [bindR].
    rewrite (mapR_map_ok _ _ _ load_column_col_to_dict). cbn [bindR].
    change (field_or "indexes" _ (table_to_dict tm))
      with (Ok (JObj (sorted_items idx_to_dict (tm_indexes tm)))).
    cbn [bindR items_of]. rewrite Hl, load_table_indexes_ok by done.
    cbn [bindR]. rewrite (ins_all_of_map _ _ Hp).
    destruct tm; simpl in *; by subst.
  - by apply ins_all_subseteq.
Qed.

Lemma load_tables_ok (l : list (string * TableMeta))
    (tables0 : gmap string TableMeta) (indexes : gmap string IndexMeta) :
  (∀ kv, kv ∈ l → tables c !! kv.1 = Some kv.2) →
  indexes ⊆ Catalog.indexes c →
  ∃ indexes',
    load_tables (map (λ kv, (kv.1, table_to_dict kv.2)) l) tables0 indexes
    = Ok (ins_all l tables0, indexes')
    ∧ indexes' ⊆ Catalog.indexes c.
Proof.
  revert tables0 indexes.
  induction l as [|[k tm] l IH]; intros ts gi Hl Hsub; [by eauto|].
  cbn [map load_tables fst snd].
  destruct (load_table_ok k tm gi (Hl (k, tm) ltac:(left)) Hsub)
    as (gi' & -> & Hsub').
  cbn [bindR]. rewrite ins_all_cons.
  apply IH; [|done]. intros kv Hkv. apply Hl. by right.
Qed.

Lemma load_global_indexes_ok (l : list (string * IndexMeta))
    (indexes : gmap string IndexMeta) :
  (∀ kv, kv ∈ l → Catalog.indexes c !! kv.1 = Some kv.2) →
  indexes ⊆ Catalog.indexes c →
  ∃ indexes',
    load_global_indexes (map (λ kv, (kv.1, idx_to_dict kv.2)) l) indexes
    = Ok indexes'
    ∧ indexes' ⊆ Catalog.indexes c
    ∧ ∀ kv, kv ∈ l → is_Some (indexes' !! kv.1).
Proof.
  revert indexes. induction l as [|[k idx] l IH]; intros gi Hl Hsub.
  - exists gi. repeat split; [done|]. intros kv Hkv. by apply elem_of_nil in Hkv.
  - cbn [map load_global_indexes fst snd].
    assert (∀ kv, kv ∈ l → Catalog.indexes c !! kv.1 = Some kv.2) as Hl'
      by (intros kv Hkv; apply Hl; by right).
    pose proof (Hl (k, idx) ltac:(left)) as Hk. simpl in Hk.
    destruct (gi !! k) as [idx'|] eqn:Hgi.
    + destruct (IH gi Hl' Hsub) as (gi' & Heq & Hsub' & Hdom).
      exists gi'. repeat split; [done..|].
      intros kv [->|Hkv]%elem_of_cons; [|by apply Hdom]. simpl.
      assert (gi ⊆ gi') as Hmono.
      { clear -Heq. revert gi gi' Heq.
        induction (map _ l) as [|[k' j] kvs IHk]; intros gi gi' Heq.
        - simpl in Heq. by simplify_eq.
        - simpl in Heq. destruct (gi !! k') eqn:Hk'; [by apply IHk|].
          destruct (load_index k' j); [|done]. simpl in Heq.
          etrans; [|by apply IHk]. by apply insert_subseteq. }
      rewrite map_subseteq_spec in Hmono. eauto.
    + rewrite load_index_own_name by (destruct wf as [_ Hn]; by apply Hn).
      cbn [bindR].
      destruct (IH (<[k:=idx]> gi) Hl') as (gi' & Heq & Hsub' & Hdom).
      { by apply insert_subseteq_l. }
      exists gi'. repeat split; [done..|].
      intros kv [->|Hkv]%elem_of_cons; [|by apply Hdom]. simpl.
      assert (<[k:=idx]> gi ⊆ gi') as Hmono.
      { clear -Heq. revert Heq. generalize (<[k:=idx]> gi). intros gi0.
        revert gi0 gi'.
        induction (map _ l) as [|[k' j] kvs IHk]; intros gi0 gi' Heq.
        - simpl in Heq. by simplify_eq.
        - simpl in Heq. destruct (gi0 !! k') eqn:Hk'; [by apply IHk|].
          destruct (load_index k' j); [|done]. simpl in Heq.
          etrans; [|by apply IHk]. by apply insert_subseteq. }
      rewrite map_subseteq_spec in Hmono.
      exists idx. apply Hmono. by rewrite lookup_insert_eq.
Qed.

(** Saving a well-formed catalog and loading the file gives it back. *)
Lemma load_save_wf : load (Some (save c)) = Ok c.
Proof.
  unfold load.
  change (field_or "version" _ (save c)) with (Ok (JInt (version c))).
  cbn [bindR json_int].
  change (field_or "tables" _ (save c))
    with (Ok (JObj (sorted_items table_to_dict (tables c)))).
  cbn [bindR items_of].
  destruct (sorted_items_perm table_to_dict (tables c)) as (lt & -> & Hpt).
  destruct (load_tables_ok lt ∅ ∅) as (gi & -> & Hgi).
  { intros [k tm] Hkv. rewrite Hpt in Hkv.
    by apply elem_of_map_to_list in Hkv. }
  { apply map_empty_subseteq. }
  cbn [bindR].
  change (field_or "indexes" _ (save c))
    with (Ok (JObj (sorted_items idx_to_dict (indexes c)))).
  cbn [bindR items_of].
  destruct (sorted_items_perm idx_to_dict (indexes c)) as (li & -> & Hpi).
  destruct (load_global_indexes_ok li gi) as (gi' & -> & Hsub & Hdom);
    [|done|].
  { intros [k idx] Hkv. rewrite Hpi in Hkv.
    by apply elem_of_map_to_list in Hkv. }
  cbn [bindR]. rewrite (ins_all_of_map _ _ Hpt).
  assert (gi' = indexes c) as ->; [|by destruct c].
  apply map_eq. intros k. destruct (indexes c !! k) as [idx|] eqn:Hk.
  - destruct (Hdom (k, idx)) as [idx' Hidx'].
    { rewrite Hpi. by apply elem_of_map_to_list. }
    simpl in Hidx'. rewrite map_subseteq_spec in Hsub.
    pose proof (Hsub _ _ Hidx'). congruence.
  - destruct (gi' !! k) as [idx'|] eqn:Hk'; [|done].
    rewrite map_subseteq_spec in Hsub. apply Hsub in Hk'. congruence.
Qed.

End WithCatalog.

End CatalogRoundTrip.

(* ================================================================== *)
(** * Python equality and distinct values *)
(* ================================================================== *)

Lemma py_eq_sym (a b : value) : py_eq a b = py_eq b a.
Proof.
  destruct a as [|x|s|p], b as [|y|s'|q]; simpl; try done;
    apply bool_decide_ext; naive_solver.
Qed.

Lemma py_eq_refl (a : value) : py_eq a a = true.
Proof. destruct a; simpl; try done; by apply bool_decide_eq_true_2. Qed.

Lemma py_in_false (v : value) (l : list value) :
  py_in v l = false ↔ ∀ w, w ∈ l → py_eq v w = false.
Proof.
  unfold py_in. induction l as [|x l IH]; simpl.
  - split; [|done]. intros _ w Hw. by apply elem_of_nil in Hw.
  - rewrite orb_false_iff, IH. split.
    + intros [Hx Hl] w [->|Hw]%elem_of_cons; auto.
    + intros H. split; [apply H; left|]. intros w Hw. apply H. by right.
Qed.

Lemma py_in_app (v : value) (l1 l2 : list value) :
  py_in v (l1 ++ l2) = py_in v l1 || py_in v l2.
Proof. unfold py_in. apply existsb_app. Qed.

Lemma py_in_sublist (v : value) (l1 l2 : list value) :
  l1 `sublist_of` l2 → py_in v l2 = false → py_in v l1 = false.
Proof.
  intros Hs. rewrite !py_in_false. intros H w Hw. apply H.
  by eapply elem_of_sublist.
Qed.

Lemma py_distinct_sublist (l1 l2 : list value) :
  l1 `sublist_of` l2 → py_distinct l2 → py_distinct l1.
Proof.
  induction 1 as [|x l1 l2 Hs IH|x l1 l2 Hs IH]; simpl; [done|..].
  - intros [Hx Hl]. split; [by eapply py_in_sublist|auto].
  - intros [_ Hl]. auto.
Qed.

Lemma py_distinct_app (l1 l2 : list value) :
  py_distinct l1 → py_distinct l2 →
  (∀ v, v ∈ l2 → py_in v l1 = false) →
  py_distinct (l1 ++ l2).
Proof.
  intros H1 H2 H. induction l1 as [|x l1 IH]; [done|].
  simpl in *. destruct H1 as [Hx H1]. split.
  - rewrite py_in_app, Hx. simpl. apply py_in_false. intros w Hw.
    specialize (H w Hw). apply orb_false_iff in H as [H _].
    by rewrite py_eq_sym.
  - apply IH; [done|]. intros v Hv. specialize (H v Hv).
    by apply orb_false_iff in H as [_ H].
Qed.

Lemma py_distinct_NoDup (l : list value) : py_distinct l → NoDup l.
Proof.
  induction l as [|x l IH]; simpl; [constructor|].
  intros [Hx Hl]. constructor; [|auto].
  intros Hin. rewrite py_in_false in Hx. specialize (Hx x Hin).
  by rewrite py_eq_refl in Hx.
Qed.

(* ================================================================== *)
(** * Sublists of filtered and mapped lists *)
(* ================================================================== *)

Lemma filter_sublist {A} (p : A → bool) (l : list A) :
  List.filter p l `sublist_of` l.
Proof.
  induction l as [|x l IH]; simpl; [done|].
  destruct (p x); by constructor.
Qed.

Lemma filter_sublist_impl {A} (p q : A → bool) (l : list A) :
  (∀ x, p x = true → q x = true) →
  List.filter p l `sublist_of` List.filter q l.
Proof.
  intros H. induction l as [|x l IH]; simpl; [done|].
  destruct (p x) eqn:Hp.
  - rewrite (H _ Hp). by constructor.
  - destruct (q x); [by constructor|done].
Qed.

Lemma map_sublist {A B} (f : A → B) (l1 l2 : list A) :
  l1 `sublist_of` l2 → map f l1 `sublist_of` map f l2.
Proof. induction 1; simpl; by constructor. Qed.

Lemma filter_elem_of {A} (p : A → bool) (l : list A) (x : A) :
  x ∈ List.filter p l ↔ x ∈ l ∧ p x = true.
Proof. rewrite !list_elem_of_In. apply filter_In. Qed.

(* ================================================================== *)
(** * scan_active on a log that has grown *)
(* ================================================================== *)

Section ScanGrowth.
Import Heap.

Lemma is_live_union (d1 d2 : gset Z) (r : record) :
  is_live (d1 ∪ d2) r = is_live d1 r && is_live d2 r.
Proof.
  unfold is_live. destruct (as_int (get "_rid" r)) as [n|]; [|done].
  apply eq_true_iff_eq. rewrite andb_true_iff, !bool_decide_eq_true.
  set_solver.
Qed.

Lemma is_live_mono (d1 d2 : gset Z) (r : record) :
  d1 ⊆ d2 → is_live d2 r = true → is_live d1 r = true.
Proof.
  unfold is_live. destruct (as_int (get "_rid" r)) as [n|]; [|done].
  rewrite !bool_decide_eq_true. set_solver.
Qed.

(** The live rows after [extra] has been appended: the old live rows
    that [extra] does not tombstone, then the live rows of [extra]. *)
Lemma scan_active_app (log extra : list record) :
  scan_active (log ++ extra)
  = List.filter (is_live (tombstoned_ints extra)) (scan_active log)
    ++ List.filter
         (λ r, negb (spec_is_tombstone r)
               && is_live (tombstoned_ints log ∪ tombstoned_ints extra) r)
         extra.
Proof.
  rewrite !scan_active_filter, tombstoned_ints_app.
  rewrite List.filter_app, filter_filter_andb. f_equal.
  apply filter_ext_bool. intros r. rewrite is_live_union.
  by rewrite andb_assoc.
Qed.

Lemma scan_active_int_rids (log : list record) (r : record) :
  r ∈ scan_active log → ∃ n, as_int (get "_rid" r) = Some n.
Proof.
  rewrite scan_active_filter, filter_elem_of.
  intros [_ H]. apply andb_true_iff in H as [_ H]. unfold is_live in H.
  destruct (as_int (get "_rid" r)); [eauto|done].
Qed.

Lemma spec_is_tombstone_record (rid : Z) :
  spec_is_tombstone (tombstone_record rid) = true.
Proof. reflexivity. Qed.

Lemma tombstone_record_rid (rid : Z) :
  as_int (get "_rid" (tombstone_record rid)) = Some rid.
Proof. reflexivity. Qed.

End ScanGrowth.

(* ================================================================== *)
(** * Constraint enforcement *)
(* ================================================================== *)

Section Constraints.
Import Catalog Executor.

Lemma filterR_sublist {A} (p : A → result bool) (l ms : list A) :
  filterR p l = Ok ms → ms `sublist_of` l.
Proof.
  revert ms. induction l as [|x l IH]; intros ms H; simpl in H.
  - by simplify_eq.
  - destruct (p x) as [b|]; [|done]. simpl in H.
    destruct (filterR p l) as [ys|]; [|done]. simpl in H. simplify_eq.
    destruct b; constructor; by apply IH.
Qed.

Lemma bindR_ok {A B} (m : result A) (k : A → result B) (b : B) :
  bindR m k = Ok b → ∃ a, m = Ok a ∧ k a = Ok b.
Proof. destruct m; simpl; [eauto|done]. Qed.

(** On rows that carry integer rids, [existing_kept] is the rows whose
    rid is not excluded. *)
Lemma keep_existing_int_rids (existing : list record) (ex : gset Z) :
  (∀ r, r ∈ existing → ∃ n, as_int (get "_rid" r) = Some n) →
  keep_existing existing ex = Ok (List.filter (Heap.is_live ex) existing).
Proof.
  unfold keep_existing. induction existing as [|r l IH]; intros H; [done|].
  simpl. destruct (H r ltac:(left)) as [n Hn].
  unfold py_int at 1, Heap.is_live at 1. rewrite Hn. simpl.
  rewrite IH by (intros r' Hr'; apply H; by right). simpl.
  by destruct (bool_decide (n ∉ ex)).
Qed.

Lemma pk_loop_ok (tm : TableMeta) (pk : string)
    (existing_pks seen : list value) (new_rows : list record) :
  pk_loop tm pk existing_pks seen new_rows = Ok tt →
  (∀ v, v ∈ map (get pk) new_rows →
        py_in v existing_pks = false ∧ py_in v seen = false)
  ∧ py_distinct (map (get pk) new_rows).
Proof.
  revert seen. induction new_rows as [|nr rows IH]; intros seen H.
  - split; [|done]. intros v Hv. by apply elem_of_nil in Hv.
  - simpl in H.
    destruct (py_in (get pk nr) existing_pks) eqn:He; [done|].
    destruct (py_in (get pk nr) seen) eqn:Hs; [done|].
    destruct (IH _ H) as [Hall Hd]. split.
    + intros v [->|Hv]%elem_of_cons; [done|].
      destruct (Hall v Hv) as [H1 H2]. split; [done|].
      simpl in H2. by apply orb_false_iff in H2 as [_ H2].
    + simpl. split; [|done]. apply py_in_false. intros w Hw.
      destruct (Hall w Hw) as [_ H2]. simpl in H2.
      apply orb_false_iff in H2 as [H2 _]. by rewrite py_eq_sym.
Qed.

(** What a successful enforcement guarantees for the primary key: the
    candidates differ from one another and from every live row that is
    not excluded. *)
Lemma enforce_primary_key (tm : TableMeta) (pk : string)
    (existing new_rows : list record) (ex : gset Z) :
  (∀ r, r ∈ existing → ∃ n, as_int (get "_rid" r) = Some n) →
  primary_key_column tm = Some pk →
  _enforce_constraints_batch tm existing new_rows ex = Ok tt →
  py_distinct (map (get pk) new_rows)
  ∧ ∀ v, v ∈ map (get pk) new_rows →
         py_in v (map (get pk) (List.filter (Heap.is_live ex) existing))
         = false.
Proof.
  intros Hint Hpk H. unfold _enforce_constraints_batch in H.
  rewrite keep_existing_int_rids in H by done. simpl in H.
  apply bindR_ok in H as ([] & _ & H).
  apply bindR_ok in H as ([] & H & _).
  rewrite Hpk in H. apply pk_loop_ok in H as [Hall Hd].
  split; [done|]. intros v Hv. by apply Hall.
Qed.

End Constraints.

(* ================================================================== *)
(** * The rows that are stored *)
(* ================================================================== *)

Section StoredRows.
Import Catalog Executor.

Lemma assign_all_keeps_keys (pairs : list (string * value)) (row : record)
    (k : string) :
  is_Some (row !! k) → is_Some (assign_all pairs row !! k).
Proof.
  intros H. rewrite assign_all_lookup.
  by destruct (last_assigned k pairs).
Qed.

Lemma foldl_insert_key {A} (f : A → string) (g : A → value) (l : list A)
    (row : record) (k : string) :
  is_Some (row !! k) ∨ k ∈ map f l →
  is_Some (foldl (λ row c, <[f c := g c]> row) row l !! k).
Proof.
  revert row. induction l as [|x l IH]; intros row [H|H]; simpl.
  - done.
  - by apply elem_of_nil in H.
  - apply IH. left. rewrite lookup_insert. case_decide; [done|]. done.
  - apply IH. simpl in H. apply elem_of_cons in H as [->|H]; [|by right].
    left. by rewrite lookup_insert_eq.
Qed.

Lemma insert_row_has_columns (tm : TableMeta) (cs : list string)
    (vs : list value) (k : string) :
  k ∈ column_names tm → is_Some (insert_row tm cs vs !! k).
Proof.
  intros H. apply assign_all_keeps_keys. unfold null_row.
  apply (foldl_insert_key cd_name (λ _, VNone)). by right.
Qed.

Lemma candidate_has_columns (tm : TableMeta) (asg : list Assignment)
    (old : record) (k : string) :
  k ∈ column_names tm → is_Some (candidate_of tm asg old !! k).
Proof.
  intros H. apply assign_all_keeps_keys. unfold logical_columns.
  apply (foldl_insert_key cd_name (λ c, get (cd_name c) old)). by right.
Qed.

Lemma primary_key_is_column (tm : TableMeta) (pk : string) :
  primary_key_column tm = Some pk → pk ∈ column_names tm.
Proof.
  unfold primary_key_column, column_names.
  induction (tm_columns tm) as [|c cs IH]; simpl; [done|].
  destruct (cd_primary_key c); simpl.
  - intros [= <-]. left.
  - intros H. right. by apply IH.
Qed.

(** The stored record keeps the value the row has for any of its keys. *)
Lemma stored_get (n : Z) (row : record) (k : string) :
  is_Some (row !! k) → get k (Heap.stored n row) = get k row.
Proof.
  intros [v Hv]. unfold get, Heap.stored.
  by rewrite (lookup_union_Some_l _ _ _ _ Hv), Hv.
Qed.

End StoredRows.

(* ================================================================== *)
(** * What each statement does to the files *)
(* ================================================================== *)

Section Shapes.
Import Catalog Executor.

Lemma heap_open_step (st : db) (t : string) :
  is_Some (tables (catalog st) !! t) →
  heap_step st t [] (set_heap t (Heap.open (heap_of st t)) st).
Proof.
  intros Ht. eapply heap_step_write; [done|].
  unfold Heap.open, log_of. by rewrite app_nil_r.
Qed.

Lemma heap_of_open (st : db) (t : string) :
  heap_of (set_heap t (Heap.open (heap_of st t)) st) t
  = Heap.mkFiles (Some (log_of st t))
      (Some (default 1%Z (Heap.meta_file (heap_of st t)))).
Proof. rewrite heap_of_set_heap, decide_True by done. done. Qed.

Lemma require_table_Some (c : Catalog.t) (t : string) (tm : TableMeta) :
  require_table c t = Ok tm → tables c !! t = Some tm.
Proof. unfold require_table. by destruct (tables c !! t); intros [= ->]. Qed.

(** The primary keys of the live rows after an append are among those of
    the rows kept and those of the new rows. *)
Lemma keeps_pk_from_enforce (st : db) (t : string) (extra : list record)
    (tm : TableMeta) (new_rows : list record) (ex : gset Z) :
  tables (catalog st) !! t = Some tm →
  _enforce_constraints_batch tm (scan_of st t) new_rows ex = Ok tt →
  ex ⊆ Heap.tombstoned_ints extra →
  (∀ pk, primary_key_column tm = Some pk →
         map (get pk) (List.filter (λ r, negb (Heap.spec_is_tombstone r)) extra)
         `sublist_of` map (get pk) new_rows) →
  keeps_pk st t extra.
Proof.
  intros Ht Henf Hex Hnew tm' pk Ht' Hpk Hd. simplify_eq.
  assert (∀ r, r ∈ scan_of st t → ∃ n, as_int (get "_rid" r) = Some n)
    as Hint by (intros r Hr; by eapply scan_active_int_rids).
  destruct (enforce_primary_key tm pk (scan_of st t) new_rows ex
              Hint Hpk Henf) as [Hdn Hfresh].
  rewrite scan_active_app, map_app. fold (scan_of st t).
  eapply py_distinct_sublist.
  - apply sublist_app.
    + apply map_sublist.
      apply (filter_sublist_impl _ (Heap.is_live ex)).
      intros r. by apply is_live_mono.
    + etrans; [|by apply Hnew].
      apply map_sublist. apply filter_sublist_impl.
      intros r Hr. by apply andb_true_iff in Hr as [Hr _].
  - apply py_distinct_app; [|done..].
    apply (py_distinct_sublist _ (map (get pk) (scan_of st t))); [|done].
    apply map_sublist, filter_sublist.
Qed.

Lemma keeps_pk_nil (st : db) (t : string) : keeps_pk st t [].
Proof. intros tm pk _ _ H. by rewrite app_nil_r. Qed.

Lemma insert_shape (t : string) (cs : list string) (vs : list value)
    (st st' : db) (r : result outcome) :
  _insert t cs vs st = (r, st') →
  ∃ extra, heap_step st t extra st'
           ∧ (is_Ok r = false → extra = [])
           ∧ keeps_pk st t extra.
Proof.
  unfold _insert, bindM, getsM, liftM, heap_open, modifyM, retM. intros H.
  destruct (require_table (catalog st) t) as [tm|e] eqn:Ht;
    [|simplify_eq; exists []; eauto using heap_step_same, keeps_pk_nil].
  apply require_table_Some in Ht.
  destruct (check_known "INSERT" t tm cs) as [[]|e];
    [|simplify_eq; exists []; eauto using heap_step_same, keeps_pk_nil].
  destruct (_validate_insert_types tm (insert_row tm cs vs)) as [[]|e];
    [|simplify_eq; exists []; eauto using heap_step_same, keeps_pk_nil].
  rewrite heap_scan_active_open in H.
  destruct (_enforce_constraints_batch tm (scan_of st t)
              [insert_row tm cs vs] ∅) as [[]|e] eqn:Henf;
    [|simplify_eq; exists []; eauto using heap_open_step, keeps_pk_nil].
  unfold heap_insert in H. rewrite heap_of_open in H.
  rewrite (heap_insert_allocates _ (Heap.mkFiles _ (Some _)) _ eq_refl) in H.
  rewrite set_heap_set_heap in H. simpl in H. simplify_eq.
  eexists. split; [|split].
  - eapply heap_step_write; [by eauto|done].
  - done.
  - eapply keeps_pk_from_enforce; [done..| |].
    + set_solver.
    + intros pk Hpk. simpl.
      destruct (negb _); simpl; [|by constructor].
      rewrite stored_get; [done|].
      by apply insert_row_has_columns, primary_key_is_column.
Qed.

Lemma select_shape (cols : option (list ColumnRef)) (t : string)
    (joins : list JoinClause) (w : option WhereClause) (st st' : db)
    (r : result outcome) :
  _select cols t joins w st = (r, st') → heap_step st t [] st'.
Proof.
  unfold _select. destruct joins as [|j joins];
    [|intros [= <- <-]; by apply heap_step_same].
  unfold bindM, getsM, liftM, heap_open, modifyM, retM. intros H.
  destruct (require_table (catalog st) t) as [tm|e] eqn:Ht;
    [|simplify_eq; by apply heap_step_same].
  apply require_table_Some in Ht.
  assert (heap_step st t [] (set_heap t (Heap.open (heap_of st t)) st))
    as Hopen by (apply heap_open_step; eauto).
  destruct (match cols with Some _ => _ | None => _ end);
    [|by simplify_eq].
  rewrite heap_scan_active_open in H.
  destruct (filterR _ _); by simplify_eq.
Qed.

Lemma rid_of_int (r : record) (k : Z) :
  as_int (get "_rid" r) = Some k → rid_of r = Ok (rid_or_zero r).
Proof.
  unfold rid_of, rid_or_zero, get. intros H.
  destruct (r !! "_rid") as [v|]; [|done]. simpl in *.
  unfold py_int. by rewrite H.
Qed.

Lemma rid_of_ok (r : record) (k : Z) :
  rid_of r = Ok k → as_int (get "_rid" r) = Some k ∧ rid_or_zero r = k.
Proof.
  unfold rid_of, rid_or_zero, get.
  destruct (r !! "_rid") as [v|]; [|done]. simpl. unfold py_int.
  destruct (as_int v) as [n|]; [|by destruct v]. by intros [= ->].
Qed.

(** The loop of DELETE appends one tombstone per match. *)
Lemma apply_delete_loop (t : string) (ms : list record) (st0 : db)
    (log : list record) (n : Z) :
  (∀ r, r ∈ ms → ∃ k, as_int (get "_rid" r) = Some k) →
  forM (apply_delete t) ms
    (set_heap t (Heap.mkFiles (Some log) (Some n)) st0)
  = (Ok tt,
     set_heap t
       (Heap.mkFiles
          (Some (log ++ map (λ r, Heap.tombstone_record (rid_or_zero r)) ms))
          (Some n)) st0).
Proof.
  revert log. induction ms as [|r ms IH]; intros log Hint.
  - simpl. by rewrite app_nil_r.
  - destruct (Hint r ltac:(left)) as [k Hk].
    cbn [forM]. unfold bindM at 1. unfold apply_delete at 1.
    unfold bindM at 1, liftM at 1. rewrite (rid_of_int _ _ Hk).
    unfold heap_tombstone, modifyM. rewrite heap_of_set_heap.
    rewrite decide_True by done. rewrite set_heap_set_heap.
    unfold Heap.tombstone, Heap.append. cbn [Heap.data_file Heap.meta_file].
    cbn [default]. rewrite IH by (intros r' Hr'; apply Hint; by right).
    by rewrite <- app_assoc.
Qed.

Lemma keeps_pk_tombstones (st : db) (t : string) (extra : list record) :
  (∀ r, r ∈ extra → Heap.spec_is_tombstone r = true) → keeps_pk st t extra.
Proof.
  intros Hall tm pk _ _ Hd. rewrite scan_active_app.
  assert (List.filter
            (λ r, negb (Heap.spec_is_tombstone r)
                  && Heap.is_live (Heap.tombstoned_ints (log_of st t)
                                   ∪ Heap.tombstoned_ints extra) r) extra
          = []) as ->.
  { clear -Hall.
    generalize (Heap.tombstoned_ints (log_of st t)
                ∪ Heap.tombstoned_ints extra). intros d.
    induction extra as [|r l IH]; [done|]. simpl.
    rewrite (Hall r) by left. simpl. apply IH.
    intros r' Hr'. apply Hall. by right. }
  rewrite app_nil_r. eapply py_distinct_sublist; [|done].
  apply map_sublist, filter_sublist.
Qed.

Lemma delete_shape (t : string) (w : option WhereClause) (st st' : db)
    (r : result outcome) :
  _delete t w st = (r, st') →
  ∃ extra, heap_step st t extra st'
           ∧ (is_Ok r = false → extra = [])
           ∧ keeps_pk st t extra.
Proof.
  unfold _delete, bindM at 1 2 3 4 5, getsM, liftM, heap_open, modifyM, retM.
  intros H.
  destruct (require_table (catalog st) t) as [tm|e] eqn:Ht;
    [|simplify_eq; exists []; eauto using heap_step_same, keeps_pk_nil].
  apply require_table_Some in Ht.
  rewrite heap_scan_active_open in H.
  destruct (filterR _ (scan_of st t)) as [ms|e] eqn:Hms;
    [|simplify_eq; exists []; eauto using heap_open_step, keeps_pk_nil].
  apply filterR_sublist in Hms.
  unfold Heap.open in H. unfold bindM in H.
  rewrite apply_delete_loop in H.
  - simplify_eq. eexists. split; [|split].
    + eapply heap_step_write; [by eauto|]. done.
    + done.
    + apply keeps_pk_tombstones. intros x.
      rewrite list_elem_of_In, in_map_iff. by intros (? & <- & _).
  - intros x Hx. eapply scan_active_int_rids.
    eapply elem_of_sublist; [done|]. apply Hms.
Qed.

Lemma build_candidates_ok (tm : TableMeta) (asg : list Assignment)
    (ms new_rows : list record) (ex : gset Z) :
  build_candidates tm asg ms = Ok (new_rows, ex) →
  new_rows = map (candidate_of tm asg) ms
  ∧ ex = list_to_set (map rid_or_zero ms).
Proof.
  revert new_rows ex. induction ms as [|old ms IH]; intros new_rows ex H.
  - simpl in H. by simplify_eq.
  - simpl in H. destruct (rid_of old) as [k|] eqn:Hk; [|done].
    apply rid_of_ok in Hk as [_ Hk]. simpl in H.
    destruct (_validate_insert_types tm _) as [[]|]; [|done]. simpl in H.
    destruct (build_candidates tm asg ms) as [[nr ex']|]; [|done].
    simpl in H. simplify_eq. destruct (IH _ _ eq_refl) as [-> ->]. done.
Qed.

(** The loop of UPDATE appends, for every match, the replacement row and
    the tombstone of the old rid. *)
Lemma apply_update_loop (t : string) (pairs : list (record * record))
    (st0 : db) (log : list record) (n : Z) :
  (∀ p, p ∈ pairs → ∃ k, as_int (get "_rid" p.1) = Some k) →
  forM (apply_update t) pairs
    (set_heap t (Heap.mkFiles (Some log) (Some n)) st0)
  = (Ok tt,
     set_heap t
       (Heap.mkFiles (Some (log ++ update_lines n pairs))
          (Some (n + Z.of_nat (length pairs))%Z)) st0).
Proof.
  revert log n. induction pairs as [|[old cand] pairs IH]; intros log n Hint.
  - simpl. by rewrite app_nil_r, Z.add_0_r.
  - destruct (Hint (old, cand) ltac:(left)) as [k Hk]. simpl in Hk.
    cbn [forM]. unfold bindM at 1. unfold apply_update at 1.
    unfold bindM at 1. unfold heap_insert at 1.
    rewrite heap_of_set_heap, decide_True by done.
    rewrite (heap_insert_allocates _ (Heap.mkFiles _ (Some _)) _ eq_refl).
    rewrite set_heap_set_heap. cbn [fst snd Heap.data_file default].
    unfold bindM at 1, liftM at 1. rewrite (rid_of_int _ _ Hk).
    unfold heap_tombstone, modifyM. rewrite heap_of_set_heap.
    rewrite decide_True by done. rewrite set_heap_set_heap.
    unfold Heap.tombstone, Heap.append. cbn [Heap.data_file Heap.meta_file].
    cbn [default]. rewrite IH by (intros p Hp; apply Hint; by right).
    cbn [update_lines length]. rewrite <- !app_assoc. simpl.
    replace (n + 1 + Z.of_nat (length pairs))%Z
      with (n + Z.of_nat (S (length pairs)))%Z by lia.
    by rewrite <- app_assoc.
Qed.

Lemma update_lines_tombstoned (n : Z) (pairs : list (record * record)) :
  list_to_set (map (λ p, rid_or_zero p.1) pairs)
  ⊆@{gset Z} Heap.tombstoned_ints (update_lines n pairs).
Proof.
  revert n. induction pairs as [|[old cand] pairs IH]; intros n.
  - done.
  - cbn [update_lines map list_to_set fst].
    rewrite (tombstoned_ints_cons (Heap.stored n cand)).
    rewrite (tombstoned_ints_cons (Heap.tombstone_record _)).
    rewrite spec_is_tombstone_record, tombstone_record_rid.
    specialize (IH (n + 1)%Z).
    destruct (Heap.spec_is_tombstone _); [|set_solver].
    destruct (as_int _); set_solver.
Qed.

Lemma update_lines_rows (n : Z) (pairs : list (record * record))
    (pk : string) :
  (∀ p, p ∈ pairs → is_Some (p.2 !! pk)) →
  map (get pk)
    (List.filter (λ r, negb (Heap.spec_is_tombstone r))
       (update_lines n pairs))
  `sublist_of` map (get pk) (map snd pairs).
Proof.
  revert n. induction pairs as [|[old cand] pairs IH]; intros n Hk.
  - done.
  - cbn [update_lines map snd List.filter].
    rewrite spec_is_tombstone_record. cbn [negb].
    assert (map (get pk)
              (List.filter (λ r, negb (Heap.spec_is_tombstone r))
                 (update_lines (n + 1) pairs))
            `sublist_of` map (get pk) (map snd pairs)) as Hrest.
    { apply IH. intros p Hp. apply Hk. by right. }
    destruct (negb _); simpl.
    + rewrite stored_get by apply (Hk (old, cand) ltac:(left)).
      by constructor.
    + by constructor.
Qed.

Lemma zip_map_fst {A B} (f : A → B) (l : list A) :
  map fst (zip l (map f l)) = l.
Proof. induction l as [|x l IH]; simpl; [done|]. by rewrite IH. Qed.

Lemma zip_map_snd {A B} (f : A → B) (l : list A) :
  map snd (zip l (map f l)) = map f l.
Proof. induction l as [|x l IH]; simpl; [done|]. by rewrite IH. Qed.

Lemma zip_map_elem {A B} (f : A → B) (l : list A) (p : A * B) :
  p ∈ zip l (map f l) → p.1 ∈ l ∧ p.2 = f p.1.
Proof.
  induction l as [|x l IH]; simpl; [by intros ?%elem_of_nil|].
  intros [->|H]%elem_of_cons; [split; [left|done]|].
  destruct (IH H). split; [by right|done].
Qed.

Lemma update_shape (t : string) (asg : list Assignment)
    (w : option WhereClause) (st st' : db) (r : result outcome) :
  _update t asg w st = (r, st') →
  ∃ extra, heap_step st t extra st'
           ∧ (is_Ok r = false → extra = [])
           ∧ keeps_pk st t extra.
Proof.
  unfold _update, bindM at 1 2 3 4 5 6, getsM, liftM, heap_open, modifyM.
  intros H.
  destruct (require_table (catalog st) t) as [tm|e] eqn:Ht;
    [|simplify_eq; exists []; eauto using heap_step_same, keeps_pk_nil].
  apply require_table_Some in Ht.
  destruct (check_known "UPDATE" t tm (map as_column asg)) as [[]|e];
    [|simplify_eq; exists []; eauto using heap_open_step, keeps_pk_nil].
  rewrite heap_scan_active_open in H.
  destruct (filterR _ (scan_of st t)) as [ms|e] eqn:Hms;
    [|simplify_eq; exists []; eauto using heap_open_step, keeps_pk_nil].
  apply filterR_sublist in Hms.
  destruct ms as [|m0 ms'];
    [unfold retM in H; simplify_eq; exists [];
     eauto using heap_open_step, keeps_pk_nil|].
  set (ms := m0 :: ms') in *.
  unfold bindM at 1 in H.
  destruct (build_candidates tm asg ms) as [[new_rows ex]|e] eqn:Hb;
    [|simplify_eq; exists []; eauto using heap_open_step, keeps_pk_nil].
  apply build_candidates_ok in Hb as [-> ->].
  unfold bindM at 1 in H.
  destruct (_enforce_constraints_batch tm (scan_of st t) _ _)
    as [[]|e] eqn:Henf;
    [|simplify_eq; exists []; eauto using heap_open_step, keeps_pk_nil].
  unfold Heap.open in H. unfold bindM, retM in H.
  rewrite apply_update_loop in H.
  - simplify_eq. eexists. split; [|split].
    + eapply heap_step_write; [by eauto|]. done.
    + done.
    + eapply keeps_pk_from_enforce; [done..| |].
      * etrans; [|apply update_lines_tombstoned].
        rewrite <- (zip_map_fst (candidate_of tm asg) ms) at 1.
        by rewrite map_map.
      * intros pk Hpk. etrans; [apply update_lines_rows|].
        -- intros p [_ ->]%zip_map_elem.
           by apply candidate_has_columns, primary_key_is_column.
        -- by rewrite zip_map_snd.
  - intros p [Hp _]%zip_map_elem. eapply scan_active_int_rids.
    eapply elem_of_sublist; [done|]. apply Hms.
Qed.

End Shapes.

(* ================================================================== *)
(** * The invariant of the reachable states *)
(* ================================================================== *)

Section Invariant.
Import Catalog Executor.

Lemma heap_step_catalog (st st' : db) (t : string) (extra : list record) :
  heap_step st t extra st' →
  catalog st' = catalog st ∧ catalog_file st' = catalog_file st.
Proof. by intros [-> ->|m Ht ->]. Qed.

Lemma heap_step_log (st st' : db) (t : string) (extra : list record) :
  heap_step st t extra st' →
  ∀ t', log_of st' t'
        = if decide (t = t') then log_of st t ++ extra else log_of st t'.
Proof.
  intros [-> ->|m Ht ->] t'.
  - rewrite app_nil_r. by case_decide; subst.
  - by rewrite log_of_set_heap.
Qed.

Lemma heap_step_invariant (st st' : db) (t : string) (extra : list record) :
  invariant st → heap_step st t extra st' → keeps_pk st t extra →
  invariant st'.
Proof.
  intros (Hwf & Hper & Hfiles & Hpk) Hstep Hkeep.
  destruct (heap_step_catalog _ _ _ _ Hstep) as [Hc Hf].
  pose proof (heap_step_log _ _ _ _ Hstep) as Hlog.
  split; [by rewrite Hc|]. split; [unfold persisted; by rewrite Hc, Hf|].
  split.
  - intros t' Ht'. rewrite Hc. destruct Hstep as [-> ->|m Ht ->]; [auto|].
    unfold set_heap in Ht'. simpl in Ht'. rewrite lookup_insert in Ht'.
    case_decide; subst; auto.
  - intros t' tm pk Ht' Hpk'. rewrite Hc in Ht'. unfold scan_of.
    rewrite Hlog. case_decide; subst.
    + eapply Hkeep; [done..|]. by eapply Hpk.
    + by eapply Hpk.
Qed.

Lemma invariant_initial : invariant initial.
Proof.
  split; [|split; [|split]].
  - split; intros ? ? H; cbn in H; by rewrite lookup_empty in H.
  - done.
  - intros t [? Ht]. cbn in Ht. by rewrite lookup_empty in Ht.
  - intros t tm pk Ht. cbn in Ht. by rewrite lookup_empty in Ht.
Qed.

(** ** CREATE TABLE *)

Lemma validate_create_table_fresh (c : Catalog.t) (t : string)
    (cols : list ColumnDef) :
  validate_create_table c t cols = Ok tt → tables c !! t = None.
Proof.
  unfold validate_create_table. case_bool_decide as H; [done|].
  intros _. by apply eq_None_not_Some.
Qed.

Lemma create_table_shape (t : string) (cols : list ColumnDef) (st st' : db)
    (r : result outcome) :
  _create_table t cols st = (r, st') →
  st' = st
  ∨ (tables (catalog st) !! t = None
     ∧ let c' := mkCatalog (version (catalog st))
                   (<[t := mkTableMeta t cols ∅]> (tables (catalog st)))
                   (indexes (catalog st)) in
       st' = mkDb c' (Some (save c'))
               (<[t := Heap.open (heap_of st t)]> (heaps st))).
Proof.
  unfold _create_table, bindM, getsM, liftM, modifyM, catalog_save,
    heap_open, retM. intros H.
  destruct (validate_create_table (catalog st) t cols) as [[]|e] eqn:Hv;
    [|left; by simplify_eq].
  right. split; [by eapply validate_create_table_fresh|].
  injection H as <- <-. reflexivity.
Qed.

Lemma create_table_invariant (t : string) (cols : list ColumnDef)
    (st : db) :
  invariant st →
  tables (catalog st) !! t = None →
  let c' := mkCatalog (version (catalog st))
              (<[t := mkTableMeta t cols ∅]> (tables (catalog st)))
              (indexes (catalog st)) in
  invariant (mkDb c' (Some (save c'))
               (<[t := Heap.open (heap_of st t)]> (heaps st))).
Proof.
  intros (Hwf & Hper & Hfiles & Hpk) Hfresh c'.
  assert (catalog_wf c') as Hwf'.
  { destruct Hwf as [Htab Hidx]. split; [|done].
    intros k tm. unfold c'. simpl. rewrite lookup_insert.
    case_decide; subst; [|by apply Htab].
    intros [= <-]. simpl. split; [done|]. intros i idx.
    by rewrite lookup_empty. }
  split; [done|]. split; [by apply load_save_wf|]. split.
  - intros k. simpl. rewrite !lookup_insert.
    case_decide; subst; [eauto|]. apply Hfiles.
  - intros k tm pk. simpl. rewrite lookup_insert. unfold scan_of, log_of, heap_of.
    simpl. rewrite lookup_insert. case_decide; subst.
    + intros _ _.
      assert (heaps st !! k = None) as Hk.
      { apply eq_None_not_Some. intros Hs. apply Hfiles in Hs.
        rewrite Hfresh in Hs. by destruct Hs. }
      unfold heap_of. rewrite Hk. done.
    + apply Hpk.
Qed.

(** ** CREATE INDEX *)

Lemma create_index_shape (i t col : string) (st st' : db)
    (r : result outcome) :
  _create_index i t col st = (r, st') →
  st' = st
  ∨ (∃ tm, indexes (catalog st) !! i = None
           ∧ tables (catalog st) !! t = Some tm
           ∧ let idx := mkIndexMeta i t col in
             let tm' := mkTableMeta (tm_name tm) (tm_columns tm)
                          (<[i := idx]> (tm_indexes tm)) in
             let c' := mkCatalog (version (catalog st))
                         (<[t := tm']> (tables (catalog st)))
                         (<[i := idx]> (indexes (catalog st))) in
             st' = mkDb c' (Some (save c')) (heaps st)).
Proof.
  unfold _create_index, bindM, getsM, liftM, modifyM, catalog_save, retM.
  intros H.
  destruct (validate_create_index (catalog st) i t col) as [[]|e] eqn:Hv;
    [|left; by simplify_eq].
  unfold validate_create_index in Hv.
  case_bool_decide as Hi; [done|]. apply eq_None_not_Some in Hi.
  destruct (require_table (catalog st) t) as [tm|] eqn:Ht; [|done].
  apply require_table_Some in Ht.
  unfold set_catalog, require_table in H. simpl in H. rewrite Ht in H.
  simpl in H. right. exists tm. injection H as <- <-. done.
Qed.

Lemma primary_key_column_same (tm : TableMeta) (idxs : gmap string IndexMeta) :
  primary_key_column (mkTableMeta (tm_name tm) (tm_columns tm) idxs)
  = primary_key_column tm.
Proof. done. Qed.

Lemma create_index_invariant (i t col : string) (tm : TableMeta) (st : db) :
  invariant st →
  indexes (catalog st) !! i = None →
  tables (catalog st) !! t = Some tm →
  let idx := mkIndexMeta i t col in
  let tm' := mkTableMeta (tm_name tm) (tm_columns tm)
               (<[i := idx]> (tm_indexes tm)) in
  let c' := mkCatalog (version (catalog st))
              (<[t := tm']> (tables (catalog st)))
              (<[i := idx]> (indexes (catalog st))) in
  invariant (mkDb c' (Some (save c')) (heaps st)).
Proof.
  intros (Hwf & Hper & Hfiles & Hpk) Hfresh Ht idx tm' c'.
  assert (catalog_wf c') as Hwf'.
  { destruct Hwf as [Htab Hidx]. split.
    - intros k tmk. unfold c'. simpl. rewrite lookup_insert.
      case_decide; subst.
      + intros [= <-]. destruct (Htab _ _ Ht) as [Hn Hsub].
        split; [done|]. intros j idxj. unfold tm'. simpl.
        rewrite !lookup_insert. case_decide; subst; [done|].
        apply Hsub.
      + intros Hk. destruct (Htab _ _ Hk) as [Hn Hsub]. split; [done|].
        intros j idxj Hj. apply Hsub in Hj. rewrite lookup_insert.
        case_decide; subst; [congruence|done].
    - intros j idxj. unfold c'. simpl. rewrite lookup_insert.
      case_decide; subst; [by intros [= <-]|]. apply Hidx. }
  split; [done|]. split; [by apply load_save_wf|]. split.
  - intros k Hk. simpl. rewrite lookup_insert. case_decide; subst; [eauto|].
    by apply Hfiles.
  - intros k tmk pk. simpl. rewrite lookup_insert.
    change (scan_of (mkDb c' (Some (save c')) (heaps st)) k)
      with (scan_of st k).
    case_decide; subst.
    + intros [= <-]. unfold tm'. rewrite primary_key_column_same.
      by apply Hpk.
    + apply Hpk.
Qed.

(** ** Every statement and every reopening keeps the invariant *)

Lemma execute_invariant (stmt : Statement) (st st' : db)
    (r : result outcome) :
  invariant st → Executor.execute stmt st = (r, st') → invariant st'.
Proof.
  intros Hinv H. destruct stmt as [t cols|i t col|t cs vs|cols t js w|t asg w|t w];
    simpl in H.
  - apply create_table_shape in H as [->|[Hfresh ->]]; [done|].
    by apply create_table_invariant.
  - apply create_index_shape in H as [->|(tm & Hi & Ht & ->)]; [done|].
    by apply create_index_invariant.
  - apply insert_shape in H as (extra & Hstep & _ & Hkeep).
    by eapply heap_step_invariant.
  - apply select_shape in H.
    eapply heap_step_invariant; [done..|]. apply keeps_pk_nil.
  - apply update_shape in H as (extra & Hstep & _ & Hkeep).
    by eapply heap_step_invariant.
  - apply delete_shape in H as (extra & Hstep & _ & Hkeep).
    by eapply heap_step_invariant.
Qed.

Lemma reopen_same (st st' : db) :
  persisted st → Database.open (Database.directory_of st) = Ok st' → st' = st.
Proof.
  unfold persisted, Database.open, Database.directory_of. simpl.
  intros ->. simpl. intros [= <-]. by destruct st.
Qed.

Lemma reachable_invariant (st : db) : reachable st → invariant st.
Proof.
  induction 1 as [|st stmt r st' _ IH Hex|st st' _ IH Hopen].
  - apply invariant_initial.
  - by eapply execute_invariant.
  - destruct IH as (? & Hper & ?). by rewrite (reopen_same _ _ Hper Hopen).
Qed.

End Invariant.

(* ================================================================== *)
(** * Atomicity, primary keys and the persisted catalog *)
(* ================================================================== *)

Section EngineProperties.
Import Catalog Executor.

Lemma reachable_run_sql (sqls : list string) (st : db) :
  reachable st → reachable (run_sql sqls st).2.
Proof.
  revert st. induction sqls as [|s sqls IH]; intros st Hst; [done|].
  simpl. destruct (Database.execute s st) as [r st1] eqn:Hex.
  specialize (IH st1). destruct (run_sql sqls st1) as [rs st2]. simpl in *.
  apply IH. unfold Database.execute, bindM, liftM in Hex.
  destruct (Parser.parse_sql s) as [stmt|e]; [|by simplify_eq].
  by eapply reachable_step.
Qed.

(** C1.  An INSERT or UPDATE that raises, for whatever reason, has
    appended nothing: the log of every table, and hence the sequence of
    rows [scan_active] yields, is what it was before the call. *)
Theorem failed_mutation_leaves_rows_unchanged (stmt : Statement)
    (st st' : db) (e : error) :
  is_insert_or_update stmt = true →
  Executor.execute stmt st = (Err e, st') →
  ∀ t, log_of st' t = log_of st t ∧ scan_of st' t = scan_of st t.
Proof.
  intros Hstmt H.
  assert (∃ t0, heap_step st t0 [] st') as [t0 Hstep].
  { destruct stmt as [| |t cs vs| |t asg w|]; try done; simpl in H.
    - apply insert_shape in H as (extra & Hstep & Hnil & _).
      rewrite Hnil in Hstep by done. eauto.
    - apply update_shape in H as (extra & Hstep & Hnil & _).
      rewrite Hnil in Hstep by done. eauto. }
  intros t. assert (log_of st' t = log_of st t) as Hlog.
  { rewrite (heap_step_log _ _ _ _ Hstep). rewrite app_nil_r.
    by case_decide; subst. }
  split; [done|]. unfold scan_of. by rewrite Hlog.
Qed.

(** Instance of the theorem: the INSERT of a primary key that is already
    live raises ConstraintError and leaves the rows as they were. *)
Lemma failed_mutation_leaves_rows_unchanged_witness :
  let st := (run_sql
               ["CREATE TABLE users (id INTEGER PRIMARY KEY, email VARCHAR(255));";
                "INSERT INTO users (id, email) VALUES (1, 'a@b.com');"]
               initial).2 in
  let stmt := Insert "users" ["id"; "email"] [VInt 1; VStr "dup@x"] in
  (Executor.execute stmt st).1
  = Err (ConstraintError
           "PRIMARY KEY constraint failed: duplicate value for users.id")
  ∧ ∀ t, log_of (Executor.execute stmt st).2 t = log_of st t
         ∧ scan_of (Executor.execute stmt st).2 t = scan_of st t.
Proof.
  intros st stmt. split; [by vm_compute|].
  apply (failed_mutation_leaves_rows_unchanged stmt st _
           (ConstraintError
              "PRIMARY KEY constraint failed: duplicate value for users.id")).
  - reflexivity.
  - by vm_compute.
Defined.

(** C2.  In every reachable state, for every table with a primary-key
    column, the primary-key values of the live rows are pairwise
    different (under Python's [==], hence also as a list without
    duplicates); and whenever the constraint check accepts a batch of
    candidates against the live rows, the candidates' primary keys differ
    from one another and from those of every live row that is not
    excluded. *)
Theorem primary_key_unique (st : db) (t : string) (tm : TableMeta)
    (pk : string) :
  reachable st →
  tables (catalog st) !! t = Some tm →
  primary_key_column tm = Some pk →
  NoDup (map (get pk) (scan_of st t))
  ∧ py_distinct (map (get pk) (scan_of st t))
  ∧ ∀ new_rows ex,
      _enforce_constraints_batch tm (scan_of st t) new_rows ex = Ok tt →
      py_distinct (map (get pk) new_rows)
      ∧ ∀ v, v ∈ map (get pk) new_rows →
             py_in v (map (get pk)
                        (List.filter (Heap.is_live ex) (scan_of st t)))
             = false.
Proof.
  intros Hst Ht Hpk.
  destruct (reachable_invariant st Hst) as (_ & _ & _ & Hinv).
  specialize (Hinv t tm pk Ht Hpk).
  split; [by apply py_distinct_NoDup|]. split; [done|].
  intros new_rows ex Henf. eapply enforce_primary_key; [|done..].
  intros r Hr. by eapply scan_active_int_rids.
Qed.

(** Instance of the theorem: the users table after two inserts, an
    update and a rejected duplicate. *)
Lemma primary_key_unique_witness :
  let st := (run_sql
               ["CREATE TABLE users (id INTEGER PRIMARY KEY, email VARCHAR(255));";
                "INSERT INTO users (id, email) VALUES (1, 'a@b.com');";
                "INSERT INTO users (id, email) VALUES (2, 'c@d.com');";
                "UPDATE users SET email = 'new@x' WHERE id = 1;";
                "INSERT INTO users (id, email) VALUES (2, 'dup@x');"]
               initial).2 in
  map (get "id") (scan_of st "users") = [VInt 2; VInt 1]
  ∧ NoDup (map (get "id") (scan_of st "users")).
Proof.
  intros st. split; [by vm_compute|].
  refine (proj1 (primary_key_unique st "users"
                   (mkTableMeta "users"
                      [mkColumnDef "id" (mkTypeSpec "INTEGER" []) false false true;
                       mkColumnDef "email" (mkTypeSpec "VARCHAR" [255%Z])
                         false false false] ∅)
                   "id" _ _ _)).
  - apply reachable_run_sql, reachable_initial.
  - by vm_compute.
  - reflexivity.
Defined.

(** C8 (as amended).  Saving and loading gives back every catalog in
    which each table and index is filed under its own name and each
    per-table index entry is the entry of the global index map; every
    reachable state has such a catalog, and reopening the database on its
    directory observes the same catalog, in particular after an accepted
    CREATE. *)
Theorem catalog_save_load :
  (∀ c, catalog_wf c → Catalog.load (Some (Catalog.save c)) = Ok c)
  ∧ (∀ st, reachable st →
           catalog_wf (catalog st)
           ∧ Database.open (Database.directory_of st) = Ok st)
  ∧ (∀ st stmt o st', reachable st →
           Executor.execute stmt st = (Ok o, st') →
           (∃ t cols, stmt = CreateTable t cols)
           ∨ (∃ i t col, stmt = CreateIndex i t col) →
           catalog_file st' = Some (Catalog.save (catalog st'))
           ∧ Database.open (Database.directory_of st') = Ok st').
Proof.
  assert (∀ st, reachable st →
                catalog_wf (catalog st)
                ∧ Database.open (Database.directory_of st) = Ok st) as Hre.
  { intros st Hst. destruct (reachable_invariant st Hst) as (Hwf & Hper & _).
    split; [done|]. unfold Database.open, Database.directory_of. simpl.
    unfold persisted in Hper. rewrite Hper. simpl. by destruct st. }
  split; [apply load_save_wf|]. split; [done|].
  intros st stmt o st' Hst Hex Hcreate. split.
  - destruct Hcreate as [(t & cols & ->)|(i & t & col & ->)]; simpl in Hex.
    + unfold _create_table, bindM, getsM, liftM, modifyM, catalog_save,
        heap_open, retM in Hex.
      destruct (validate_create_table _ _ _) as [[]|]; [|done].
      by injection Hex as _ <-.
    + apply create_index_shape in Hex as Hsh.
      destruct Hsh as [->|(tm & _ & _ & ->)]; [|done].
      unfold _create_index, bindM, getsM, liftM, modifyM, catalog_save,
        retM in Hex.
      destruct (validate_create_index _ _ _ _) as [[]|]; [|done].
      unfold set_catalog in Hex. simpl in Hex.
      destruct (require_table _ _); [|done]. simpl in Hex.
      injection Hex as _ Hst'. rewrite <- Hst' at 1 2. done.
  - apply Hre. by eapply reachable_step.
Qed.

(** Instance of the theorem: a catalog with one table and one index. *)
Lemma catalog_save_load_witness :
  let idx := mkIndexMeta "idx_email" "users" "email" in
  let c := mkCatalog 1
             {[ "users" :=
                  mkTableMeta "users"
                    [mkColumnDef "id" (mkTypeSpec "INTEGER" []) false false true;
                     mkColumnDef "email" (mkTypeSpec "VARCHAR" [255%Z])
                       true true false]
                    {[ "idx_email" := idx ]} ]}
             {[ "idx_email" := idx ]} in
  catalog_wf c ∧ Catalog.load (Some (Catalog.save c)) = Ok c.
Proof.
  intros idx c.
  assert (catalog_wf c) as Hwf.
  { split.
    - intros k tm H. cbn in H.
      apply lookup_singleton_Some in H as [<- <-]. split; [reflexivity|].
      intros i x H. cbn in H.
      apply lookup_singleton_Some in H as [<- <-]. reflexivity.
    - intros i x H. cbn in H.
      apply lookup_singleton_Some in H as [<- <-]. reflexivity. }
  split; [exact Hwf|].
  exact (proj1 catalog_save_load c Hwf).
Defined.

(** C8, the claim as worded, fails for a catalog value whose table lists
    an index that the global index map lacks: loading enters the index
    in the global map, so the catalog read back is a different one. *)
Lemma catalog_load_merges_table_indexes :
  let idx := mkIndexMeta "i" "t" "a" in
  let c := mkCatalog 1 {[ "t" := mkTableMeta "t" [] {[ "i" := idx ]} ]} ∅ in
  Catalog.load (Some (Catalog.save c))
  = Ok (mkCatalog 1 {[ "t" := mkTableMeta "t" [] {[ "i" := idx ]} ]}
          {[ "i" := idx ]})
  ∧ Catalog.load (Some (Catalog.save c)) ≠ Ok c.
Proof.
  intros idx c.
  assert (Catalog.load (Some (Catalog.save c))
          = Ok (mkCatalog 1 {[ "t" := mkTableMeta "t" [] {[ "i" := idx ]} ]}
                  {[ "i" := idx ]})) as H by by vm_compute.
  split; [done|]. rewrite H. by intros [=].
Qed.

End EngineProperties.

(* ================================================================== *)
(** * Further properties of the lexer and of the caller's SQL helpers *)
(* ================================================================== *)

Section LexerMore.
Import Lexer.

Lemma lookup_keyword_not_eof (u : string) (t : TokenType) :
  lookup_keyword u KEYWORDS = Some t → t ≠ EOF.
Proof.
  unfold KEYWORDS. cbn [lookup_keyword].
  repeat (case_bool_decide; [by intros [= <-]|]). done.
Qed.

Lemma word_token_not_eof (lex : string) (p : Position) :
  typ (word_token lex p) ≠ EOF.
Proof.
  unfold word_token. case_bool_decide; [done|]. case_bool_decide; [done|].
  destruct (lookup_keyword _ _) as [t|] eqn:Ht; [|done].
  simpl. by eapply lookup_keyword_not_eof.
Qed.

Lemma symbol_type_not_eof (ch : ascii) (t : TokenType) :
  symbol_type ch = Some t → t ≠ EOF.
Proof.
  unfold symbol_type. repeat (case_bool_decide; [by intros [= <-]|]). done.
Qed.

Lemma lex_step_not_eof (ch : ascii) (c c' : cursor) (t : Token) :
  lex_step ch c = Ok (Some t, c') → typ t ≠ EOF.
Proof.
  unfold lex_step. destruct (isspace ch); [done|].
  destruct (symbol_type ch) as [ty|] eqn:Hs.
  { intros [= <- _]. simpl. by eapply symbol_type_not_eof. }
  case_bool_decide.
  { destruct (read_string _ _ _) as [[s c2]|]; [|done]. by intros [= <- _]. }
  destruct (isdigit ch); [by intros [= <- _]|].
  destruct (isalpha ch || _); [|done].
  intros [= <- _]. apply word_token_not_eof.
Qed.

Lemma tokenize_loop_single_eof (fuel : nat) (c : cursor) :
  (String.length (rest c) ≤ fuel)%nat →
  (∃ toks eof, tokenize_loop fuel c = Ok (toks ++ [eof])
               ∧ typ eof = EOF
               ∧ Forall (λ t, typ t ≠ EOF) toks)
  ∨ (∃ msg p, tokenize_loop fuel c = Err (SqlSyntaxError msg (Some p))).
Proof.
  revert c. induction fuel as [|fuel IH]; intros c Hlen.
  - destruct (rest c) as [|ch r] eqn:Hr; [|simpl in Hlen; lia].
    left. exists [], (mkToken EOF "" VNone (cur_pos c)). simpl.
    by rewrite Hr.
  - destruct (rest c) as [|ch r] eqn:Hr.
    + left. exists [], (mkToken EOF "" VNone (cur_pos c)). simpl.
      by rewrite Hr.
    + cbn [tokenize_loop]. rewrite Hr.
      destruct (lex_step ch c) as [[tok c']|e] eqn:Hstep; cbn [bindR].
      * pose proof (lex_step_consumes _ _ _ _ _ Hr Hstep) as Hlt.
        destruct (IH c') as [(toks & eof & -> & Heof & Hall)|(msg & p & ->)].
        -- rewrite Hr in Hlt. simpl in *. lia.
        -- left. cbn [bindR]. destruct tok as [t|].
           ++ exists (t :: toks), eof. repeat split; [done|].
              constructor; [|done]. by eapply lex_step_not_eof.
           ++ by exists toks, eof.
        -- right. cbn [bindR]. eauto.
      * right. unfold lex_step in Hstep.
        destruct (isspace ch); [done|]. destruct (symbol_type ch); [done|].
        case_bool_decide.
        -- destruct (read_string _ _ _) as [[]|]; simplify_eq; eauto.
        -- destruct (isdigit ch); [done|].
           destruct (isalpha ch || _); simplify_eq; eauto.
Qed.


Lemma read_string_unterminated (s : string) (ln cl : nat) :
  quote_free s = true → read_string s ln cl = None.
Proof.
  revert ln cl. induction s as [|ch s IH]; intros ln cl H; [done|].
  simpl in H. apply andb_true_iff in H as [Hc Hs].
  apply negb_true_iff, bool_decide_eq_false in Hc. simpl.
  rewrite bool_decide_eq_false_2 by done.
  destruct (bool_decide (ch = newline)); by rewrite IH.
Qed.



Lemma sql_escape_quote_free (s : string) :
  quote_free s = true → sql.sql_escape_string s = s.
Proof.
  induction s as [|ch s IH]; [done|]. simpl.
  intros [Hc Hs]%andb_true_iff.
  apply negb_true_iff in Hc. rewrite Hc. by rewrite IH.
Qed.

Lemma sql_escape_app_quote (s1 s2 : string) :
  quote_free s1 = true →
  sql.sql_escape_string (s1 +:+ String quote s2)
  = s1 +:+ String quote (String quote (sql.sql_escape_string s2)).
Proof.
  induction s1 as [|ch s1 IH]; intros H.
  - reflexivity.
  - simpl in H. apply andb_true_iff in H as [Hc Hs].
    apply negb_true_iff in Hc. rewrite !string_app_cons. simpl.
    rewrite Hc. by rewrite IH.
Qed.

(** X3.  The caller's [sql_literal] and the lexer round-trip a string
    exactly when it holds no single quote: such a string lexes back as
    one STRING token with the same value, while for a string with a quote
    the first token read back carries only the text before the first
    quote. *)
Theorem sql_literal_string_round_trip :
  (∀ s, quote_free s = true →
        ∃ t eof, tokenize (sql.sql_literal (VStr s)) = Ok [t; eof]
                 ∧ typ t = STRING ∧ tvalue t = VStr s ∧ typ eof = EOF)
  ∧ (∀ s1 s2 toks,
        quote_free s1 = true →
        tokenize (sql.sql_literal (VStr (s1 +:+ String quote s2))) = Ok toks →
        ∃ t rest, toks = t :: rest ∧ typ t = STRING ∧ tvalue t = VStr s1
                  ∧ tvalue t ≠ VStr (s1 +:+ String quote s2)).
Proof.
  split.
  - intros s Hs. unfold sql.sql_literal. rewrite sql_escape_quote_free by done.
    unfold tokenize.
    change ("'" +:+ s +:+ "'") with (String quote (s +:+ String quote "")).
    cbn [String.length].
    destruct (tokenize_loop_quote (String.length (s +:+ String quote "")) s ""
                1 1 Hs) as (ln & cl & ->).
    do 2 eexists. split; [destruct (String.length _); reflexivity|done].
  - intros s1 s2 toks Hs Htok. unfold sql.sql_literal in Htok.
    rewrite sql_escape_app_quote in Htok by done.
    unfold tokenize in Htok.
    set (tail := String quote (sql.sql_escape_string s2) +:+ "'") in *.
    assert ("'" +:+ (s1 +:+ String quote
                       (String quote (sql.sql_escape_string s2))) +:+ "'"
            = String quote (s1 +:+ String quote tail)) as Heq.
    { unfold tail. rewrite string_app_cons, string_app_nil.
      rewrite string_app_assoc. by rewrite !string_app_cons. }
    rewrite Heq in Htok. cbn [String.length] in Htok.
    destruct (tokenize_loop_quote (String.length (s1 +:+ String quote tail))
                s1 tail 1 1 Hs) as (ln & cl & Hloop).
    rewrite Hloop in Htok.
    destruct (tokenize_loop _ _) as [rest|]; [|done]. simpl in Htok.
    injection Htok as <-. do 2 eexists. split; [done|]. repeat split.
    simpl. intros [= Hbad].
    apply (f_equal String.length) in Hbad.
    rewrite string_length_app in Hbad. simpl in Hbad. lia.
Qed.

Lemma sql_literal_string_round_trip_witness :
  quote_free "Groceries" = true
  ∧ ∃ t eof, tokenize (sql.sql_literal (VStr "Groceries")) = Ok [t; eof]
             ∧ typ t = STRING ∧ tvalue t = VStr "Groceries" ∧ typ eof = EOF.
Proof.
  split; [reflexivity|].
  exact (proj1 sql_literal_string_round_trip "Groceries" eq_refl).
Defined.



(** Upper-casing a character changes none of the classes the lexer
    tests. *)
Lemma upper_ascii_classes (c : ascii) :
  isspace (upper_ascii c) = isspace c
  ∧ symbol_type (upper_ascii c) = symbol_type c
  ∧ bool_decide (upper_ascii c = quote) = bool_decide (c = quote)
  ∧ bool_decide (upper_ascii c = newline) = bool_decide (c = newline)
  ∧ isdigit (upper_ascii c) = isdigit c
  ∧ isalpha (upper_ascii c) = isalpha c
  ∧ bool_decide (upper_ascii c = underscore) = bool_decide (c = underscore)
  ∧ upper_ascii (upper_ascii c) = upper_ascii c
  ∧ (isdigit c = true → upper_ascii c = c).
Proof.
  destruct c as [[] [] [] [] [] [] [] []]; vm_compute; by repeat split.
Qed.

Lemma upper_idemp (s : string) : upper (upper s) = upper s.
Proof.
  induction s as [|c s IH]; [done|]. simpl. rewrite IH.
  by rewrite (proj1 (proj2 (proj2 (proj2 (proj2 (proj2 (proj2 (proj2
                (upper_ascii_classes c))))))))).
Qed.

Lemma upper_length (s : string) : String.length (upper s) = String.length s.
Proof. induction s as [|c s IH]; [done|]. simpl. by rewrite IH. Qed.

(** The cursor on the upper-cased input. *)
Lemma advance1_upper (c : cursor) :
  advance1 (mkCursor (upper (rest c)) (cur_line c) (cur_col c))
  = mkCursor (upper (rest (advance1 c))) (cur_line (advance1 c))
      (cur_col (advance1 c)).
Proof.
  destruct c as [[|ch r] ln cl]; [done|]. unfold advance1. simpl.
  destruct (upper_ascii_classes ch) as (_ & _ & _ & -> & _).
  by destruct (bool_decide (ch = newline)).
Qed.

Lemma advance_upper (n : nat) (c : cursor) :
  advance n (mkCursor (upper (rest c)) (cur_line c) (cur_col c))
  = mkCursor (upper (rest (advance n c))) (cur_line (advance n c))
      (cur_col (advance n c)).
Proof.
  revert c. induction n as [|n IH]; intros c; [done|].
  simpl. by rewrite advance1_upper, IH.
Qed.

Lemma read_string_upper (s : string) (ln cl : nat) :
  read_string (upper s) ln cl
  = match read_string s ln cl with
    | Some (buf, c) =>
        Some (upper buf, mkCursor (upper (rest c)) (cur_line c) (cur_col c))
    | None => None
    end.
Proof.
  revert ln cl. induction s as [|ch s IH]; intros ln cl; [done|]. simpl.
  destruct (upper_ascii_classes ch) as (_ & _ & -> & -> & _).
  destruct (bool_decide (ch = quote)); [done|].
  destruct (bool_decide (ch = newline)); rewrite IH;
    by destruct (read_string s _ _) as [[]|].
Qed.

Lemma take_while_upper (p : ascii → bool) (s : string) :
  (∀ c, p (upper_ascii c) = p c) →
  take_while p (upper s) = upper (take_while p s).
Proof.
  intros Hp. induction s as [|c s IH]; [done|]. simpl. rewrite Hp.
  destruct (p c); [|done]. simpl. by rewrite IH.
Qed.

Lemma take_while_digits_upper (s : string) :
  upper (take_while isdigit s) = take_while isdigit s.
Proof.
  induction s as [|c s IH]; [done|]. simpl.
  destruct (isdigit c) eqn:Hc; [|done]. simpl. rewrite IH.
  destruct (upper_ascii_classes c) as (_ & _ & _ & _ & _ & _ & _ & _ & Hd).
  by rewrite Hd.
Qed.

(** Two tokens that agree but for the case of a lexeme: the types and
    positions are equal, and so are the values unless the token is an
    identifier or a string. *)
Lemma word_token_upper (lex : string) (p : Position) :
  typ (word_token (upper lex) p) = typ (word_token lex p)
  ∧ pos (word_token (upper lex) p) = pos (word_token lex p)
  ∧ (typ (word_token lex p) ≠ IDENT →
     tvalue (word_token (upper lex) p) = tvalue (word_token lex p)).
Proof.
  unfold word_token. rewrite upper_idemp.
  case_bool_decide; [done|]. case_bool_decide; [done|].
  by destruct (lookup_keyword _ _).
Qed.

Lemma lex_step_upper (ch : ascii) (c : cursor) :
  match lex_step (upper_ascii ch)
          (mkCursor (upper (rest c)) (cur_line c) (cur_col c)),
        lex_step ch c with
  | Ok (u, cu), Ok (t, ct) =>
      cu = mkCursor (upper (rest ct)) (cur_line ct) (cur_col ct)
      ∧ match u, t with
        | Some u, Some t =>
            typ u = typ t ∧ pos u = pos t
            ∧ (typ t ≠ IDENT → typ t ≠ STRING → tvalue u = tvalue t)
        | None, None => True
        | _, _ => False
        end
  | Err e, Err e' => e = e'
  | _, _ => False
  end.
Proof.
  unfold lex_step.
  destruct (upper_ascii_classes ch)
    as (-> & -> & -> & _ & -> & -> & -> & _ & _).
  destruct (isspace ch); [by rewrite (advance_upper 1)|].
  destruct (symbol_type ch); [by rewrite (advance_upper 1)|].
  destruct (bool_decide (ch = quote)).
  { rewrite (advance_upper 1). cbn [rest cur_line cur_col].
    rewrite read_string_upper.
    by destruct (read_string _ _ _) as [[]|]. }
  destruct (isdigit ch).
  { cbn [rest]. rewrite (take_while_upper isdigit).
    - rewrite take_while_digits_upper. by rewrite advance_upper.
    - intros x. by destruct (upper_ascii_classes x) as (_&_&_&_&->&_). }
  destruct (isalpha ch || _); [|done].
  cbn [rest]. rewrite take_while_upper.
  - rewrite upper_length, advance_upper. split; [done|].
    unfold cur_pos. cbn [cur_line cur_col].
    destruct (word_token_upper
                (take_while (λ x, isalnum x || bool_decide (x = underscore))
                   (rest c))
                (mkPosition (cur_line c) (cur_col c))) as (? & ? & ?).
    eauto.
  - intros x. unfold isalnum.
    by destruct (upper_ascii_classes x) as (_&_&_&_&->&->&->&_).
Qed.

Lemma tokenize_loop_upper (fuel : nat) (c : cursor) :
  match tokenize_loop fuel
          (mkCursor (upper (rest c)) (cur_line c) (cur_col c)),
        tokenize_loop fuel c with
  | Ok us, Ok ts =>
      Forall2 (λ u t, typ u = typ t ∧ pos u = pos t
                      ∧ (typ t ≠ IDENT → typ t ≠ STRING →
                         tvalue u = tvalue t)) us ts
  | Err e, Err e' => e = e'
  | _, _ => False
  end.
Proof.
  revert c. induction fuel as [|fuel IH]; intros c.
  - destruct c as [[|ch r] ln cl]; simpl; [|done].
    by repeat constructor.
  - destruct c as [[|ch r] ln cl] eqn:Hc; [by repeat constructor|].
    cbn [tokenize_loop rest upper cur_line cur_col].
    pose proof (lex_step_upper ch c) as Hstep. rewrite Hc in Hstep.
    cbn [rest upper cur_line cur_col] in Hstep.
    destruct (lex_step (upper_ascii ch) _) as [[u cu]|eu];
      destruct (lex_step ch _) as [[t ct]|et]; try done; cbn [bindR].
    destruct Hstep as [-> Htok]. specialize (IH ct).
    destruct (tokenize_loop fuel (mkCursor (upper _) _ _)) as [us|];
      destruct (tokenize_loop fuel ct) as [ts|]; try done; cbn [bindR].
    destruct u as [u|], t as [t|]; try done. by constructor.
Qed.


Lemma string_app_nil_r (s : string) : s +:+ "" = s.
Proof.
  induction s as [|c s IH]; [done|]. by rewrite string_app_cons, IH.
Qed.

Lemma int_of_digits_app (d r : string) (acc : Z) :
  int_of_digits acc (d +:+ r) = int_of_digits (int_of_digits acc d) r.
Proof.
  revert acc. induction d as [|c d IH]; intros acc; [done|].
  rewrite string_app_cons. simpl. by rewrite IH.
Qed.

Lemma take_while_digits_app (d : string) (c : ascii) :
  take_while isdigit d = d → isdigit c = true →
  take_while isdigit (d +:+ String c "") = d +:+ String c "".
Proof.
  intros Hd Hc. induction d as [|x d IH]; simpl.
  - by rewrite Hc.
  - rewrite string_app_cons. simpl in *.
    destruct (isdigit x); [|done]. injection Hd as Hd. by rewrite IH.
Qed.

Lemma pretty_N_char_digit (x : N) :
  (x < 10)%N →
  isdigit (pretty_N_char x) = true
  ∧ Z.of_nat (nat_of_ascii (pretty_N_char x) - 48) = Z.of_N x.
Proof.
  intros Hx.
  assert (x = 0 ∨ x = 1 ∨ x = 2 ∨ x = 3 ∨ x = 4 ∨ x = 5 ∨ x = 6
          ∨ x = 7 ∨ x = 8 ∨ x = 9)%N as H by lia.
  by repeat (destruct H as [->|H]; [done|]); subst.
Qed.

(** [str(x)] for a natural number: a run of digits whose value is [x]. *)
Lemma pretty_N_go_digits (x : N) :
  ∃ d, (∀ s, pretty_N_go x s = d +:+ s)
       ∧ take_while isdigit d = d
       ∧ (∀ acc, int_of_digits acc d
                 = (acc * 10 ^ Z.of_nat (String.length d) + Z.of_N x)%Z)
       ∧ ((0 < x)%N → d ≠ "").
Proof.
  induction (N.lt_wf_0 x) as [x _ IH].
  destruct (decide (x = 0)%N) as [->|Hx].
  - exists "". split; [|split; [|split]]; [|done|intros acc; simpl; lia|lia].
    intros s. by rewrite pretty_N_go_0.
  - assert (0 < x)%N as Hpos by lia.
    destruct (IH (x `div` 10)%N) as (d & Hgo & Hd & Hval & _).
    { by apply N.div_lt. }
    destruct (pretty_N_char_digit (x `mod` 10)%N) as [Hdig Hc].
    { by apply N.mod_lt. }
    exists (d +:+ String (pretty_N_char (x `mod` 10)%N) "").
    split; [|split; [|split]].
    + intros s. rewrite pretty_N_go_step, Hgo by done.
      by rewrite string_app_assoc.
    + by apply take_while_digits_app.
    + intros acc. rewrite int_of_digits_app, Hval. cbn [int_of_digits].
      rewrite Hc, string_length_app. cbn [String.length].
      rewrite Nat2Z.inj_add, Z.pow_add_r by lia.
      pose proof (N.div_mod x 10 ltac:(done)) as Hdm.
      change (10 ^ Z.of_nat 1)%Z with 10%Z. lia.
    + intros _ Hnil. apply (f_equal String.length) in Hnil.
      rewrite string_length_app in Hnil. simpl in Hnil. lia.
Qed.

Lemma digit_is_plain (c : ascii) :
  isdigit c = true →
  isspace c = false ∧ symbol_type c = None
  ∧ bool_decide (c = quote) = false ∧ bool_decide (c = newline) = false.
Proof.
  destruct c as [[] [] [] [] [] [] [] []]; vm_compute; by repeat split.
Qed.

Lemma advance_digits (d : string) (ln cl : nat) :
  take_while isdigit d = d →
  advance (String.length d) (mkCursor d ln cl)
  = mkCursor "" ln (cl + String.length d).
Proof.
  revert cl. induction d as [|c d IH]; intros cl Hd; simpl.
  - f_equal. lia.
  - simpl in Hd. destruct (isdigit c) eqn:Hc; [|done].
    injection Hd as Hd. unfold advance1. cbn [rest cur_line cur_col].
    destruct (digit_is_plain c Hc) as (_ & _ & _ & ->).
    rewrite IH by done. f_equal. lia.
Qed.

Lemma tokenize_digits (d : string) :
  take_while isdigit d = d → d ≠ "" →
  tokenize d
  = Ok [mkToken INT d (VInt (int_of_digits 0 d)) (mkPosition 1 1);
        mkToken EOF "" VNone (mkPosition 1 (1 + String.length d))].
Proof.
  intros Hd Hne. destruct d as [|c d'] eqn:Heq; [done|]. rewrite <- Heq in *.
  assert (isdigit c = true) as Hc.
  { rewrite Heq in Hd. simpl in Hd. by destruct (isdigit c). }
  unfold tokenize. rewrite Heq at 1. cbn [String.length].
  rewrite Heq at 1. cbn [tokenize_loop rest]. rewrite <- Heq.
  unfold lex_step. destruct (digit_is_plain c Hc) as (-> & -> & -> & _).
  rewrite Hc. cbn [rest]. rewrite Hd, advance_digits by done.
  cbn [bindR]. by destruct (String.length d').
Qed.



End LexerMore.

(* ================================================================== *)
(** * Further properties of the parser *)
(* ================================================================== *)

Section LexedTokens.
Import Lexer.

Lemma lex_step_int_value (ch : ascii) (c c' : cursor) (t : Token) :
  lex_step ch c = Ok (Some t, c') →
  typ t = INT → isinstance_int (tvalue t) = true.
Proof.
  unfold lex_step. destruct (isspace ch); [done|].
  destruct (symbol_type ch) as [ty|] eqn:Hs.
  { intros [= <- _] Ht. simpl in *. subst ty. revert Hs.
    unfold symbol_type. by repeat case_bool_decide. }
  case_bool_decide.
  { destruct (read_string _ _ _) as [[s c2]|]; [|done]. by intros [= <- _]. }
  destruct (isdigit ch); [by intros [= <- _]|].
  destruct (isalpha ch || _); [|done].
  intros [= <- _]. unfold word_token.
  case_bool_decide; [done|]. case_bool_decide; [done|].
  destruct (lookup_keyword _ _) as [ty|] eqn:Hk; [|done].
  simpl. intros ->. revert Hk. unfold KEYWORDS. cbn [lookup_keyword].
  by repeat case_bool_decide.
Qed.

Lemma tokenize_loop_int_values (fuel : nat) (c : cursor) (toks : list Token) :
  tokenize_loop fuel c = Ok toks →
  Forall (λ t, typ t = INT → isinstance_int (tvalue t) = true) toks.
Proof.
  revert c toks. induction fuel as [|fuel IH]; intros c toks.
  - simpl. destruct (rest c); [|done]. intros [= <-]. by repeat constructor.
  - cbn [tokenize_loop]. destruct (rest c) as [|ch r].
    { intros [= <-]. by repeat constructor. }
    destruct (lex_step ch c) as [[tok c']|e] eqn:Hstep; [|done]. cbn [bindR].
    destruct (tokenize_loop fuel c') as [ts|] eqn:Hts; [|done]. cbn [bindR].
    intros [= <-]. specialize (IH _ _ Hts). destruct tok as [t|]; [|done].
    constructor; [|done]. by eapply lex_step_int_value.
Qed.

Lemma tokenize_lexed (sql : string) (toks : list Token) :
  tokenize sql = Ok toks → lexed toks.
Proof.
  intros H. split.
  - destruct (tokenize_loop_single_eof (String.length sql) (mkCursor sql 1 1))
      as [(body & eof & Htok & ? & ?)|(msg & p & Herr)]; [done| |].
    + unfold tokenize in H. rewrite Htok in H. injection H as <-. eauto.
    + unfold tokenize in H. by rewrite Herr in H.
  - by eapply tokenize_loop_int_values.
Qed.

End LexedTokens.

Section ParserTotal.
Import Lexer Parser.

Variable tokens : list Token.
Hypothesis Hlex : lexed tokens.

Lemma lexed_lookup (i : nat) :
  i < length tokens → ∃ t, tokens !! i = Some t.
Proof. intros Hi. by apply lookup_lt_is_Some_2. Qed.

Lemma lexed_not_last (i : nat) (t : Token) :
  tokens !! i = Some t → typ t ≠ EOF → S i < length tokens.
Proof.
  destruct Hlex as [(body & eof & -> & Heof & Hbody) _]. intros Hi Ht.
  rewrite length_app. simpl.
  destruct (decide (i < length body)) as [|Hge]; [lia|].
  rewrite lookup_app_r in Hi by lia.
  destruct (i - length body) as [|k] eqn:Hk; simpl in Hi; [|done].
  by simplify_eq.
Qed.

Lemma lexed_int (i : nat) (t : Token) :
  tokens !! i = Some t → typ t = INT → ∃ n, py_int (tvalue t) = Ok n.
Proof.
  destruct Hlex as [_ Hint]. intros Hi Ht.
  rewrite Forall_lookup in Hint. specialize (Hint _ _ Hi Ht).
  unfold isinstance_int in Hint. unfold py_int.
  destruct (as_int (tvalue t)); [eauto|done].
Qed.

Lemma consume_at (i : nat) (t : Token) :
  tokens !! i = Some t → consume tokens i = Ok (t, S i).
Proof.
  intros Hi. unfold consume. by rewrite (bindP_eq _ _ _ _ _ (peek_at _ _ _ Hi)).
Qed.

Lemma adv_ret {A} (a : A) (i : nat) : advances tokens false (retP a) i.
Proof. intros Hi. simpl. split; [lia|done]. Qed.

Lemma adv_fail {A} (msg : string) (p : Position) (s : bool) (i : nat) :
  advances tokens s (@failP A (SqlSyntaxError msg (Some p))) i.
Proof. intros Hi. simpl. by eexists _, _. Qed.

Lemma adv_weaken {A} (p : P A) (s : bool) (i : nat) :
  advances tokens true p i → advances tokens s p i.
Proof.
  intros H Hi. specialize (H Hi). destruct (p i) as [[a j]|e]; [|done].
  destruct s; [done|]. split; lia.
Qed.

Lemma adv_bind_s {A B} (p : P A) (k : A → P B) (i : nat) :
  advances tokens true p i →
  (∀ a j, advances tokens false (k a) j) →
  advances tokens true (bindP p k) i.
Proof.
  intros Hp Hk Hi. specialize (Hp Hi). unfold bindP.
  destruct (p i) as [[a j]|e]; [|done]. destruct Hp as [Hij Hj].
  specialize (Hk a j Hj). destruct (k a j) as [[b j']|e]; [|done].
  split; lia.
Qed.

Lemma adv_bind_w {A B} (p : P A) (k : A → P B) (s : bool) (i : nat) :
  advances tokens false p i →
  (∀ a j, advances tokens s (k a) j) →
  advances tokens s (bindP p k) i.
Proof.
  intros Hp Hk Hi. specialize (Hp Hi). unfold bindP.
  destruct (p i) as [[a j]|e]; [|done]. destruct Hp as [Hij Hj].
  specialize (Hk a j Hj). destruct (k a j) as [[b j']|e]; [|done].
  destruct s; split; lia.
Qed.

Lemma adv_peek {A} (k : Token → P A) (s : bool) (i : nat) :
  (∀ t, tokens !! i = Some t → advances tokens s (k t) i) →
  advances tokens s (bindP (peek tokens 0) k) i.
Proof.
  intros Hk Hi. destruct (lexed_lookup i Hi) as [t Ht].
  rewrite (bindP_eq _ _ _ _ _ (peek_at _ _ _ Ht)). by apply Hk.
Qed.

Lemma adv_expect (ty : TokenType) (msg : string) (i : nat) :
  ty ≠ EOF → advances tokens true (expect tokens ty msg) i.
Proof.
  intros Hty. unfold expect. apply adv_peek. intros t Ht Hi.
  case_bool_decide as Heq; [|by eexists _, _].
  rewrite (consume_at _ _ Ht). split; [lia|].
  apply (lexed_not_last _ _ Ht). by rewrite Heq.
Qed.

Lemma match_spec (ty : TokenType) (i : nat) :
  ty ≠ EOF → i < length tokens →
  ∃ b : bool, match_ tokens ty i = Ok (b, if b then S i else i)
       ∧ (b = true → S i < length tokens).
Proof.
  intros Hty Hi. destruct (lexed_lookup i Hi) as [t Ht].
  destruct (decide (typ t = ty)) as [Heq|Hne].
  - exists true. rewrite (match_yes _ _ _ _ Ht Heq). split; [done|].
    intros _. apply (lexed_not_last _ _ Ht). by rewrite Heq.
  - exists false. by rewrite (match_no _ _ _ _ Ht Hne).
Qed.

Lemma adv_match (ty : TokenType) (i : nat) :
  ty ≠ EOF → advances tokens false (match_ tokens ty) i.
Proof.
  intros Hty Hi. destruct (match_spec ty i Hty Hi) as (b & -> & Hb).
  destruct b; [split; [lia|by apply Hb]|split; [lia|done]].
Qed.

Lemma adv_sep_loop {A} (sep : TokenType) (item : P A) :
  sep ≠ EOF →
  (∀ j, advances tokens true item j) →
  ∀ fuel i, length tokens - i < fuel →
            advances tokens false (sep_loop tokens fuel sep item) i.
Proof.
  intros Hsep Hitem. induction fuel as [|fuel IH]; intros i Hf Hi; [lia|].
  cbn [sep_loop]. destruct (match_spec sep i Hsep Hi) as (b & Hm & Hb).
  rewrite (bindP_eq _ _ _ _ _ Hm). destruct b; [|split; [lia|done]].
  specialize (Hb eq_refl). unfold bindP at 1.
  specialize (Hitem (S i) Hb).
  destruct (item (S i)) as [[x j]|e]; [|done]. destruct Hitem as [Hj Hj'].
  unfold bindP at 1. specialize (IH j ltac:(lia) Hj').
  destruct (sep_loop tokens fuel sep item j) as [[xs j2]|e]; [|done].
  simpl. split; lia.
Qed.

Lemma adv_sep_list {A} (sep : TokenType) (item : P A) (i : nat) :
  sep ≠ EOF →
  (∀ j, advances tokens true item j) →
  advances tokens true (sep_list tokens sep item) i.
Proof.
  intros Hsep Hitem. unfold sep_list. apply adv_bind_s; [done|].
  intros x j. apply adv_bind_w; [|intros; apply adv_ret].
  apply adv_sep_loop; [done..|]. unfold loop_fuel. lia.
Qed.

Ltac adv_step :=
  first
    [ apply adv_ret
    | apply adv_fail
    | apply adv_expect; done
    | apply adv_match; done
    | apply adv_bind_s; [apply adv_expect; done|intros ? ?]
    | apply adv_bind_w; [apply adv_match; done|intros [] ?] ].

Lemma adv_parse_column_ref (i : nat) :
  advances tokens true (parse_column_ref tokens) i.
Proof.
  unfold parse_column_ref. apply adv_bind_s; [by apply adv_expect|].
  intros first ?. apply adv_bind_w; [by apply adv_match|].
  intros [] j'; [|apply adv_ret].
  apply adv_weaken. by repeat adv_step.
Qed.

Lemma adv_parse_literal (i : nat) :
  advances tokens true (parse_literal tokens) i.
Proof.
  unfold parse_literal. apply adv_peek. intros t Ht Hi.
  case_bool_decide as Hint.
  { rewrite (bindP_eq _ _ _ _ _ (consume_at _ _ Ht)).
    destruct (lexed_int _ _ Ht Hint) as [n Hn].
    unfold bindP, liftP. rewrite Hn. simpl. split; [lia|].
    apply (lexed_not_last _ _ Ht). by rewrite Hint. }
  case_bool_decide as Hstr.
  { rewrite (bindP_eq _ _ _ _ _ (consume_at _ _ Ht)). simpl.
    split; [lia|]. apply (lexed_not_last _ _ Ht). by rewrite Hstr. }
  case_bool_decide as Hbool; [|by eexists _, _].
  rewrite (bindP_eq _ _ _ _ _ (consume_at _ _ Ht)). simpl.
  split; [lia|]. apply (lexed_not_last _ _ Ht). by rewrite Hbool.
Qed.

Lemma adv_parse_condition (i : nat) :
  advances tokens true (parse_condition tokens) i.
Proof.
  unfold parse_condition. apply adv_bind_s; [apply adv_parse_column_ref|].
  intros l ?. apply adv_weaken. adv_step.
  apply adv_weaken. apply adv_bind_s; [apply adv_parse_literal|].
  intros; apply adv_ret.
Qed.

Lemma adv_parse_optional_where (i : nat) :
  advances tokens false (parse_optional_where tokens) i.
Proof.
  unfold parse_optional_where. adv_step; [|apply adv_ret].
  apply adv_weaken. apply adv_bind_s; [|intros; apply adv_ret].
  unfold parse_where_clause_after_where.
  apply adv_bind_s; [|intros; apply adv_ret].
  apply adv_sep_list; [done|]. apply adv_parse_condition.
Qed.

Lemma adv_parse_int_param (i : nat) :
  advances tokens true (parse_int_param tokens) i.
Proof.
  intros Hi. destruct (lexed_lookup i Hi) as [t Ht].
  unfold parse_int_param. unfold bindP at 1. unfold expect.
  rewrite (bindP_eq _ _ _ _ _ (peek_at _ _ _ Ht)).
  case_bool_decide as Hint; [|by eexists _, _].
  rewrite (consume_at _ _ Ht).
  destruct (lexed_int _ _ Ht Hint) as [n Hn]. unfold liftP. rewrite Hn.
  split; [lia|]. apply (lexed_not_last _ _ Ht). by rewrite Hint.
Qed.

Lemma adv_parse_type_spec (i : nat) :
  advances tokens true (parse_type_spec tokens) i.
Proof.
  unfold parse_type_spec. adv_step. adv_step.
  - apply adv_bind_w; [|intros; apply adv_ret].
    apply adv_weaken. apply adv_bind_s.
    + apply adv_sep_list; [done|]. apply adv_parse_int_param.
    + intros ps ?. apply adv_weaken. by repeat adv_step.
  - apply adv_bind_w; intros; apply adv_ret.
Qed.

Lemma adv_constraint_loop (fuel : nat) :
  ∀ i nn u pk, length tokens - i < fuel →
    advances tokens false (constraint_loop tokens fuel nn u pk) i.
Proof.
  induction fuel as [|fuel IH]; intros i nn u pk Hf Hi; [lia|].
  cbn [constraint_loop].
  destruct (match_spec NOT i ltac:(done) Hi) as (b & Hm & Hb).
  rewrite (bindP_eq _ _ _ _ _ Hm). destruct b.
  { specialize (Hb eq_refl). unfold bindP.
    pose proof (adv_expect NULL "Expected NULL after NOT" (S i)
                  ltac:(done) Hb) as He.
    destruct (expect tokens NULL _ (S i)) as [[x j]|e]; [|done].
    destruct He as [Hj Hj'].
    specialize (IH j true u pk ltac:(lia) Hj').
    destruct (constraint_loop tokens fuel true u pk j) as [[fl j2]|e];
      [|done].
    split; lia. }
  clear Hm Hb.
  destruct (match_spec UNIQUE i ltac:(done) Hi) as (b & Hm & Hb).
  rewrite (bindP_eq _ _ _ _ _ Hm). destruct b.
  { specialize (Hb eq_refl). specialize (IH (S i) nn true pk ltac:(lia) Hb).
    destruct (constraint_loop tokens fuel nn true pk (S i)) as [[fl j2]|e];
      [|done].
    split; lia. }
  clear Hm Hb.
  destruct (match_spec PRIMARY i ltac:(done) Hi) as (b & Hm & Hb).
  rewrite (bindP_eq _ _ _ _ _ Hm). destruct b; [|split; [lia|done]].
  specialize (Hb eq_refl). unfold bindP.
  pose proof (adv_expect KEY "Expected KEY after PRIMARY" (S i)
                ltac:(done) Hb) as He.
  destruct (expect tokens KEY _ (S i)) as [[x j]|e]; [|done].
  destruct He as [Hj Hj'].
  specialize (IH j nn u true ltac:(lia) Hj').
  destruct (constraint_loop tokens fuel nn u true j) as [[fl j2]|e]; [|done].
  split; lia.
Qed.

Lemma adv_parse_column_def (i : nat) :
  advances tokens true (parse_column_def tokens) i.
Proof.
  unfold parse_column_def. adv_step. apply adv_weaken.
  apply adv_bind_s; [apply adv_parse_type_spec|]. intros ty ?.
  apply adv_bind_w.
  - apply adv_constraint_loop. unfold loop_fuel. lia.
  - intros [[nn u] pk] ?. apply adv_ret.
Qed.

Lemma adv_parse_create (i : nat) :
  advances tokens true (parse_create tokens) i.
Proof.
  unfold parse_create. adv_step. adv_step.
  { unfold parse_create_table_after_keyword. apply adv_weaken.
    adv_step. apply adv_weaken. adv_step. apply adv_weaken.
    apply adv_bind_s.
    - apply adv_sep_list; [done|]. apply adv_parse_column_def.
    - intros cols ?. apply adv_weaken. by repeat adv_step. }
  adv_step.
  { unfold parse_create_index_after_keyword. apply adv_weaken.
    adv_step. apply adv_weaken. adv_step. apply adv_weaken.
    adv_step. apply adv_weaken. adv_step. apply adv_weaken.
    adv_step. apply adv_weaken. by repeat adv_step. }
  apply adv_peek. intros t Ht. apply adv_fail.
Qed.

Lemma adv_parse_column_name (i : nat) :
  advances tokens true (parse_column_name tokens) i.
Proof. unfold parse_column_name. by repeat adv_step. Qed.

Lemma adv_parse_insert (i : nat) :
  advances tokens true (parse_insert tokens) i.
Proof.
  unfold parse_insert. adv_step. apply adv_weaken. adv_step.
  apply adv_weaken. adv_step. apply adv_weaken. adv_step.
  apply adv_weaken. apply adv_bind_s.
  { apply adv_sep_list; [done|]. apply adv_parse_column_name. }
  intros cols ?. apply adv_weaken. adv_step. apply adv_weaken. adv_step.
  apply adv_weaken. adv_step. apply adv_weaken. apply adv_bind_s.
  { apply adv_sep_list; [done|]. apply adv_parse_literal. }
  intros vals ?. apply adv_weaken. adv_step.
  case_bool_decide; [|apply adv_ret].
  apply adv_peek. intros t Ht. apply adv_fail.
Qed.

Lemma adv_parse_select (i : nat) :
  advances tokens true (parse_select tokens) i.
Proof.
  unfold parse_select. adv_step. apply adv_bind_w.
  { unfold parse_select_list. adv_step; [apply adv_ret|].
    apply adv_weaken. apply adv_bind_s; [|intros; apply adv_ret].
    apply adv_sep_list; [done|]. apply adv_parse_column_ref. }
  intros cols ?. apply adv_weaken. adv_step. apply adv_weaken. adv_step.
  apply adv_bind_w.
  { apply adv_sep_loop; [done| |unfold loop_fuel; lia].
    intros ?. unfold parse_join_clause. adv_step. apply adv_weaken.
    adv_step. apply adv_weaken.
    apply adv_bind_s; [apply adv_parse_column_ref|]. intros l ?.
    apply adv_weaken. adv_step. apply adv_weaken.
    apply adv_bind_s; [apply adv_parse_column_ref|].
    intros; apply adv_ret. }
  intros joins ?. apply adv_bind_w; [apply adv_parse_optional_where|].
  intros; apply adv_ret.
Qed.

Lemma adv_parse_update (i : nat) :
  advances tokens true (parse_update tokens) i.
Proof.
  unfold parse_update. adv_step. apply adv_weaken. adv_step.
  apply adv_weaken. adv_step. apply adv_weaken. apply adv_bind_s.
  { apply adv_sep_list; [done|]. intros ?. unfold parse_assignment.
    adv_step. apply adv_weaken. adv_step. apply adv_weaken.
    apply adv_bind_s; [apply adv_parse_literal|]. intros; apply adv_ret. }
  intros asg ?. apply adv_bind_w; [apply adv_parse_optional_where|].
  intros; apply adv_ret.
Qed.

Lemma adv_parse_delete (i : nat) :
  advances tokens true (parse_delete tokens) i.
Proof.
  unfold parse_delete. adv_step. apply adv_weaken. adv_step.
  apply adv_weaken. adv_step.
  apply adv_bind_w; [apply adv_parse_optional_where|].
  intros; apply adv_ret.
Qed.

Lemma adv_parse_statement (i : nat) :
  advances tokens true (parse_statement tokens) i.
Proof.
  unfold parse_statement. apply adv_peek. intros t Ht.
  case_bool_decide; [apply adv_parse_create|].
  case_bool_decide; [apply adv_parse_insert|].
  case_bool_decide; [apply adv_parse_select|].
  case_bool_decide; [apply adv_parse_update|].
  case_bool_decide; [apply adv_parse_delete|].
  apply adv_fail.
Qed.

Lemma adv_script_loop (fuel : nat) :
  ∀ i, length tokens - i < fuel →
       advances tokens false (script_loop tokens fuel) i.
Proof.
  induction fuel as [|fuel IH]; intros i Hf Hi; [lia|].
  cbn [script_loop]. unfold at_.
  destruct (lexed_lookup i Hi) as [t Ht].
  rewrite (bindP_eq _ _ i (bool_decide (typ t = EOF)) i)
    by (by rewrite (bindP_eq _ _ _ _ _ (peek_at _ _ _ Ht))).
  case_bool_decide as Heof; [split; [lia|done]|].
  destruct (match_spec SEMI i ltac:(done) Hi) as (b & Hm & Hb).
  rewrite (bindP_eq _ _ _ _ _ Hm). destruct b.
  { specialize (Hb eq_refl). specialize (IH (S i) ltac:(lia) Hb).
    destruct (script_loop tokens fuel (S i)) as [[ss j]|e]; [|done].
    split; lia. }
  unfold bindP at 1. pose proof (adv_parse_statement i Hi) as Hs.
  destruct (parse_statement tokens i) as [[s j]|e]; [|done].
  destruct Hs as [Hj Hj']. unfold bindP at 1.
  destruct (match_spec SEMI j ltac:(done) Hj') as (b & -> & Hb').
  unfold bindP.
  assert (length tokens - (if b then S j else j) < fuel
          ∧ (if b then S j else j) < length tokens) as [Hf2 Hlt].
  { destruct b; [specialize (Hb' eq_refl)|]; lia. }
  specialize (IH _ Hf2 Hlt).
  destruct (script_loop tokens fuel _) as [[ss j2]|e]; [|done].
  simpl. destruct b; split; lia.
Qed.

Lemma run_parse_one_total :
  (∃ stmt, run (parse_one tokens) = Ok stmt)
  ∨ (∃ e, run (parse_one tokens) = Err e ∧ syntax_error e).
Proof.
  assert (0 < length tokens) as H0.
  { destruct Hlex as [(body & eof & -> & _) _]. rewrite length_app.
    simpl. lia. }
  pose proof (adv_script_loop (loop_fuel tokens) 0
                ltac:(unfold loop_fuel; lia) H0) as Hs.
  unfold run, parse_one, parse_script, bindP.
  destruct (script_loop tokens (loop_fuel tokens) 0) as [[stmts j]|e];
    [|right; eauto].
  destruct Hs as [_ Hj]. destruct stmts as [|s [|s' ss]].
  - right. eexists. split; [done|]. by eexists _, _.
  - left. eauto.
  - destruct (lexed_lookup j Hj) as [t Ht].
    rewrite (peek_at _ _ _ Ht). right. eexists. split; [done|].
    by eexists _, _.
Qed.

End ParserTotal.


Section SeparatedFailure.
Import Lexer Parser.

Variable tokens : list Token.
Context {A : Type} (sep : TokenType) (item : P A).
Context (accept : Token → Prop) (f : Token → A).
Hypothesis item_ok :
  ∀ j x, tokens !! j = Some x → accept x → item j = Ok (f x, S j).

(** The loop of a separated list stops with the error of the first item
    that is refused. *)
Lemma sep_loop_bad (e : error) (goods : list (Token * Token)) :
  ∀ (fuel i : nat) (c bad : Token) (more : list Token),
    drop i tokens
    = c :: flat_map (λ p, [p.1; p.2]) goods ++ bad :: more →
    typ c = sep →
    Forall (λ p, accept p.1 ∧ typ p.2 = sep) goods →
    item (S i + 2 * length goods) = Err e →
    length goods < fuel →
    sep_loop tokens fuel sep item i = Err e.
Proof.
  induction goods as [|[x c'] goods IH];
    intros fuel i c bad more Hd Hc Hall Hbad Hf.
  - destruct fuel as [|fuel]; [simpl in Hf; lia|]. simpl in Hd, Hbad.
    apply drop_cons_inv in Hd as [Hi _]. cbn [sep_loop].
    rewrite (bindP_eq _ _ _ _ _ (match_yes _ _ _ _ Hi Hc)).
    unfold bindP. rewrite Nat.add_0_r in Hbad. by rewrite Hbad.
  - destruct fuel as [|fuel]; [simpl in Hf; lia|].
    apply Forall_cons in Hall as [[Hx Hc'] Hall]. simpl in Hx, Hc', Hd.
    apply drop_cons_inv in Hd as [Hi Hd].
    apply drop_cons_inv in Hd as [Hi' Hd].
    cbn [sep_loop].
    rewrite (bindP_eq _ _ _ _ _ (match_yes _ _ _ _ Hi Hc)).
    rewrite (bindP_eq _ _ _ _ _ (item_ok _ _ Hi' Hx)).
    unfold bindP at 1.
    rewrite (IH fuel (S (S i)) c' bad more Hd Hc' Hall); [done| |].
    + rewrite <- Hbad. f_equal. simpl. lia.
    + simpl in Hf. lia.
Qed.

Lemma sep_list_bad (e : error) (goods : list (Token * Token))
    (i : nat) (bad : Token) (more : list Token) :
  drop i tokens = flat_map (λ p, [p.1; p.2]) goods ++ bad :: more →
  Forall (λ p, accept p.1 ∧ typ p.2 = sep) goods →
  item (i + 2 * length goods) = Err e →
  sep_list tokens sep item i = Err e.
Proof.
  intros Hd Hall Hbad. unfold sep_list.
  destruct goods as [|[x c] goods].
  - simpl in Hbad. rewrite Nat.add_0_r in Hbad. unfold bindP.
    by rewrite Hbad.
  - apply Forall_cons in Hall as [[Hx Hc] Hall]. simpl in Hx, Hc, Hd.
    assert (length goods < loop_fuel tokens) as Hfuel.
    { unfold loop_fuel.
      assert (length (drop i tokens) ≤ length tokens)%nat as Hle
        by (rewrite length_drop; lia).
      rewrite Hd in Hle. simpl in Hle. rewrite length_app in Hle.
      assert (length goods
              ≤ length (flat_map (λ p : Token * Token, [p.1; p.2]) goods))%nat.
      { clear. induction goods as [|p ps IH]; simpl; lia. }
      lia. }
    apply drop_cons_inv in Hd as [Hi Hd].
    rewrite (bindP_eq _ _ _ _ _ (item_ok _ _ Hi Hx)).
    unfold bindP.
    rewrite (sep_loop_bad e goods _ (S i) c bad more Hd Hc Hall); [done| |done].
    rewrite <- Hbad. f_equal. simpl. lia.
Qed.

End SeparatedFailure.

Section ParseInsertMore.
Import Lexer Parser.

Variables (kw_insert kw_into name lp1 col0 rp1 kw_values lp2 : Token).
Variables (cols : list (Token * Token)) (more : list Token).

Hypothesis insert_kw : typ kw_insert = INSERT.
Hypothesis into_kw : typ kw_into = INTO.
Hypothesis name_ident : typ name = IDENT.
Hypothesis lp1_paren : typ lp1 = LPAREN.
Hypothesis col0_ident : typ col0 = IDENT.
Hypothesis cols_idents :
  Forall (λ sx, typ sx.1 = COMMA ∧ typ sx.2 = IDENT) cols.
Hypothesis rp1_paren : typ rp1 = RPAREN.
Hypothesis values_kw : typ kw_values = VALUES.
Hypothesis lp2_paren : typ lp2 = LPAREN.

(** The part of [parse_insert] up to the opening parenthesis of the value
    list. *)
Lemma parse_insert_head (rest_tokens : list Token) :
  let tokens := [kw_insert; kw_into; name; lp1] ++ separated col0 cols
                ++ [rp1; kw_values; lp2] ++ rest_tokens in
  ∃ j, drop j tokens = rest_tokens
       ∧ parse_insert tokens 0
         = (do vals <- sep_list tokens COMMA (parse_literal tokens);
            do _ <- expect tokens RPAREN "Expected ')' after values";
            if bool_decide (length (py_str (tvalue col0)
                                    :: map (λ sx, py_str (tvalue sx.2)) cols)
                            ≠ length vals)
            then
              do nxt <- peek tokens 0;
              failP (SqlSyntaxError
                       "Number of columns does not match number of values"
                       (Some (pos nxt)))
            else retP (Insert (py_str (tvalue name))
                         (py_str (tvalue col0)
                          :: map (λ sx, py_str (tvalue sx.2)) cols) vals)) j.
Proof.
  intros tokens.
  assert (drop 0 tokens
          = kw_insert :: kw_into :: name :: lp1
            :: (separated col0 cols
                ++ rp1 :: kw_values :: lp2 :: rest_tokens))
    as Hd0 by reflexivity.
  unfold parse_insert.
  rewrite (bind_expect tokens _ _ _ _ _ _ Hd0 insert_kw).
  apply drop_cons_inv in Hd0 as [_ Hd0].
  rewrite (bind_expect tokens _ _ _ _ _ _ Hd0 into_kw).
  apply drop_cons_inv in Hd0 as [_ Hd0].
  rewrite (bind_expect tokens _ _ _ _ _ _ Hd0 name_ident).
  apply drop_cons_inv in Hd0 as [_ Hd0].
  rewrite (bind_expect tokens _ _ _ _ _ _ Hd0 lp1_paren).
  apply drop_cons_inv in Hd0 as [_ Hd0].
  assert (typ rp1 ≠ COMMA) as Hrp1 by (rewrite rp1_paren; done).
  rewrite (bindP_eq _ _ _ _ _
             (sep_list_pairs tokens COMMA (parse_column_name tokens)
                (λ x, typ x = IDENT) (λ x, py_str (tvalue x))
                (parse_column_name_ok tokens)
                col0 cols _ _ _ Hd0 col0_ident cols_idents Hrp1)).
  assert (drop (4 + length (separated col0 cols)) tokens
          = rp1 :: kw_values :: lp2 :: rest_tokens) as Hd1.
  { unfold tokens. rewrite (app_assoc _ (separated col0 cols)).
    rewrite drop_app_length'; [done|]. rewrite length_app. done. }
  assert (length (separated col0 cols) = S (2 * length cols)) as Hlc.
  { unfold separated. simpl. f_equal. clear.
    induction cols as [|p ps IH]; simpl; lia. }
  rewrite Hlc in Hd1.
  replace (4 + S (2 * length cols)) with (S 4 + 2 * length cols) in Hd1 by lia.
  rewrite (bind_expect tokens _ _ _ _ _ _ Hd1 rp1_paren).
  apply drop_cons_inv in Hd1 as [_ Hd1].
  rewrite (bind_expect tokens _ _ _ _ _ _ Hd1 values_kw).
  apply drop_cons_inv in Hd1 as [_ Hd1].
  rewrite (bind_expect tokens _ _ _ _ _ _ Hd1 lp2_paren).
  apply drop_cons_inv in Hd1 as [_ Hd1].
  eexists. split; [exact Hd1|]. done.
Qed.

Lemma parse_literal_bad (tokens : list Token) (j : nat) (bad : Token) :
  tokens !! j = Some bad →
  typ bad ≠ INT → typ bad ≠ STRING → typ bad ≠ BOOL →
  parse_literal tokens j
  = Err (SqlSyntaxError " literal (INT, STRING, BOOL)" (Some (pos bad))).
Proof.
  intros Hj H1 H2 H3. unfold parse_literal.
  rewrite (bindP_eq _ _ _ _ _ (peek_at _ _ _ Hj)).
  by rewrite !bool_decide_eq_false_2 by done.
Qed.

(** X8.  An INSERT whose column list and value list have the same length
    parses to the [Insert] statement with the table name, the column
    names and the literal values in the order written, whatever follows
    the closing parenthesis. *)
Theorem parse_insert_ok (val0 rp2 : Token) (vals : list (Token * Token)) :
  literal_token val0 = true →
  Forall (λ sx, typ sx.1 = COMMA ∧ literal_token sx.2 = true) vals →
  typ rp2 = RPAREN →
  length cols = length vals →
  run (parse_insert
         ([kw_insert; kw_into; name; lp1] ++ separated col0 cols
          ++ [rp1; kw_values; lp2] ++ separated val0 vals ++ rp2 :: more))
  = Ok (Insert (py_str (tvalue name))
          (py_str (tvalue col0) :: map (λ sx, py_str (tvalue sx.2)) cols)
          (literal_value val0 :: map (λ sx, literal_value sx.2) vals)).
Proof.
  intros Hv0 Hvals Hrp2 Hlen.
  destruct (parse_insert_head (separated val0 vals ++ rp2 :: more))
    as (j & Hd & Hrun).
  unfold run. rewrite Hrun. clear Hrun.
  set (tokens := _ ++ _ ++ _ ++ _) in *.
  assert (typ rp2 ≠ COMMA) as Hne by (rewrite Hrp2; done).
  rewrite (bindP_eq _ _ _ _ _
             (sep_list_pairs tokens COMMA (parse_literal tokens)
                (λ x, literal_token x = true) literal_value
                (parse_literal_ok tokens)
                val0 vals _ _ _ Hd Hv0 Hvals Hne)).
  assert (length (separated val0 vals) = S (2 * length vals)) as Hlv.
  { unfold separated. simpl. f_equal. clear.
    induction vals as [|p ps IH]; simpl; lia. }
  assert (drop (S j + 2 * length vals) tokens = rp2 :: more) as Hd2.
  { pose proof (f_equal (drop (length (separated val0 vals))) Hd) as Hd2.
    rewrite drop_drop, drop_app_length, Hlv in Hd2.
    rewrite <- Hd2. f_equal. lia. }
  rewrite (bind_expect tokens _ _ _ _ _ _ Hd2 Hrp2).
  rewrite bool_decide_eq_false_2; [done|].
  simpl. rewrite !length_map. lia.
Qed.

(** X9.  A value that is not an INT, STRING or BOOL literal, such as the
    keyword NULL that [sql_literal] writes for [None], is refused: the
    INSERT raises SqlSyntaxError at the position of that token, wherever
    it stands in the value list. *)
Theorem parse_insert_rejects_non_literal (goods : list (Token * Token))
    (bad : Token) :
  Forall (λ p, literal_token p.1 = true ∧ typ p.2 = COMMA) goods →
  typ bad ≠ INT → typ bad ≠ STRING → typ bad ≠ BOOL →
  run (parse_insert
         ([kw_insert; kw_into; name; lp1] ++ separated col0 cols
          ++ [rp1; kw_values; lp2]
          ++ flat_map (λ p, [p.1; p.2]) goods ++ bad :: more))
  = Err (SqlSyntaxError " literal (INT, STRING, BOOL)" (Some (pos bad))).
Proof.
  intros Hgoods H1 H2 H3.
  destruct (parse_insert_head
              (flat_map (λ p, [p.1; p.2]) goods ++ bad :: more))
    as (j & Hd & Hrun).
  unfold run. rewrite Hrun. clear Hrun.
  set (tokens := _ ++ _ ++ _ ++ _) in *.
  unfold bindP at 1.
  rewrite (sep_list_bad tokens COMMA (parse_literal tokens)
             (λ x, literal_token x = true) literal_value
             (parse_literal_ok tokens)
             (SqlSyntaxError " literal (INT, STRING, BOOL)" (Some (pos bad)))
             goods j bad more Hd Hgoods);
    [done|].
  apply parse_literal_bad; [|done..].
  pose proof (f_equal (drop (2 * length goods)) Hd) as Hd2.
  rewrite drop_drop in Hd2.
  assert (length (flat_map (λ p : Token * Token, [p.1; p.2]) goods)
          = 2 * length goods) as Hl.
  { clear. induction goods as [|p ps IH]; simpl; lia. }
  rewrite <- Hl in Hd2 at 2. rewrite drop_app_length in Hd2.
  by apply drop_cons_inv in Hd2 as [Hb _].
Qed.

End ParseInsertMore.

Lemma parse_insert_ok_witness :
  let tk ty lex v c := Lexer.mkToken ty lex v (mkPosition 1 c) in
  Parser.run
    (Parser.parse_insert
       ([tk Lexer.INSERT "INSERT" (VStr "INSERT") 1;
         tk Lexer.INTO "INTO" (VStr "INTO") 8;
         tk Lexer.IDENT "t" (VStr "t") 13;
         tk Lexer.LPAREN "(" VNone 15]
        ++ Lexer.separated (tk Lexer.IDENT "a" (VStr "a") 16)
             [(tk Lexer.COMMA "," VNone 17, tk Lexer.IDENT "b" (VStr "b") 19)]
        ++ [tk Lexer.RPAREN ")" VNone 20;
            tk Lexer.VALUES "VALUES" (VStr "VALUES") 22;
            tk Lexer.LPAREN "(" VNone 29]
        ++ Lexer.separated (tk Lexer.INT "1" (VInt 1) 30)
             [(tk Lexer.COMMA "," VNone 31,
               tk Lexer.STRING "'x'" (VStr "x") 33)]
        ++ tk Lexer.RPAREN ")" VNone 36
           :: [tk Lexer.SEMI ";" VNone 37; tk Lexer.EOF "" VNone 38]))
  = Ok (Insert "t" ["a"; "b"] [VInt 1; VStr "x"]).
Proof.
  intros tk.
  apply (parse_insert_ok
           (tk Lexer.INSERT "INSERT" (VStr "INSERT") 1)
           (tk Lexer.INTO "INTO" (VStr "INTO") 8)
           (tk Lexer.IDENT "t" (VStr "t") 13)
           (tk Lexer.LPAREN "(" VNone 15)
           (tk Lexer.IDENT "a" (VStr "a") 16)
           (tk Lexer.RPAREN ")" VNone 20)
           (tk Lexer.VALUES "VALUES" (VStr "VALUES") 22)
           (tk Lexer.LPAREN "(" VNone 29)
           [(tk Lexer.COMMA "," VNone 17, tk Lexer.IDENT "b" (VStr "b") 19)]
           [tk Lexer.SEMI ";" VNone 37; tk Lexer.EOF "" VNone 38]);
    try reflexivity.
  - repeat constructor.
  - repeat constructor.
Defined.

Lemma parse_insert_rejects_non_literal_witness :
  let tk ty lex v c := Lexer.mkToken ty lex v (mkPosition 1 c) in
  Parser.run
    (Parser.parse_insert
       ([tk Lexer.INSERT "INSERT" (VStr "INSERT") 1;
         tk Lexer.INTO "INTO" (VStr "INTO") 8;
         tk Lexer.IDENT "t" (VStr "t") 13;
         tk Lexer.LPAREN "(" VNone 15]
        ++ Lexer.separated (tk Lexer.IDENT "a" (VStr "a") 16)
             [(tk Lexer.COMMA "," VNone 17, tk Lexer.IDENT "b" (VStr "b") 19)]
        ++ [tk Lexer.RPAREN ")" VNone 20;
            tk Lexer.VALUES "VALUES" (VStr "VALUES") 22;
            tk Lexer.LPAREN "(" VNone 29]
        ++ flat_map (λ p, [p.1; p.2])
             [(tk Lexer.INT "1" (VInt 1) 30, tk Lexer.COMMA "," VNone 31)]
        ++ tk Lexer.NULL "NULL" (VStr "NULL") 33
           :: [tk Lexer.RPAREN ")" VNone 37; tk Lexer.EOF "" VNone 38]))
  = Err (SqlSyntaxError " literal (INT, STRING, BOOL)"
           (Some (mkPosition 1 33))).
Proof.
  intros tk.
  apply (parse_insert_rejects_non_literal
           (tk Lexer.INSERT "INSERT" (VStr "INSERT") 1)
           (tk Lexer.INTO "INTO" (VStr "INTO") 8)
           (tk Lexer.IDENT "t" (VStr "t") 13)
           (tk Lexer.LPAREN "(" VNone 15)
           (tk Lexer.IDENT "a" (VStr "a") 16)
           (tk Lexer.RPAREN ")" VNone 20)
           (tk Lexer.VALUES "VALUES" (VStr "VALUES") 22)
           (tk Lexer.LPAREN "(" VNone 29)
           [(tk Lexer.COMMA "," VNone 17, tk Lexer.IDENT "b" (VStr "b") 19)]
           [tk Lexer.RPAREN ")" VNone 37; tk Lexer.EOF "" VNone 38]);
    try reflexivity; try done.
  - repeat constructor.
  - repeat constructor.
Defined.

Section EmptyInput.
Import Lexer Parser.

Lemma script_loop_semis (tokens : list Token) (semis : list Token)
    (eof : Token) :
  ∀ fuel i,
    drop i tokens = semis ++ [eof] →
    Forall (λ t, typ t = SEMI) semis → typ eof = EOF →
    length semis < fuel →
    script_loop tokens fuel i = Ok ([], i + length semis).
Proof.
  induction semis as [|s semis IH]; intros fuel i Hd Hs He Hf.
  - destruct fuel as [|fuel]; [simpl in Hf; lia|]. simpl in Hd.
    apply drop_cons_inv in Hd as [Hi _]. cbn [script_loop]. unfold at_.
    rewrite (bindP_eq _ _ i (bool_decide (typ eof = EOF)) i)
      by (by rewrite (bindP_eq _ _ _ _ _ (peek_at _ _ _ Hi))).
    rewrite bool_decide_eq_true_2 by done. unfold retP. do 2 f_equal.
    simpl. lia.
  - destruct fuel as [|fuel]; [simpl in Hf; lia|].
    apply Forall_cons in Hs as [Hs Hss]. simpl in Hd.
    apply drop_cons_inv in Hd as [Hi Hd]. cbn [script_loop]. unfold at_.
    rewrite (bindP_eq _ _ i (bool_decide (typ s = EOF)) i)
      by (by rewrite (bindP_eq _ _ _ _ _ (peek_at _ _ _ Hi))).
    rewrite bool_decide_eq_false_2 by (by rewrite Hs).
    rewrite (bindP_eq _ _ _ _ _ (match_yes _ _ _ _ Hi Hs)).
    rewrite (IH fuel (S i) Hd Hss He) by (simpl in Hf; lia).
    do 2 f_equal. simpl. lia.
Qed.

(** X10.  Input that holds nothing but semicolons (and none at all, for
    the empty string) makes [parse_one] raise SqlSyntaxError with the
    message "Empty input", always at line 1, column 1, wherever the
    tokens stand. *)
Theorem parse_one_empty_input (semis : list Token) (eof : Token) :
  Forall (λ t, typ t = SEMI) semis → typ eof = EOF →
  run (parse_one (semis ++ [eof]))
  = Err (SqlSyntaxError "Empty input" (Some (mkPosition 1 1))).
Proof.
  intros Hs He. unfold run, parse_one, parse_script. unfold bindP.
  rewrite (script_loop_semis _ semis eof _ 0); [done..|].
  unfold loop_fuel. rewrite length_app. simpl. lia.
Qed.

End EmptyInput.

Lemma parse_one_empty_input_witness :
  Parser.run
    (Parser.parse_one
       ([Lexer.mkToken Lexer.SEMI ";" VNone (mkPosition 2 3);
         Lexer.mkToken Lexer.SEMI ";" VNone (mkPosition 2 4)]
        ++ [Lexer.mkToken Lexer.EOF "" VNone (mkPosition 3 1)]))
  = Err (SqlSyntaxError "Empty input" (Some (mkPosition 1 1))).
Proof.
  apply parse_one_empty_input; [by repeat constructor|done].
Defined.

(* ================================================================== *)
(** * Further properties of the heap files *)
(* ================================================================== *)

Section HeapMore.
Import Heap.

Lemma tombstoned_ints_nil : tombstoned_ints [] = ∅.
Proof. reflexivity. Qed.

Lemma tombstoned_ints_tombstone (rid : Z) :
  tombstoned_ints [tombstone_record rid] = {[ rid ]}.
Proof.
  rewrite tombstoned_ints_cons, spec_is_tombstone_record,
    tombstone_record_rid, tombstoned_ints_nil.
  set_solver.
Qed.

Lemma tombstoned_ints_in_log (log : list record) (n : Z) :
  n ∈ tombstoned_ints log → n ∈ log_rids log.
Proof.
  unfold tombstoned_ints, log_rids. rewrite elem_of_list_to_set.
  rewrite !list_elem_of_omap. intros (r & Hr & Hn).
  exists r. split; [|done]. by apply filter_elem_of in Hr as [Hr _].
Qed.

Lemma scan_active_in_log (log : list record) (r : record) :
  r ∈ scan_active log → r ∈ log ∧ spec_is_tombstone r = false
                         ∧ is_live (tombstoned_ints log) r = true.
Proof.
  rewrite scan_active_filter, filter_elem_of.
  intros [Hr [H1 H2]%andb_true_iff]. by apply negb_true_iff in H1.
Qed.

Lemma scan_active_rid_in_log (log : list record) (r : record) (n : Z) :
  r ∈ scan_active log → as_int (get "_rid" r) = Some n → n ∈ log_rids log.
Proof.
  intros [Hr _]%scan_active_in_log Hn. unfold log_rids.
  rewrite list_elem_of_omap. eauto.
Qed.

Lemma filter_live_all (d : gset Z) (rows : list record) :
  (∀ r n, r ∈ rows → as_int (get "_rid" r) = Some n → n ∉ d) →
  (∀ r, r ∈ rows → ∃ n, as_int (get "_rid" r) = Some n) →
  List.filter (is_live d) rows = rows.
Proof.
  intros Hd Hint. induction rows as [|r rows IH]; [done|]. simpl.
  destruct (Hint r ltac:(left)) as [n Hn].
  assert (is_live d r = true) as ->.
  { unfold is_live. rewrite Hn. apply bool_decide_eq_true_2.
    apply (Hd r); [left|done]. }
  rewrite IH; [done| |].
  - intros r' n' Hr'. apply Hd. by right.
  - intros r' Hr'. apply Hint. by right.
Qed.

Lemma stored_other (n : Z) (row : record) (k : string) :
  k ≠ "_rid" → Heap.stored n row !! k = row !! k.
Proof.
  intros Hk. unfold stored. destruct (row !! k) as [v|] eqn:Hv.
  - by apply lookup_union_Some_l.
  - rewrite lookup_union_r by done. by rewrite lookup_singleton_ne.
Qed.

Lemma stored_not_tombstone (n : Z) (row : record) :
  row !! "_op" = None → row !! "_deleted" = None →
  spec_is_tombstone (stored n row) = false.
Proof.
  intros Hop Hdel. unfold spec_is_tombstone, get.
  rewrite !stored_other by done. by rewrite Hop, Hdel.
Qed.

(** X11.  Writing the tombstone of [rid] removes from what [scan_active]
    yields exactly the rows whose rid is [rid]; the other rows stay, in
    their order. *)
Theorem tombstone_removes_rid (f : files) (log : list record) (rid : Z) :
  data_file f = Some log →
  Heap.scan (Heap.tombstone rid f)
  = Ok (List.filter
          (λ r, negb (bool_decide (as_int (get "_rid" r) = Some rid)))
          (scan_active log)).
Proof.
  intros Hlog. unfold Heap.scan, Heap.tombstone, append. simpl.
  rewrite Hlog. simpl. f_equal.
  rewrite scan_active_app, tombstoned_ints_tombstone. simpl.
  rewrite app_nil_r. apply filter_ext_in_bool. intros r Hr.
  destruct (scan_active_int_rids _ _ Hr) as [n Hn].
  unfold is_live. rewrite Hn. rewrite <- bool_decide_not.
  apply bool_decide_ext. set_solver.
Qed.

Lemma tombstone_removes_rid_witness :
  let row (k : Z) := {[ "_rid" := VInt k; "v" := VStr "x" ]} : record in
  let log := [row 1%Z; row 2%Z; row 3%Z] in
  let f := mkFiles (Some log) (Some 4%Z) in
  data_file f = Some log
  ∧ Heap.scan (Heap.tombstone 2 f)
    = Ok (List.filter
            (λ r, negb (bool_decide (as_int (get "_rid" r) = Some 2%Z)))
            (scan_active log)).
Proof.
  intros row log f. split; [reflexivity|].
  exact (tombstone_removes_rid f log 2 eq_refl).
Defined.

(** X12.  A tombstone is permanent: whatever is appended after the
    tombstone of [rid], a record carrying that rid again included,
    [scan_active] yields no row with that rid. *)
Theorem tombstone_is_permanent (log extra : list record) (rid : Z)
    (r : record) :
  r ∈ scan_active (log ++ tombstone_record rid :: extra) →
  as_int (get "_rid" r) ≠ Some rid.
Proof.
  intros [_ [_ Hlive]]%scan_active_in_log Hrid.
  unfold is_live in Hlive. rewrite Hrid in Hlive.
  apply bool_decide_eq_true in Hlive. apply Hlive.
  rewrite tombstoned_ints_app, tombstoned_ints_cons.
  rewrite spec_is_tombstone_record, tombstone_record_rid. set_solver.
Qed.

Lemma tombstone_is_permanent_witness :
  let row (k : Z) := {[ "_rid" := VInt k; "v" := VStr "x" ]} : record in
  let log := [row 1%Z; row 2%Z] ++ tombstone_record 1 :: [row 1%Z] in
  scan_active log = [row 2%Z]
  ∧ row 2%Z ∈ scan_active log
  ∧ as_int (get "_rid" (row 2%Z)) ≠ Some 1%Z.
Proof.
  intros row log.
  assert (scan_active log = [row 2%Z]) as Hscan by (by vm_compute).
  assert (row 2%Z ∈ scan_active log) as Hin by (rewrite Hscan; left).
  split; [exact Hscan|]. split; [exact Hin|].
  exact (tombstone_is_permanent [row 1%Z; row 2%Z] [row 1%Z] 1 (row 2%Z) Hin).
Defined.

(** X13.  On files whose [next_rid] exceeds every rid of the log,
    [insert] of a row without the fields [_rid], [_op] and [_deleted]
    returns a rid that no record of the log carries, appends the row as
    the last one [scan_active] yields, and keeps [next_rid] above every
    rid. *)
Theorem insert_then_scan (f : files) (log : list record) (n : Z)
    (row : record) :
  data_file f = Some log → meta_file f = Some n → next_rid_above f →
  row !! "_rid" = None → row !! "_op" = None → row !! "_deleted" = None →
  (Heap.insert row f).1 = Ok n
  ∧ (n ∉ log_rids log)
  ∧ Heap.scan (Heap.insert row f).2 = Ok (scan_active log ++ [stored n row])
  ∧ next_rid_above (Heap.insert row f).2.
Proof.
  intros Hlog Hmeta Hinv Hrid Hop Hdel.
  assert (n ∉ log_rids log) as Hfresh.
  { intros Hn. unfold next_rid_above in Hinv. rewrite Hlog, Hmeta in Hinv.
    specialize (Hinv n Hn). simpl in Hinv. lia. }
  split; [by rewrite (heap_insert_allocates _ _ _ Hmeta)|].
  split; [done|]. split; [|by eapply heap_insert_keeps_next_rid_above].
  rewrite (heap_insert_allocates _ _ _ Hmeta). unfold Heap.scan. simpl.
  rewrite Hlog. simpl. f_equal. rewrite scan_active_app.
  assert (tombstoned_ints [stored n row] = ∅) as Hnone.
  { rewrite tombstoned_ints_cons, stored_not_tombstone by done.
    apply tombstoned_ints_nil. }
  rewrite Hnone. f_equal.
  - apply filter_live_all; [set_solver|].
    intros r Hr. by eapply scan_active_int_rids.
  - simpl. rewrite stored_not_tombstone by done. simpl.
    unfold is_live. rewrite stored_rid_fresh by done. simpl.
    rewrite bool_decide_eq_true_2; [done|].
    intros Hin. apply Hfresh, tombstoned_ints_in_log. set_solver.
Qed.

Lemma insert_then_scan_witness :
  let old := {[ "_rid" := VInt 1; "v" := VStr "x" ]} : record in
  let row := {[ "v" := VStr "y" ]} : record in
  let f := mkFiles (Some [old]) (Some 2%Z) in
  (Heap.insert row f).1 = Ok 2%Z
  ∧ Heap.scan (Heap.insert row f).2 = Ok (scan_active [old] ++ [stored 2 row]).
Proof.
  intros old row f.
  destruct (insert_then_scan f [old] 2 row) as (H1 & _ & H2 & _);
    try reflexivity.
  - intros k Hk. vm_compute in Hk.
    apply list_elem_of_singleton in Hk. subst k. reflexivity.
  - split; [exact H1|exact H2].
Defined.

End HeapMore.

(* ================================================================== *)
(** * Validation of table definitions *)
(* ================================================================== *)

Section Validation.
Import Catalog Executor.

Lemma remove_dups_length_le {A} `{EqDecision A} (l : list A) :
  (length (remove_dups l) ≤ length l)%nat.
Proof.
  induction l as [|x l IH]; simpl; [done|]. case_decide; simpl; lia.
Qed.

Lemma remove_dups_length_NoDup {A} `{EqDecision A} (l : list A) :
  length (remove_dups l) = length l ↔ NoDup l.
Proof.
  induction l as [|x l IH]; simpl.
  - split; [constructor|done].
  - rewrite NoDup_cons. pose proof (remove_dups_length_le l).
    case_decide as Hx; simpl.
    + split; [lia|]. by intros [? _].
    + split.
      * intros [= Hl]. split; [done|]. by apply IH.
      * intros [_ Hnd]. f_equal. by apply IH.
Qed.

Lemma forR_ok {A} (f : A → result unit) (l : list A) :
  forR f l = Ok tt ↔ Forall (λ x, f x = Ok tt) l.
Proof.
  induction l as [|x l IH]; simpl.
  - split; [constructor|done].
  - rewrite Forall_cons. destruct (f x) as [[]|e]; simpl.
    + rewrite IH. naive_solver.
    + split; [done|]. by intros [? _].
Qed.

Lemma validate_create_table_schema (c : Catalog.t) (t : string)
    (cols : list ColumnDef) :
  validate_create_table c t cols = Ok tt
  ↔ tables c !! t = None ∧ schema_ok (mkTableMeta t cols ∅).
Proof.
  unfold validate_create_table, schema_ok, column_names. simpl.
  rewrite <- remove_dups_length_NoDup.
  case_bool_decide as Hex.
  { split; [done|]. intros [Hn _]. rewrite Hn in Hex. by destruct Hex. }
  apply eq_None_not_Some in Hex.
  case_bool_decide as Hdup; [split; [done|]; naive_solver|].
  try apply dec_stable in Hdup. rewrite length_map.
  case_bool_decide as Hpk; [split; [done|]; intros (_ & _ & ? & _); lia|].
  rewrite forR_ok. split; [|naive_solver].
  intros Hty. repeat split; [done..|lia|done].
Qed.

(** X14.  [validate_create_table] accepts a definition exactly when the
    table name is new, the column names are pairwise different, at most
    one column is a primary key and every column type is supported with
    the parameters it requires. *)
Theorem validate_create_table_accepts_iff (c : Catalog.t) (t : string)
    (cols : list ColumnDef) :
  validate_create_table c t cols = Ok tt
  ↔ tables c !! t = None
    ∧ NoDup (map cd_name cols)
    ∧ (length (List.filter cd_primary_key cols) ≤ 1)%nat
    ∧ ∀ col, col ∈ cols →
        ∃ ty, upper (ts_name (cd_typ col)) = ty ∧ ty ∈ SUPPORTED_TYPES
              ∧ if bool_decide (ty = "VARCHAR")
                then ∃ n, ts_params (cd_typ col) = [n] ∧ (0 < n)%Z
                else ts_params (cd_typ col) = [].
Proof.
  rewrite validate_create_table_schema. unfold schema_ok, column_names.
  simpl. rewrite Forall_forall.
  assert (∀ ty, validate_type ty = Ok tt
                ↔ ∃ u, upper (ts_name ty) = u ∧ u ∈ SUPPORTED_TYPES
                       ∧ if bool_decide (u = "VARCHAR")
                         then ∃ n, ts_params ty = [n] ∧ (0 < n)%Z
                         else ts_params ty = []) as Hty.
  { intros ty. unfold validate_type.
    case_bool_decide as Hs.
    { split; [done|]. by intros (u & <- & Hu & _). }
    try apply dec_stable in Hs.
    destruct (bool_decide (upper (ts_name ty) = "VARCHAR")) eqn:Hv.
    - destruct (ts_params ty) as [|p [|q ps]].
      + split; [done|]. intros (u & <- & _ & Hp). rewrite Hv in Hp.
        by destruct Hp as (n & ? & _).
      + destruct (p <=? 0)%Z eqn:Hp.
        * split; [done|]. intros (u & <- & _ & Hq). rewrite Hv in Hq.
          destruct Hq as (n & [= <-] & Hn). lia.
        * split; [|done]. intros _. eexists. split; [done|].
          split; [done|]. rewrite Hv. exists p. split; [done|]. lia.
      + split; [done|]. intros (u & <- & _ & Hq). rewrite Hv in Hq.
        by destruct Hq as (n & ? & _).
    - destruct (ts_params ty) as [|p ps].
      + split; [|done]. intros _. eexists. split; [done|].
        split; [done|]. by rewrite Hv.
      + split; [done|]. intros (u & <- & _ & Hq). by rewrite Hv in Hq. }
  split.
  - intros (Hn & Hnd & Hpk & Hall). repeat split; [done..|].
    intros col Hcol. apply Hty. by apply Hall.
  - intros (Hn & Hnd & Hpk & Hall). repeat split; [done..|].
    intros col Hcol. apply Hty. by apply Hall.
Qed.

(** On a column whose type [validate_type] accepts, the type check of a
    value returns or raises a type error; it never fails on the type
    itself. *)
Lemma validate_value_total (tm : TableMeta) (col : ColumnDef) (v : value) :
  validate_type (cd_typ col) = Ok tt →
  validate_value tm col v = Ok tt
  ∨ ∃ msg, validate_value tm col v
           = Err (ExecutionError ("Type error: " +:+ msg)).
Proof.
  unfold validate_type, validate_value.
  case_bool_decide as Hs; [done|]. try apply dec_stable in Hs.
  unfold SUPPORTED_TYPES in Hs. rewrite !elem_of_cons in Hs.
  destruct Hs as [Hu|[Hu|[Hu|[Hu|[Hu|Hu]]]]];
    [..|by apply elem_of_nil in Hu]; rewrite Hu; simpl.
  - intros _. destruct (negb _ || _); eauto.
  - destruct (ts_params (cd_typ col)) as [|p [|q ps]]; [done| |done].
    intros _. destruct v; eauto. destruct (_ <? _)%Z; eauto.
  - intros _. destruct v; eauto.
  - intros _. destruct v; eauto.
  - intros _. destruct (negb _); eauto.
Qed.

End Validation.

(* ================================================================== *)
(** * What each statement does, in full *)
(* ================================================================== *)

Section Effects.
Import Catalog Executor.

Lemma opened_written (st : db) (t : string) : opened st t = written st t [] 0.
Proof.
  unfold opened, written, Heap.open, next_rid, log_of.
  by rewrite app_nil_r, Z.add_0_r.
Qed.

Lemma written_catalog (st : db) (t : string) (extra : list record) (k : Z) :
  catalog (written st t extra k) = catalog st
  ∧ catalog_file (written st t extra k) = catalog_file st.
Proof. done. Qed.

Lemma written_log (st : db) (t u : string) (extra : list record) (k : Z) :
  log_of (written st t extra k) u
  = if decide (t = u) then log_of st t ++ extra else log_of st u.
Proof. unfold written. by rewrite log_of_set_heap. Qed.

Lemma written_next_rid (st : db) (t u : string) (extra : list record)
    (k : Z) :
  next_rid (written st t extra k) u
  = if decide (t = u) then (next_rid st t + k)%Z else next_rid st u.
Proof.
  unfold written, next_rid at 1. rewrite heap_of_set_heap.
  by case_decide.
Qed.

Lemma written_scan (st : db) (t u : string) (extra : list record) (k : Z) :
  scan_of (written st t extra k) u
  = if decide (t = u) then Heap.scan_active (log_of st t ++ extra)
    else scan_of st u.
Proof. unfold scan_of. rewrite written_log. by case_decide. Qed.

Lemma filterR_filter {A} (p : A → result bool) (l ms : list A) :
  filterR p l = Ok ms →
  ms = List.filter (λ x, match p x with Ok b => b | Err _ => false end) l.
Proof.
  revert ms. induction l as [|x l IH]; intros ms; simpl.
  - by intros [= <-].
  - destruct (p x) as [b|]; [|done]. simpl.
    destruct (filterR p l) as [ys|]; [|done]. simpl. intros [= <-].
    rewrite (IH ys eq_refl). by destruct b.
Qed.

Lemma build_candidates_valid (tm : TableMeta) (asg : list Assignment)
    (ms new_rows : list record) (ex : gset Z) :
  build_candidates tm asg ms = Ok (new_rows, ex) →
  Forall (λ c, _validate_insert_types tm c = Ok tt) new_rows.
Proof.
  revert new_rows ex. induction ms as [|old ms IH]; intros new_rows ex H.
  - simpl in H. simplify_eq. constructor.
  - simpl in H. destruct (rid_of old) as [k|]; [|done]. simpl in H.
    destruct (_validate_insert_types tm _) as [[]|] eqn:Hv; [|done].
    simpl in H.
    destruct (build_candidates tm asg ms) as [[nr ex']|]; [|done].
    simpl in H. simplify_eq. constructor; [done|]. by eapply IH.
Qed.

Lemma length_zip_map {A B} (f : A → B) (l : list A) :
  length (zip l (map f l)) = length l.
Proof. induction l as [|x l IH]; simpl; [done|]. by rewrite IH. Qed.

Lemma insert_effect (t : string) (cs : list string) (vs : list value)
    (st st' : db) (r : result outcome) :
  _insert t cs vs st = (r, st') →
  (∃ e, r = Err e ∧ (st' = st ∨ st' = opened st t))
  ∨ (∃ tm, tables (catalog st) !! t = Some tm
           ∧ check_known "INSERT" t tm cs = Ok tt
           ∧ _validate_insert_types tm (insert_row tm cs vs) = Ok tt
           ∧ _enforce_constraints_batch tm (scan_of st t)
               [insert_row tm cs vs] ∅ = Ok tt
           ∧ r = Ok (CommandOk 1 "1 row inserted")
           ∧ st' = written st t
                     [Heap.stored (next_rid st t) (insert_row tm cs vs)] 1).
Proof.
  unfold _insert, bindM, getsM, liftM, heap_open, modifyM, retM. intros H.
  destruct (require_table (catalog st) t) as [tm|e] eqn:Ht;
    [|simplify_eq; left; eauto].
  apply require_table_Some in Ht.
  destruct (check_known "INSERT" t tm cs) as [[]|e] eqn:Hck;
    [|simplify_eq; left; eauto].
  destruct (_validate_insert_types tm (insert_row tm cs vs)) as [[]|e] eqn:Hv;
    [|simplify_eq; left; eauto].
  rewrite heap_scan_active_open in H.
  destruct (_enforce_constraints_batch tm (scan_of st t)
              [insert_row tm cs vs] ∅) as [[]|e] eqn:Henf;
    [|simplify_eq; left; eauto].
  unfold heap_insert in H. rewrite heap_of_open in H.
  rewrite (heap_insert_allocates _ (Heap.mkFiles _ (Some _)) _ eq_refl) in H.
  rewrite set_heap_set_heap in H. simpl in H. simplify_eq.
  right. exists tm. done.
Qed.

Lemma delete_effect (t : string) (w : option WhereClause) (st st' : db)
    (r : result outcome) :
  _delete t w st = (r, st') →
  (∃ e, r = Err e ∧ (st' = st ∨ st' = opened st t))
  ∨ (∃ tm, tables (catalog st) !! t = Some tm
           ∧ let ms := List.filter (matches t w) (scan_of st t) in
             r = Ok (CommandOk (length ms)
                       (pretty (length ms) +:+ " rows deleted"))
             ∧ st' = written st t
                       (map (λ r, Heap.tombstone_record (rid_or_zero r)) ms)
                       0).
Proof.
  unfold _delete, bindM at 1 2 3 4 5, getsM, liftM, heap_open, modifyM, retM.
  intros H.
  destruct (require_table (catalog st) t) as [tm|e] eqn:Ht;
    [|simplify_eq; left; eauto].
  apply require_table_Some in Ht.
  rewrite heap_scan_active_open in H.
  destruct (filterR _ (scan_of st t)) as [ms|e] eqn:Hms;
    [|simplify_eq; left; eauto].
  pose proof (filterR_sublist _ _ _ Hms) as Hsub.
  apply filterR_filter in Hms. fold (matches t w) in Hms.
  unfold Heap.open in H. unfold bindM in H.
  rewrite apply_delete_loop in H.
  - simplify_eq. right. exists tm. split; [done|]. split; [done|].
    unfold written. by rewrite Z.add_0_r.
  - intros x Hx. eapply scan_active_int_rids.
    eapply elem_of_sublist; [done|]. apply Hsub.
Qed.

Lemma update_effect (t : string) (asg : list Assignment)
    (w : option WhereClause) (st st' : db) (r : result outcome) :
  _update t asg w st = (r, st') →
  (∃ e, r = Err e ∧ (st' = st ∨ st' = opened st t))
  ∨ (∃ tm, tables (catalog st) !! t = Some tm
           ∧ check_known "UPDATE" t tm (map as_column asg) = Ok tt
           ∧ let ms := List.filter (matches t w) (scan_of st t) in
             let new := map (candidate_of tm asg) ms in
             Forall (λ c, _validate_insert_types tm c = Ok tt) new
             ∧ (ms ≠ [] →
                _enforce_constraints_batch tm (scan_of st t) new
                  (list_to_set (map rid_or_zero ms)) = Ok tt)
             ∧ r = Ok (CommandOk (length ms)
                         (pretty (length ms) +:+ " rows updated"))
             ∧ st' = written st t (update_lines (next_rid st t) (zip ms new))
                       (Z.of_nat (length ms))).
Proof.
  unfold _update, bindM at 1 2 3 4 5 6, getsM, liftM, heap_open, modifyM.
  intros H.
  destruct (require_table (catalog st) t) as [tm|e] eqn:Ht;
    [|simplify_eq; left; eauto].
  apply require_table_Some in Ht.
  destruct (check_known "UPDATE" t tm (map as_column asg)) as [[]|e] eqn:Hck;
    [|simplify_eq; left; eauto].
  rewrite heap_scan_active_open in H.
  destruct (filterR _ (scan_of st t)) as [ms|e] eqn:Hms;
    [|simplify_eq; left; eauto].
  pose proof (filterR_sublist _ _ _ Hms) as Hsub.
  apply filterR_filter in Hms. fold (matches t w) in Hms.
  destruct ms as [|m0 ms'].
  { unfold retM in H. simplify_eq. right. exists tm.
    split; [done|]. split; [done|]. rewrite <- Hms. simpl.
    split; [constructor|]. split; [done|]. split; [done|].
    fold (opened st t). apply opened_written. }
  set (ms := m0 :: ms') in *.
  unfold bindM at 1 in H.
  destruct (build_candidates tm asg ms) as [[new_rows ex]|e] eqn:Hb;
    [|simplify_eq; left; eauto].
  pose proof (build_candidates_valid _ _ _ _ _ Hb) as Hvalid.
  apply build_candidates_ok in Hb as [-> ->].
  unfold bindM at 1 in H.
  destruct (_enforce_constraints_batch tm (scan_of st t) _ _)
    as [[]|e] eqn:Henf;
    [|simplify_eq; left; eauto].
  unfold Heap.open in H. unfold bindM, retM in H.
  rewrite apply_update_loop in H.
  - simplify_eq. right. exists tm. split; [done|]. split; [done|].
    rewrite <- Hms. split; [done|]. split; [done|]. split; [done|].
    unfold written, next_rid. do 5 f_equal. apply length_zip_map.
  - intros p [Hp _]%zip_map_elem. eapply scan_active_int_rids.
    eapply elem_of_sublist; [done|]. apply Hsub.
Qed.

Lemma select_effect (cols : option (list ColumnRef)) (t : string)
    (joins : list JoinClause) (w : option WhereClause) (st st' : db)
    (r : result outcome) :
  _select cols t joins w st = (r, st') →
  (st' = st ∨ st' = opened st t)
  ∧ ∀ o, r = Ok o →
      ∃ tm out_cols,
        joins = [] ∧ tables (catalog st) !! t = Some tm
        ∧ out_cols = match cols with
                     | None => map cd_name (tm_columns tm)
                     | Some crs => map cr_column crs
                     end
        ∧ (∀ c, c ∈ out_cols → c ∈ column_names tm)
        ∧ o = QueryResult out_cols
                (map (λ row, map (λ c, get c row) out_cols)
                   (List.filter (matches t w) (scan_of st t))).
Proof.
  unfold _select. destruct joins as [|j joins];
    [|intros [= <- <-]; split; [by left|done]].
  unfold bindM, getsM, liftM, heap_open, modifyM, retM. intros H.
  destruct (require_table (catalog st) t) as [tm|e] eqn:Ht;
    [|simplify_eq; split; [by left|done]].
  apply require_table_Some in Ht.
  destruct (match cols with Some _ => _ | None => _ end)
    as [out_cols|e] eqn:Hcols;
    [|simplify_eq; split; [by right|done]].
  rewrite heap_scan_active_open in H.
  destruct (filterR _ (scan_of st t)) as [ms|e] eqn:Hms;
    [|simplify_eq; split; [by right|done]].
  apply filterR_filter in Hms. fold (matches t w) in Hms.
  simplify_eq. split; [by right|]. intros o [= <-].
  exists tm, out_cols. split; [done|]. split; [done|].
  destruct cols as [crs|].
  - destruct (mapR _ crs) as [oc|] eqn:Hmap; [|done]. simpl in Hcols.
    destruct (check_known "SELECT" t tm oc) as [[]|] eqn:Hck; [|done].
    simpl in Hcols. simplify_eq. split; [|split; [|done]].
    + clear Hck. revert out_cols Hmap.
      induction crs as [|cr crs IH]; intros oc Hmap; simpl in *.
      { by simplify_eq. }
      unfold _resolve_col in Hmap at 1.
      destruct (cr_table cr) as [q|].
      * case_bool_decide; [done|]. simpl in Hmap.
        destruct (mapR _ crs) as [oc'|]; [|done]. simpl in Hmap.
        simplify_eq. by rewrite (IH oc' eq_refl).
      * simpl in Hmap. destruct (mapR _ crs) as [oc'|]; [|done].
        simpl in Hmap. simplify_eq. by rewrite (IH oc' eq_refl).
    + unfold check_known in Hck. apply forR_ok in Hck.
      rewrite Forall_forall in Hck. intros c Hc. specialize (Hck c Hc).
      simpl in Hck. case_bool_decide as Hin; [done|].
      by try apply dec_stable in Hin.
  - simplify_eq. split; [done|]. split; [|done]. by intros c Hc.
Qed.

End Effects.

(* ================================================================== *)
(** * What a statement leaves alone *)
(* ================================================================== *)

Section Frames.
Import Catalog Executor.

Lemma create_table_effect (t : string) (cols : list ColumnDef) (st st' : db)
    (r : result outcome) :
  _create_table t cols st = (r, st') →
  (∃ e, r = Err e ∧ st' = st)
  ∨ (validate_create_table (catalog st) t cols = Ok tt
     ∧ r = Ok (CommandOk 0 ("Table created: " +:+ t))
     ∧ let c' := mkCatalog (version (catalog st))
                   (<[t := mkTableMeta t cols ∅]> (tables (catalog st)))
                   (indexes (catalog st)) in
       st' = mkDb c' (Some (save c'))
               (<[t := Heap.open (heap_of st t)]> (heaps st))).
Proof.
  unfold _create_table, bindM, getsM, liftM, modifyM, catalog_save,
    heap_open, retM. intros H.
  destruct (validate_create_table (catalog st) t cols) as [[]|e] eqn:Hv;
    [|left; simplify_eq; eauto].
  right. split; [done|]. by injection H as <- <-.
Qed.

Lemma create_index_effect (i t col : string) (st st' : db)
    (r : result outcome) :
  _create_index i t col st = (r, st') →
  (∃ e, r = Err e ∧ st' = st)
  ∨ (∃ tm, indexes (catalog st) !! i = None
           ∧ tables (catalog st) !! t = Some tm
           ∧ col ∈ column_names tm
           ∧ r = Ok (CommandOk 0
                       ("Index created: " +:+ i +:+ " ON " +:+ t
                        +:+ "(" +:+ col +:+ ")"))
           ∧ let idx := mkIndexMeta i t col in
             let tm' := mkTableMeta (tm_name tm) (tm_columns tm)
                          (<[i := idx]> (tm_indexes tm)) in
             let c' := mkCatalog (version (catalog st))
                         (<[t := tm']> (tables (catalog st)))
                         (<[i := idx]> (indexes (catalog st))) in
             st' = mkDb c' (Some (save c')) (heaps st)).
Proof.
  unfold _create_index, bindM, getsM, liftM, modifyM, catalog_save, retM.
  intros H.
  destruct (validate_create_index (catalog st) i t col) as [[]|e] eqn:Hv;
    [|left; simplify_eq; eauto].
  unfold validate_create_index in Hv.
  case_bool_decide as Hi; [done|]. apply eq_None_not_Some in Hi.
  destruct (require_table (catalog st) t) as [tm|] eqn:Ht; [|done].
  apply require_table_Some in Ht. simpl in Hv.
  case_bool_decide as Hcol; [done|]. try apply dec_stable in Hcol.
  unfold set_catalog, require_table in H. simpl in H. rewrite Ht in H.
  simpl in H. right. exists tm. by injection H as <- <-.
Qed.

Lemma opened_same (st : db) (t : string) :
  catalog (opened st t) = catalog st
  ∧ catalog_file (opened st t) = catalog_file st
  ∧ ∀ u, log_of (opened st t) u = log_of st u
         ∧ next_rid (opened st t) u = next_rid st u.
Proof.
  rewrite opened_written. split; [done|]. split; [done|]. intros u.
  rewrite written_log, written_next_rid.
  case_decide; subst; by rewrite ?app_nil_r, ?Z.add_0_r.
Qed.

(** The readers' view of a state: the catalog, its file, and the log and
    the next rid of every table. *)
Lemma same_view_refl (st st' : db) (t : string) :
  st' = st ∨ st' = opened st t →
  catalog st' = catalog st
  ∧ catalog_file st' = catalog_file st
  ∧ ∀ u, log_of st' u = log_of st u ∧ next_rid st' u = next_rid st u.
Proof. intros [->| ->]; [done|]. apply opened_same. Qed.

(** X15.  A SELECT changes nothing a reader can observe, whether it
    returns or raises: the catalog, its file, and the log, the rows and
    the next rid of every table are what they were. *)
Theorem select_is_read_only (cols : option (list ColumnRef)) (t : string)
    (joins : list JoinClause) (w : option WhereClause) (st st' : db)
    (r : result outcome) :
  Executor.execute (Select cols t joins w) st = (r, st') →
  catalog st' = catalog st
  ∧ catalog_file st' = catalog_file st
  ∧ ∀ u, log_of st' u = log_of st u
         ∧ scan_of st' u = scan_of st u
         ∧ next_rid st' u = next_rid st u.
Proof.
  simpl. intros [Hst _]%select_effect.
  destruct (same_view_refl _ _ _ Hst) as (Hc & Hf & Hrows).
  split; [done|]. split; [done|]. intros u.
  destruct (Hrows u) as [Hlog Hn]. unfold scan_of. by rewrite Hlog.
Qed.

Lemma select_is_read_only_witness :
  let st := (run_sql ["CREATE TABLE t (a INTEGER);";
                      "INSERT INTO t (a) VALUES (1);"] initial).2 in
  let stmt := Select None "t" [] None in
  (Executor.execute stmt st).1 = Ok (QueryResult ["a"] [[VInt 1]])
  ∧ catalog (Executor.execute stmt st).2 = catalog st.
Proof.
  intros st stmt. split; [by vm_compute|].
  exact (proj1 (select_is_read_only None "t" [] None st
                  (Executor.execute stmt st).2
                  (Executor.execute stmt st).1
                  (surjective_pairing _))).
Defined.

(** What every statement does to the logs: nothing, or an append to one
    table. *)
Lemma execute_appends (stmt : Statement) (st st' : db) (r : result outcome) :
  Executor.execute stmt st = (r, st') →
  ∃ t extra k,
    (0 ≤ k)%Z
    ∧ (is_Ok r = false → extra = [] ∧ k = 0%Z ∧ catalog st' = catalog st
                        ∧ catalog_file st' = catalog_file st)
    ∧ ∀ u, log_of st' u
           = (if decide (t = u) then log_of st t ++ extra else log_of st u)
           ∧ next_rid st' u
             = (if decide (t = u) then (next_rid st t + k)%Z
                else next_rid st u).
Proof.
  assert (∀ st' t, st' = st ∨ st' = opened st t →
            ∃ t extra k,
              (0 ≤ k)%Z
              ∧ (is_Ok r = false →
                 extra = [] ∧ k = 0%Z ∧ catalog st' = catalog st
                 ∧ catalog_file st' = catalog_file st)
              ∧ ∀ u, log_of st' u
                     = (if decide (t = u) then log_of st t ++ extra
                        else log_of st u)
                     ∧ next_rid st' u
                       = (if decide (t = u) then (next_rid st t + k)%Z
                          else next_rid st u)) as Hsame.
  { intros st1 t Hst. destruct (same_view_refl _ _ _ Hst) as (Hc & Hf & Hrows).
    exists t, [], 0%Z. split; [lia|]. split; [done|]. intros u.
    destruct (Hrows u) as [-> ->].
    case_decide; subst; by rewrite ?app_nil_r, ?Z.add_0_r. }
  assert (∀ t extra k, (0 ≤ k)%Z → is_Ok r = true →
            st' = written st t extra k →
            ∃ t extra k,
              (0 ≤ k)%Z
              ∧ (is_Ok r = false →
                 extra = [] ∧ k = 0%Z ∧ catalog st' = catalog st
                 ∧ catalog_file st' = catalog_file st)
              ∧ ∀ u, log_of st' u
                     = (if decide (t = u) then log_of st t ++ extra
                        else log_of st u)
                     ∧ next_rid st' u
                       = (if decide (t = u) then (next_rid st t + k)%Z
                          else next_rid st u)) as Hwr.
  { intros t extra k Hk Hr ->. exists t, extra, k. split; [done|].
    split; [by rewrite Hr|]. intros u.
    by rewrite written_log, written_next_rid. }
  intros H.
  destruct stmt as [t cols|i t col|t cs vs|cols t js w|t asg w|t w];
    simpl in H.
  - apply create_table_effect in H as [(e & -> & ->)|(_ & -> & ->)].
    + apply (Hsame st t). by left.
    + exists t, [], 0%Z. split; [lia|]. split; [done|]. intros u.
      unfold log_of, next_rid, heap_of. simpl. rewrite lookup_insert.
      case_decide; subst; by rewrite ?app_nil_r, ?Z.add_0_r.
  - apply create_index_effect in H as [(e & -> & ->)|(tm & _ & _ & _ & -> & ->)].
    + apply (Hsame st t). by left.
    + exists t, [], 0%Z. split; [lia|]. split; [done|]. intros u.
      change (log_of (mkDb _ _ (heaps st)) u) with (log_of st u).
      change (next_rid (mkDb _ _ (heaps st)) u) with (next_rid st u).
      case_decide; subst; by rewrite ?app_nil_r, ?Z.add_0_r.
  - apply insert_effect in H
      as [(e & -> & Hst)|(tm & _ & _ & _ & _ & -> & ->)].
    + by apply (Hsame st' t).
    + eapply Hwr; [|done..]. lia.
  - apply select_effect in H as [Hst _]. by apply (Hsame st' t).
  - apply update_effect in H
      as [(e & -> & Hst)|(tm & _ & _ & _ & _ & -> & ->)].
    + by apply (Hsame st' t).
    + eapply Hwr; [|done..]. lia.
  - apply delete_effect in H as [(e & -> & Hst)|(tm & _ & -> & ->)].
    + by apply (Hsame st' t).
    + eapply Hwr; [|done..]. lia.
Qed.

(** X16.  The table files are append-only: whatever statement runs and
    however it ends, the log of every table afterwards starts with the
    log before, and no table's next rid decreases. *)
Theorem logs_are_append_only (stmt : Statement) (st st' : db)
    (r : result outcome) (u : string) :
  Executor.execute stmt st = (r, st') →
  log_of st u `prefix_of` log_of st' u
  ∧ (next_rid st u ≤ next_rid st' u)%Z.
Proof.
  intros (t & extra & k & Hk & _ & Hrows)%execute_appends.
  destruct (Hrows u) as [-> ->]. case_decide; subst.
  - split; [by apply prefix_app_r|lia].
  - done.
Qed.

Lemma logs_are_append_only_witness :
  let st := (run_sql ["CREATE TABLE t (a INTEGER);";
                      "INSERT INTO t (a) VALUES (1);"] initial).2 in
  let stmt := Delete "t" None in
  log_of (Executor.execute stmt st).2 "t"
  = log_of st "t" ++ [Heap.tombstone_record 1]
  ∧ log_of st "t" `prefix_of` log_of (Executor.execute stmt st).2 "t".
Proof.
  intros st stmt. split; [by vm_compute|].
  exact (proj1 (logs_are_append_only stmt st
                  (Executor.execute stmt st).2
                  (Executor.execute stmt st).1 "t"
                  (surjective_pairing _))).
Defined.



(** ** Tables stay *)

Lemma execute_keeps_tables (stmt : Statement) (st st' : db)
    (r : result outcome) (t : string) (tm : TableMeta) :
  Executor.execute stmt st = (r, st') →
  tables (catalog st) !! t = Some tm →
  ∃ tm', tables (catalog st') !! t = Some tm'
         ∧ tm_name tm' = tm_name tm
         ∧ tm_columns tm' = tm_columns tm.
Proof.
  intros H Ht.
  assert (catalog st' = catalog st →
          ∃ tm', tables (catalog st') !! t = Some tm'
                 ∧ tm_name tm' = tm_name tm
                 ∧ tm_columns tm' = tm_columns tm) as Hsame.
  { intros ->. by exists tm. }
  destruct stmt as [t0 cols|i t0 col|t0 cs vs|cols t0 js w|t0 asg w|t0 w];
    simpl in H.
  - apply create_table_effect in H as [(e & -> & ->)|(Hv & -> & ->)];
      [by apply Hsame|].
    apply validate_create_table_fresh in Hv. simpl.
    rewrite lookup_insert_ne by congruence. by exists tm.
  - apply create_index_effect in H
      as [(e & -> & ->)|(tm0 & Hi & Ht0 & _ & -> & ->)]; [by apply Hsame|].
    simpl. destruct (decide (t0 = t)) as [->|Hne].
    + rewrite lookup_insert_eq. simplify_eq. eexists. by split.
    + rewrite lookup_insert_ne by done. by exists tm.
  - apply insert_effect in H as [(e & -> & Hst)|(? & _ & _ & _ & _ & -> & ->)];
      [|by apply Hsame].
    apply Hsame. by destruct (same_view_refl _ _ _ Hst) as [? _].
  - apply select_effect in H as [Hst _].
    apply Hsame. by destruct (same_view_refl _ _ _ Hst) as [? _].
  - apply update_effect in H as [(e & -> & Hst)|(? & _ & _ & _ & _ & -> & ->)];
      [|by apply Hsame].
    apply Hsame. by destruct (same_view_refl _ _ _ Hst) as [? _].
  - apply delete_effect in H as [(e & -> & Hst)|(? & _ & -> & ->)];
      [|by apply Hsame].
    apply Hsame. by destruct (same_view_refl _ _ _ Hst) as [? _].
Qed.

(** X18.  No sequence of SQL statements drops or alters a table: a
    table of the catalog is still there after any run, under the same
    name and with the same columns. *)
Theorem tables_are_never_dropped (sqls : list string) (st : db)
    (t : string) (tm : TableMeta) :
  tables (catalog st) !! t = Some tm →
  ∃ tm', tables (catalog (run_sql sqls st).2) !! t = Some tm'
         ∧ tm_name tm' = tm_name tm
         ∧ tm_columns tm' = tm_columns tm.
Proof.
  revert st tm. induction sqls as [|s sqls IH]; intros st tm Ht.
  { by exists tm. }
  simpl. destruct (Database.execute s st) as [r st1] eqn:Hex.
  assert (∃ tm1, tables (catalog st1) !! t = Some tm1
                 ∧ tm_name tm1 = tm_name tm
                 ∧ tm_columns tm1 = tm_columns tm) as (tm1 & Ht1 & Hn & Hc).
  { unfold Database.execute, bindM, liftM in Hex.
    destruct (Parser.parse_sql s) as [stmt|e].
    - by eapply execute_keeps_tables.
    - injection Hex as _ <-. by exists tm. }
  destruct (IH st1 tm1 Ht1) as (tm' & Ht' & Hn' & Hc').
  destruct (run_sql sqls st1) as [rs st2]. simpl in *.
  exists tm'. split; [done|]. split; congruence.
Qed.

Lemma tables_are_never_dropped_witness :
  let st := (run_sql ["CREATE TABLE t (a INTEGER);"] initial).2 in
  let tm := mkTableMeta "t"
              [mkColumnDef "a" (mkTypeSpec "INTEGER" []) false false false]
              ∅ in
  tables (catalog st) !! "t" = Some tm
  ∧ ∃ tm', tables (catalog
                     (run_sql ["CREATE TABLE t (b TEXT);";
                               "CREATE INDEX i ON t (a);";
                               "DELETE FROM t;"] st).2) !! "t" = Some tm'
           ∧ tm_name tm' = tm_name tm
           ∧ tm_columns tm' = tm_columns tm.
Proof.
  intros st tm.
  assert (tables (catalog st) !! "t" = Some tm) as Ht by (by vm_compute).
  split; [exact Ht|].
  exact (tables_are_never_dropped _ st "t" tm Ht).
Defined.

(** X19.  In a reachable state an accepted CREATE TABLE enters the table
    in the catalog with the columns given and no index, the definition
    is one [validate_create_table] accepts, and the new table has no
    rows, an empty log and 1 as its next rid, whatever was created and
    deleted before. *)
Theorem created_table_is_empty (st st' : db) (t : string)
    (cols : list ColumnDef) (o : outcome) :
  reachable st →
  Executor.execute (CreateTable t cols) st = (Ok o, st') →
  o = CommandOk 0 ("Table created: " +:+ t)
  ∧ tables (catalog st') !! t = Some (mkTableMeta t cols ∅)
  ∧ schema_ok (mkTableMeta t cols ∅)
  ∧ log_of st' t = [] ∧ scan_of st' t = [] ∧ next_rid st' t = 1%Z.
Proof.
  intros Hst H. simpl in H.
  apply create_table_effect in H as [(e & ? & _)|(Hv & Ho & ->)]; [done|].
  apply validate_create_table_schema in Hv as [Hfresh Hschema].
  destruct (reachable_invariant st Hst) as (_ & _ & Hfiles & _).
  assert (heaps st !! t = None) as Hnone.
  { apply eq_None_not_Some. intros Hs. apply Hfiles in Hs.
    rewrite Hfresh in Hs. by destruct Hs. }
  split; [by injection Ho|]. simpl.
  split; [by rewrite lookup_insert_eq|]. split; [done|].
  unfold scan_of, log_of, next_rid, heap_of. simpl.
  rewrite lookup_insert_eq. simpl. unfold heap_of. by rewrite Hnone.
Qed.

Lemma created_table_is_empty_witness :
  let st := (run_sql ["CREATE TABLE u (a INTEGER);";
                      "INSERT INTO u (a) VALUES (1);"] initial).2 in
  let cols := [mkColumnDef "a" (mkTypeSpec "INTEGER" []) false false true] in
  reachable st
  ∧ scan_of (Executor.execute (CreateTable "t" cols) st).2 "t" = [].
Proof.
  intros st cols.
  assert (reachable st) as Hst
    by (apply reachable_run_sql, reachable_initial).
  split; [exact Hst|].
  destruct (created_table_is_empty st
              (Executor.execute (CreateTable "t" cols) st).2 "t" cols
              (CommandOk 0 "Table created: t") Hst)
    as (_ & _ & _ & _ & Hscan & _).
  - by vm_compute.
  - exact Hscan.
Defined.

(** X30.  An accepted CREATE INDEX had a new index name, an existing
    table and one of its columns; it enters the index in the catalog and
    in the index map of the table, keeps the columns of the table, and
    changes no log and no row: the index is recorded and nothing
    else. *)
Theorem create_index_records_the_index (st st' : db) (i t col : string)
    (o : outcome) :
  Executor.execute (CreateIndex i t col) st = (Ok o, st') →
  ∃ tm tm',
    indexes (catalog st) !! i = None
    ∧ tables (catalog st) !! t = Some tm
    ∧ col ∈ column_names tm
    ∧ indexes (catalog st') !! i = Some (mkIndexMeta i t col)
    ∧ tables (catalog st') !! t = Some tm'
    ∧ tm_indexes tm' !! i = Some (mkIndexMeta i t col)
    ∧ tm_columns tm' = tm_columns tm
    ∧ (∀ u, u ≠ t → tables (catalog st') !! u = tables (catalog st) !! u)
    ∧ ∀ u, log_of st' u = log_of st u ∧ scan_of st' u = scan_of st u.
Proof.
  simpl. intros H.
  apply create_index_effect in H
    as [(e & ? & _)|(tm & Hi & Ht & Hcol & _ & ->)]; [done|].
  exists tm. eexists. split; [done|]. split; [done|]. split; [done|].
  simpl. split; [by rewrite lookup_insert_eq|].
  split; [by rewrite lookup_insert_eq|]. simpl.
  split; [by rewrite lookup_insert_eq|]. split; [done|].
  split; [|done]. intros u Hu. by rewrite lookup_insert_ne.
Qed.

Lemma create_index_records_the_index_witness :
  let st := (run_sql ["CREATE TABLE t (a INTEGER);";
                      "INSERT INTO t (a) VALUES (1);"] initial).2 in
  let st' := (Executor.execute (CreateIndex "i" "t" "a") st).2 in
  indexes (catalog st') !! "i" = Some (mkIndexMeta "i" "t" "a")
  ∧ ∃ tm tm',
      indexes (catalog st) !! "i" = None
      ∧ tables (catalog st) !! "t" = Some tm
      ∧ "a" ∈ column_names tm
      ∧ indexes (catalog st') !! "i" = Some (mkIndexMeta "i" "t" "a")
      ∧ tables (catalog st') !! "t" = Some tm'
      ∧ tm_indexes tm' !! "i" = Some (mkIndexMeta "i" "t" "a")
      ∧ tm_columns tm' = tm_columns tm
      ∧ (∀ u, u ≠ "t" →
              tables (catalog st') !! u = tables (catalog st) !! u)
      ∧ ∀ u, log_of st' u = log_of st u ∧ scan_of st' u = scan_of st u.
Proof.
  intros st st'. split; [by vm_compute|].
  apply (create_index_records_the_index st st' "i" "t" "a"
           (CommandOk 0 "Index created: i ON t(a)")).
  by vm_compute.
Defined.

End Frames.

(* ================================================================== *)
(** * What the constraint checks guarantee *)
(* ================================================================== *)

Section ConstraintFacts.
Import Catalog Executor.

Lemma non_null_app (l1 l2 : list value) :
  non_null (l1 ++ l2) = non_null l1 ++ non_null l2.
Proof. unfold non_null. apply List.filter_app. Qed.

Lemma non_null_sublist (l1 l2 : list value) :
  l1 `sublist_of` l2 → non_null l1 `sublist_of` non_null l2.
Proof.
  induction 1 as [|x l1 l2 _ IH|x l1 l2 _ IH]; simpl; [done| |].
  - destruct (negb (is_None x)); [by constructor|done].
  - destruct (negb (is_None x)); [by constructor|done].
Qed.

Lemma non_null_elem (v : value) (l : list value) :
  v ∈ non_null l ↔ v ∈ l ∧ is_None v = false.
Proof.
  unfold non_null. rewrite filter_elem_of. by rewrite negb_true_iff.
Qed.

Lemma unique_loop_ok (tm : TableMeta) (ucol : string)
    (existing seen : list value) (new_rows : list record) :
  unique_loop tm ucol existing seen new_rows = Ok tt →
  (∀ v, v ∈ non_null (map (get ucol) new_rows) →
        py_in v existing = false ∧ py_in v seen = false)
  ∧ py_distinct (non_null (map (get ucol) new_rows)).
Proof.
  revert seen. induction new_rows as [|nr rows IH]; intros seen H.
  - split; [|done]. intros v Hv. by apply elem_of_nil in Hv.
  - simpl in H. simpl.
    destruct (is_None (get ucol nr)) eqn:Hnone; simpl; [by apply IH|].
    destruct (py_in (get ucol nr) existing) eqn:He; [done|].
    destruct (py_in (get ucol nr) seen) eqn:Hs; [done|].
    destruct (IH _ H) as [Hall Hd]. split.
    + intros v [->|Hv]%elem_of_cons; [done|].
      destruct (Hall v Hv) as [H1 H2]. split; [done|].
      simpl in H2. by apply orb_false_iff in H2 as [_ H2].
    + split; [|done]. apply py_in_false. intros w Hw.
      destruct (Hall w Hw) as [_ H2]. simpl in H2.
      apply orb_false_iff in H2 as [H2 _]. by rewrite py_eq_sym.
Qed.

(** What a successful enforcement guarantees: no NULL in a NOT NULL or
    PRIMARY KEY column of a candidate, and in every UNIQUE column values
    that differ from one another and from those of the live rows that
    are not excluded. *)
Lemma enforce_not_null_unique (tm : TableMeta)
    (existing new_rows : list record) (ex : gset Z) :
  (∀ r, r ∈ existing → ∃ n, as_int (get "_rid" r) = Some n) →
  _enforce_constraints_batch tm existing new_rows ex = Ok tt →
  (∀ nr c, nr ∈ new_rows → c ∈ tm_columns tm →
           cd_not_null c || cd_primary_key c = true →
           get (cd_name c) nr ≠ VNone)
  ∧ (∀ c, c ∈ tm_columns tm → cd_unique c = true →
          py_distinct (non_null (map (get (cd_name c)) new_rows))
          ∧ ∀ v, v ∈ non_null (map (get (cd_name c)) new_rows) →
                 py_in v (non_null
                            (map (get (cd_name c))
                               (List.filter (Heap.is_live ex) existing)))
                 = false).
Proof.
  intros Hint H. unfold _enforce_constraints_batch in H.
  rewrite keep_existing_int_rids in H by done. simpl in H.
  apply bindR_ok in H as ([] & Hnn & H).
  apply bindR_ok in H as ([] & _ & Huq). split.
  - intros nr c Hnr Hc Hflag Hnone.
    apply forR_ok in Hnn. rewrite Forall_forall in Hnn.
    specialize (Hnn nr Hnr). simpl in Hnn. apply forR_ok in Hnn.
    rewrite Forall_forall in Hnn. specialize (Hnn c Hc).
    unfold not_null_check in Hnn. rewrite Hflag, Hnone in Hnn. simpl in Hnn.
    by destruct (cd_primary_key c).
  - intros c Hc Hu. apply forR_ok in Huq. rewrite Forall_forall in Huq.
    specialize (Huq (cd_name c)). simpl in Huq.
    apply unique_loop_ok in Huq as [Hall Hd].
    + split; [done|]. intros v Hv. by apply Hall.
    + rewrite list_elem_of_In. apply in_map.
      apply filter_In. by rewrite <- list_elem_of_In.
Qed.

Lemma validate_types_row (tm : TableMeta) (r : record) (c : ColumnDef) :
  _validate_insert_types tm r = Ok tt →
  c ∈ tm_columns tm →
  get (cd_name c) r ≠ VNone →
  validate_value tm c (get (cd_name c) r) = Ok tt.
Proof.
  unfold _validate_insert_types. rewrite forR_ok, Forall_forall.
  intros H Hc Hv. specialize (H c Hc). simpl in H. unfold get in *.
  destruct (r !! cd_name c) as [v|]; [|done]. simpl in *.
  by destruct v.
Qed.

Lemma validate_value_same_name (tm tm' : TableMeta) (c : ColumnDef)
    (v : value) :
  tm_name tm' = tm_name tm →
  validate_value tm' c v = validate_value tm c v.
Proof. intros H. unfold validate_value. by rewrite H. Qed.

(** The candidate of an INSERT or UPDATE that passed the checks is a row
    as the table wants it. *)
Lemma checked_row_ok (tm : TableMeta) (existing new_rows : list record)
    (ex : gset Z) (nr : record) :
  (∀ r, r ∈ existing → ∃ n, as_int (get "_rid" r) = Some n) →
  _enforce_constraints_batch tm existing new_rows ex = Ok tt →
  nr ∈ new_rows →
  (∀ k, k ∈ column_names tm → is_Some (nr !! k)) →
  _validate_insert_types tm nr = Ok tt →
  row_ok tm nr.
Proof.
  intros Hint Henf Hnr Hcols Hval c Hc.
  destruct (enforce_not_null_unique _ _ _ _ Hint Henf) as [Hnn _].
  split; [|split].
  - apply Hcols. unfold column_names. rewrite list_elem_of_In.
    apply in_map. by rewrite <- list_elem_of_In.
  - intros Hflag. by apply (Hnn nr c).
  - by apply validate_types_row.
Qed.

Lemma row_ok_stored (tm : TableMeta) (n : Z) (r : record) :
  row_ok tm r → row_ok tm (Heap.stored n r).
Proof.
  intros H c Hc. destruct (H c Hc) as (Hsome & Hnn & Hval).
  rewrite (stored_get _ _ _ Hsome). split; [|done].
  destruct Hsome as [v Hv]. exists v. unfold Heap.stored.
  by apply lookup_union_Some_l.
Qed.

Lemma row_ok_same_columns (tm tm' : TableMeta) (r : record) :
  tm_name tm' = tm_name tm → tm_columns tm' = tm_columns tm →
  row_ok tm r → row_ok tm' r.
Proof.
  intros Hn Hc H c Hin. rewrite Hc in Hin.
  destruct (H c Hin) as (? & ? & Hval). split; [done|]. split; [done|].
  intros Hv. rewrite (validate_value_same_name tm tm') by done. auto.
Qed.

(** ** The fields of a candidate *)

Lemma last_assigned_none (k : string) (pairs : list (string * value)) :
  k ∉ map fst pairs → last_assigned k pairs = None.
Proof.
  intros Hk. unfold last_assigned.
  assert (List.filter (λ cv : string * value, bool_decide (cv.1 = k)) pairs
          = []) as ->; [|done].
  induction pairs as [|[c v] pairs IH]; [done|]. simpl in *.
  apply not_elem_of_cons in Hk as [Hne Hk].
  rewrite bool_decide_eq_false_2 by done. by apply IH.
Qed.

Lemma foldl_insert_none {A} (f : A → string) (g : A → value) (l : list A)
    (row : record) (k : string) :
  row !! k = None → k ∉ map f l →
  foldl (λ row c, <[f c := g c]> row) row l !! k = None.
Proof.
  revert row. induction l as [|x l IH]; intros row Hrow Hk; [done|].
  simpl in *. apply not_elem_of_cons in Hk as [Hne Hk].
  apply IH; [|done]. by rewrite lookup_insert_ne.
Qed.

Lemma check_known_columns (what t : string) (tm : TableMeta)
    (cs : list string) (k : string) :
  check_known what t tm cs = Ok tt → k ∈ cs → k ∈ column_names tm.
Proof.
  unfold check_known. rewrite forR_ok, Forall_forall. intros H Hk.
  specialize (H k Hk). simpl in H. case_bool_decide as Hin; [done|].
  by try apply dec_stable in Hin.
Qed.

Lemma zip_fst_subset {A B} (l : list A) (l' : list B) (x : A) :
  x ∈ map fst (zip l l') → x ∈ l.
Proof.
  revert l'. induction l as [|a l IH]; intros [|b l'] H; simpl in *;
    try by apply elem_of_nil in H.
  apply elem_of_cons in H as [->|H]; [left|right; by eapply IH].
Qed.

Lemma insert_row_other (tm : TableMeta) (cs : list string)
    (vs : list value) (k : string) :
  check_known "INSERT" (tm_name tm) tm cs = Ok tt ∨ (∀ c, c ∈ cs → c ∈ column_names tm) →
  k ∉ column_names tm → insert_row tm cs vs !! k = None.
Proof.
  intros Hck Hk. unfold insert_row. rewrite assign_all_lookup.
  rewrite last_assigned_none.
  - unfold null_row. by apply foldl_insert_none.
  - intros Hin%zip_fst_subset. apply Hk.
    destruct Hck as [Hck|Hck]; [by eapply check_known_columns|by apply Hck].
Qed.

Lemma candidate_other (tm : TableMeta) (asg : list Assignment)
    (old : record) (k : string) :
  (∀ c, c ∈ map as_column asg → c ∈ column_names tm) →
  k ∉ column_names tm → candidate_of tm asg old !! k = None.
Proof.
  intros Hck Hk. unfold candidate_of. rewrite assign_all_lookup.
  rewrite last_assigned_none.
  - unfold logical_columns. by apply foldl_insert_none.
  - rewrite map_map. simpl. intros Hin. apply Hk, Hck. done.
Qed.

End ConstraintFacts.

(* ================================================================== *)
(** * The invariant of the rows *)
(* ================================================================== *)

Section RowsInvariant.
Import Heap Catalog Executor.

Lemma rid_or_zero_int (r : record) (n : Z) :
  as_int (get "_rid" r) = Some n → rid_or_zero r = n.
Proof. unfold rid_or_zero. by intros ->. Qed.

Lemma stored_from_elem (n : Z) (rows : list record) (r : record) :
  r ∈ stored_from n rows →
  ∃ i nr, nr ∈ rows ∧ r = stored (n + i) nr ∧ (0 ≤ i)%Z.
Proof.
  revert n. induction rows as [|x rows IH]; intros n H; simpl in H.
  - by apply elem_of_nil in H.
  - apply elem_of_cons in H as [->|H].
    + exists 0%Z, x. split; [left|]. by rewrite Z.add_0_r.
    + destruct (IH _ H) as (i & nr & Hnr & -> & Hi).
      exists (1 + i)%Z, nr. split; [by right|]. split; [|lia].
      f_equal. lia.
Qed.

Lemma stored_from_get (n : Z) (rows : list record) (k : string) :
  Forall (λ r, is_Some (r !! k)) rows →
  map (get k) (stored_from n rows) = map (get k) rows.
Proof.
  revert n. induction rows as [|x rows IH]; intros n H; [done|].
  apply Forall_cons in H as [Hx H]. simpl.
  by rewrite stored_get, IH.
Qed.

Lemma stored_from_rids (n : Z) (rows : list record) :
  Forall (λ r, r !! "_rid" = None) rows →
  (∀ x, x ∈ map rid_or_zero (stored_from n rows) → (n ≤ x)%Z)
  ∧ NoDup (map rid_or_zero (stored_from n rows)).
Proof.
  revert n. induction rows as [|r rows IH]; intros n H.
  - split; [|constructor]. intros x Hx. by apply elem_of_nil in Hx.
  - apply Forall_cons in H as [Hr H]. simpl.
    destruct (IH (n + 1)%Z H) as [Hge Hnd].
    assert (rid_or_zero (stored n r) = n) as Hn.
    { unfold rid_or_zero. by rewrite stored_rid_fresh. }
    rewrite Hn. split.
    + intros x [->|Hx]%elem_of_cons; [lia|]. specialize (Hge x Hx). lia.
    + constructor; [|done]. intros Hin. specialize (Hge n Hin). lia.
Qed.

Lemma update_lines_stored (n : Z) (pairs : list (record * record)) :
  List.filter (λ r, negb (spec_is_tombstone r)) (update_lines n pairs)
  `sublist_of` stored_from n (map snd pairs).
Proof.
  revert n. induction pairs as [|[old cand] pairs IH]; intros n; [done|].
  cbn [update_lines map snd List.filter stored_from].
  rewrite spec_is_tombstone_record. cbn [negb].
  destruct (negb _); by constructor.
Qed.

Lemma log_rids_cons (r : record) (l : list record) :
  log_rids (r :: l)
  = match as_int (get "_rid" r) with
    | Some n => n :: log_rids l
    | None => log_rids l
    end.
Proof. reflexivity. Qed.

Lemma update_lines_rids (n : Z) (pairs : list (record * record)) (m : Z) :
  Forall (λ p, p.2 !! "_rid" = None) pairs →
  m ∈ log_rids (update_lines n pairs) →
  (n ≤ m < n + Z.of_nat (length pairs))%Z
  ∨ m ∈ map (λ p, rid_or_zero p.1) pairs.
Proof.
  revert n. induction pairs as [|[old cand] pairs IH]; intros n H Hm.
  - by apply elem_of_nil in Hm.
  - apply Forall_cons in H as [Hc H]. simpl in Hc.
    cbn [update_lines] in Hm. rewrite !log_rids_cons in Hm.
    rewrite stored_rid_fresh, tombstone_record_rid in Hm by done.
    cbn [as_int] in Hm.
    apply elem_of_cons in Hm as [->|Hm]; [left; simpl; lia|].
    apply elem_of_cons in Hm as [->|Hm]; [right; left|].
    destruct (IH (n + 1)%Z H Hm) as [Hr|Hr].
    + left. simpl length. lia.
    + right. by right.
Qed.

Lemma table_invariant_view (st st' : db) (t : string) (tm tm' : TableMeta) :
  tm_name tm' = tm_name tm → tm_columns tm' = tm_columns tm →
  log_of st' t = log_of st t → next_rid st' t = next_rid st t →
  table_invariant st t tm → table_invariant st' t tm'.
Proof.
  intros Hn Hc Hlog Hnext (Hschema & Hrows & Huniq & Hrids).
  assert (scan_of st' t = scan_of st t) as Hscan
    by (unfold scan_of; by rewrite Hlog).
  unfold table_invariant, schema_ok, unique_ok, rids_ok, column_names in *.
  rewrite Hc, Hscan, Hlog, Hnext. split; [done|]. split; [|done].
  eapply Forall_impl; [done|]. intros r. by apply row_ok_same_columns.
Qed.

Lemma scan_rids_below (st : db) (t : string) (r : record) :
  (∀ n, n ∈ log_rids (log_of st t) → (n < next_rid st t)%Z) →
  r ∈ scan_of st t → (rid_or_zero r < next_rid st t)%Z.
Proof.
  intros Hlt Hr. destruct (scan_active_int_rids _ _ Hr) as [n Hn].
  rewrite (rid_or_zero_int _ _ Hn). apply Hlt.
  by eapply scan_active_rid_in_log.
Qed.

(** Appending the lines of a statement whose candidates passed the
    checks keeps the invariant of the table. *)
Lemma written_table_invariant (st : db) (t : string) (tm : TableMeta)
    (extra new_rows : list record) (ex : gset Z) :
  table_invariant st t tm →
  List.filter (λ r, negb (spec_is_tombstone r)) extra
    `sublist_of` stored_from (next_rid st t) new_rows →
  Forall (λ r, (∀ k, k ∈ column_names tm → is_Some (r !! k))
               ∧ _validate_insert_types tm r = Ok tt) new_rows →
  (new_rows = []
   ∨ _enforce_constraints_batch tm (scan_of st t) new_rows ex = Ok tt) →
  ex ⊆ tombstoned_ints extra →
  ("_rid" ∉ column_names tm →
   Forall (λ r, r !! "_rid" = None) new_rows
   ∧ ∀ m, m ∈ log_rids extra →
          (m < next_rid st t + Z.of_nat (length new_rows))%Z) →
  table_invariant (written st t extra (Z.of_nat (length new_rows))) t tm.
Proof.
  intros (Hschema & Hrows & Huniq & Hrids) Hextra Hnew Henf Hex Hfresh.
  set (n := next_rid st t) in *.
  set (old' := List.filter (is_live (tombstoned_ints extra)) (scan_of st t)).
  set (new' := List.filter
                 (λ r, negb (spec_is_tombstone r)
                       && is_live (tombstoned_ints (log_of st t)
                                   ∪ tombstoned_ints extra) r) extra).
  assert (scan_of (written st t extra (Z.of_nat (length new_rows))) t
          = old' ++ new') as Hscan.
  { rewrite written_scan, decide_True by done. apply scan_active_app. }
  assert (old' `sublist_of` scan_of st t) as Hold by apply filter_sublist.
  assert (new' `sublist_of` stored_from n new_rows) as Hnew'.
  { etrans; [|exact Hextra]. apply filter_sublist_impl.
    intros r Hr. by apply andb_true_iff in Hr as [Hr _]. }
  assert (∀ r, r ∈ scan_of st t → ∃ k, as_int (get "_rid" r) = Some k)
    as Hint by (intros r Hr; by eapply scan_active_int_rids).
  assert (new_rows ≠ [] →
          _enforce_constraints_batch tm (scan_of st t) new_rows ex = Ok tt)
    as Henf' by (intros Hne; by destruct Henf).
  assert (∀ c, c ∈ tm_columns tm →
               Forall (λ r, is_Some (r !! cd_name c)) new_rows) as Hcols.
  { intros c Hc. eapply Forall_impl; [exact Hnew|]. intros r [Hr _].
    apply Hr. unfold column_names. rewrite list_elem_of_In.
    apply in_map. by rewrite <- list_elem_of_In. }
  split; [done|]. rewrite Hscan. split; [|split].
  - apply Forall_app. split.
    + rewrite Forall_forall in Hrows. apply Forall_forall.
      intros r Hr. apply Hrows. by eapply elem_of_sublist.
    + apply Forall_forall. intros r Hr.
      apply (elem_of_sublist _ _ _ Hr) in Hnew'.
      apply stored_from_elem in Hnew' as (i & nr & Hnr & -> & _).
      apply row_ok_stored.
      rewrite Forall_forall in Hnew. destruct (Hnew nr Hnr) as [Hk Hv].
      eapply checked_row_ok; [exact Hint| |exact Hnr|exact Hk|exact Hv].
      apply Henf'. intros ->. by apply elem_of_nil in Hnr.
  - intros c Hc Hu. rewrite map_app, non_null_app.
    assert (map (get (cd_name c)) new'
            `sublist_of` map (get (cd_name c)) new_rows) as Hvals.
    { rewrite <- (stored_from_get n new_rows (cd_name c) (Hcols c Hc)).
      by apply map_sublist. }
    destruct new_rows as [|nr0 new_rows'] eqn:Hnr.
    { apply sublist_nil_r in Hvals. rewrite Hvals. simpl.
      rewrite app_nil_r. eapply py_distinct_sublist; [|by apply Huniq].
      by apply non_null_sublist, map_sublist. }
    rewrite <- Hnr in *.
    destruct (enforce_not_null_unique _ _ _ _ Hint
                (Henf' ltac:(by rewrite Hnr))) as [_ Hq].
    destruct (Hq c Hc Hu) as [Hd Hnot].
    apply py_distinct_app.
    + eapply py_distinct_sublist; [|by apply Huniq].
      by apply non_null_sublist, map_sublist.
    + eapply py_distinct_sublist; [|exact Hd]. by apply non_null_sublist.
    + intros v Hv.
      eapply py_in_sublist; [|apply Hnot].
      * apply non_null_sublist, map_sublist, filter_sublist_impl.
        intros r. by apply is_live_mono.
      * eapply elem_of_sublist; [exact Hv|]. by apply non_null_sublist.
  - intros Hrid. destruct (Hrids Hrid) as [Hlt Hnd].
    destruct (Hfresh Hrid) as [Hnone Hxlt]. unfold rids_ok.
    rewrite Hscan. split.
    + intros m. rewrite written_log, written_next_rid, !decide_True by done.
      rewrite log_rids_app, elem_of_app. intros [Hm|Hm].
      * specialize (Hlt m Hm). fold n in Hlt. lia.
      * by apply Hxlt.
    + rewrite map_app. apply NoDup_app.
      destruct (stored_from_rids n new_rows Hnone) as [Hge Hnd'].
      split; [|split].
      * eapply sublist_NoDup; [exact Hnd|]. by apply map_sublist.
      * intros x Hx Hx'.
        assert (x < n)%Z.
        { rewrite list_elem_of_In in Hx. apply in_map_iff in Hx
            as (r & <- & Hr). rewrite <- list_elem_of_In in Hr.
          apply scan_rids_below; [done|]. by eapply elem_of_sublist. }
        assert (n ≤ x)%Z; [|lia].
        apply Hge. eapply elem_of_sublist; [exact Hx'|].
        by apply map_sublist.
      * eapply sublist_NoDup; [exact Hnd'|]. by apply map_sublist.
Qed.

Lemma rows_invariant_same_view (st st' : db) :
  catalog st' = catalog st →
  (∀ u, log_of st' u = log_of st u ∧ next_rid st' u = next_rid st u) →
  rows_invariant st → rows_invariant st'.
Proof.
  intros Hc Hrows Hinv t tm Ht. rewrite Hc in Ht.
  destruct (Hrows t) as [Hlog Hn].
  eapply table_invariant_view; [done..|]. by apply Hinv.
Qed.

Lemma tombstones_filter (ms : list record) :
  List.filter (λ r, negb (spec_is_tombstone r))
    (map (λ r, tombstone_record (rid_or_zero r)) ms) = [].
Proof. induction ms as [|m ms IH]; [done|]. simpl. exact IH. Qed.

Lemma tombstones_rids (ms : list record) :
  log_rids (map (λ r, tombstone_record (rid_or_zero r)) ms)
  = map rid_or_zero ms.
Proof.
  induction ms as [|m ms IH]; [done|]. simpl map.
  rewrite log_rids_cons, tombstone_record_rid. by rewrite IH.
Qed.

Lemma written_other_invariant (st : db) (t u : string)
    (extra : list record) (k : Z) (tm : TableMeta) :
  u ≠ t → table_invariant st u tm →
  table_invariant (written st t extra k) u tm.
Proof.
  intros Hne. apply table_invariant_view; [done..| |].
  - rewrite written_log. by rewrite decide_False by done.
  - rewrite written_next_rid. by rewrite decide_False by done.
Qed.

Lemma execute_rows_invariant (stmt : Statement) (st st' : db)
    (r : result outcome) :
  reachable st → rows_invariant st →
  Executor.execute stmt st = (r, st') → rows_invariant st'.
Proof.
  intros Hreach Hinv H.
  assert (∀ t0, st' = st ∨ st' = opened st t0 → rows_invariant st') as Hsame.
  { intros t0 Hst. destruct (same_view_refl _ _ _ Hst) as (Hc & _ & Hrows).
    by eapply rows_invariant_same_view. }
  destruct stmt as [t cols|i t col|t cs vs|cols t js w|t asg w|t w];
    simpl in H.
  - apply create_table_effect in H as [(e & -> & ->)|(Hv & -> & ->)];
      [done|].
    apply validate_create_table_schema in Hv as [Hfresh Hschema].
    destruct (reachable_invariant st Hreach) as (_ & _ & Hfiles & _).
    assert (heaps st !! t = None) as Hnone.
    { apply eq_None_not_Some. intros Hs. apply Hfiles in Hs.
      rewrite Hfresh in Hs. by destruct Hs. }
    intros u tm. simpl. rewrite lookup_insert. case_decide as Hu.
    + subst u. intros [= <-].
      assert (log_of
                (mkDb
                   (mkCatalog (version (catalog st))
                      (<[t := mkTableMeta t cols ∅]> (tables (catalog st)))
                      (indexes (catalog st)))
                   (Some
                      (save
                         (mkCatalog (version (catalog st))
                            (<[t := mkTableMeta t cols ∅]>
                               (tables (catalog st)))
                            (indexes (catalog st)))))
                   (<[t := Heap.open (heap_of st t)]> (heaps st))) t = [])
        as Hlog.
      { unfold log_of, heap_of. simpl. rewrite lookup_insert_eq. simpl.
        unfold heap_of. by rewrite Hnone. }
      split; [done|]. unfold rids_ok, scan_of. rewrite Hlog.
      change (Heap.scan_active []) with (@nil record).
      split; [constructor|]. split.
      * intros c _ _. done.
      * intros _. split; [|constructor].
        intros m Hm. by apply elem_of_nil in Hm.
    + intros Hu'. eapply table_invariant_view; [done..| | |by apply Hinv].
      * unfold log_of, heap_of. simpl. by rewrite lookup_insert_ne.
      * unfold next_rid, heap_of. simpl. by rewrite lookup_insert_ne.
  - apply create_index_effect in H
      as [(e & -> & ->)|(tm0 & Hi & Ht0 & _ & -> & ->)]; [done|].
    intros u tm. simpl. rewrite lookup_insert. case_decide as Hu.
    + subst u. intros [= <-].
      by eapply (table_invariant_view st _ t tm0); [..|by apply Hinv].
    + intros Hu'.
      by eapply (table_invariant_view st _ u tm); [..|by apply Hinv].
  - apply insert_effect in H
      as [(e & -> & Hst)|(tm & Ht & Hck & Hval & Henf & -> & ->)];
      [by eapply Hsame|].
    intros u tmu Hu. change (catalog (written _ _ _ _)) with (catalog st) in Hu.
    destruct (decide (u = t)) as [->|Hne];
      [|by apply written_other_invariant, Hinv].
    simplify_eq.
    apply (written_table_invariant st t tm _ [insert_row tm cs vs] ∅).
    + by apply Hinv.
    + simpl. destruct (negb _); [done|]. by constructor.
    + constructor; [|constructor]. split; [|done].
      intros k. apply insert_row_has_columns.
    + by right.
    + set_solver.
    + intros Hrid.
      assert (insert_row tm cs vs !! "_rid" = None) as Hnone.
      { apply insert_row_other; [|done]. right. intros c Hc.
        by eapply check_known_columns. }
      split; [by repeat constructor|]. intros m.
      rewrite log_rids_cons, stored_rid_fresh by done. cbn [as_int].
      intros Hm%list_elem_of_singleton. simpl. lia.
  - apply select_effect in H as [Hst _]. by eapply Hsame.
  - apply update_effect in H
      as [(e & -> & Hst)|(tm & Ht & Hck & Hval & Henf & -> & ->)];
      [by eapply Hsame|].
    intros u tmu Hu. change (catalog (written _ _ _ _)) with (catalog st) in Hu.
    destruct (decide (u = t)) as [->|Hne];
      [|by apply written_other_invariant, Hinv].
    simplify_eq.
    set (ms := List.filter (matches t w) (scan_of st t)) in *.
    set (new := map (candidate_of tm asg) ms) in *.
    assert (Z.of_nat (length ms) = Z.of_nat (length new)) as ->
      by (unfold new; by rewrite length_map).
    assert (ms `sublist_of` scan_of st t) as Hsub by apply filter_sublist.
    assert (Forall (λ r, r !! "_rid" = None) new
            ∨ "_rid" ∈ column_names tm) as Hfresh.
    { destruct (decide ("_rid" ∈ column_names tm)) as [|Hrid]; [by right|].
      left. unfold new. apply Forall_forall. intros c Hc.
      rewrite list_elem_of_In in Hc. apply in_map_iff in Hc as (old & <- & _).
      apply candidate_other; [|done]. intros k Hk.
      by eapply check_known_columns. }
    apply (written_table_invariant st t tm _ new
             (list_to_set (map rid_or_zero ms))).
    + by apply Hinv.
    + etrans; [apply update_lines_stored|].
      unfold new. by rewrite zip_map_snd.
    + apply Forall_forall. intros c Hc. split.
      * intros k Hk. unfold new in Hc. rewrite list_elem_of_In in Hc.
        apply in_map_iff in Hc as (old & <- & _).
        by apply candidate_has_columns.
      * rewrite Forall_forall in Hval. by apply Hval.
    + destruct ms as [|m0 ms'] eqn:Hms; [by left|]. right. by apply Henf.
    + etrans; [|apply update_lines_tombstoned].
      unfold new. rewrite <- (zip_map_fst (candidate_of tm asg) ms) at 1.
      by rewrite map_map.
    + intros Hrid. destruct Hfresh as [Hnone|?]; [|done].
      split; [done|]. intros m Hm.
      apply update_lines_rids in Hm as [Hm|Hm].
      * unfold new in *. rewrite length_zip_map in Hm.
        rewrite length_map. lia.
      * unfold new in Hm. rewrite <- (map_map fst rid_or_zero) in Hm.
        rewrite zip_map_fst in Hm.
        rewrite list_elem_of_In in Hm. apply in_map_iff in Hm
          as (old & <- & Hold). rewrite <- list_elem_of_In in Hold.
        destruct (Hinv t tm Ht) as (_ & _ & _ & Hrids).
        destruct (Hrids Hrid) as [Hlt _].
        assert (rid_or_zero old < next_rid st t)%Z; [|lia].
        apply scan_rids_below; [done|]. by eapply elem_of_sublist.
      * apply Forall_forall. intros p Hp.
        apply zip_map_elem in Hp as [Hin Heq]. rewrite Heq.
        rewrite Forall_forall in Hnone. apply Hnone.
        unfold new. rewrite list_elem_of_In. apply in_map.
        by rewrite <- list_elem_of_In.
  - apply delete_effect in H as [(e & -> & Hst)|(tm & Ht & -> & ->)];
      [by eapply Hsame|].
    intros u tmu Hu. change (catalog (written _ _ _ _)) with (catalog st) in Hu.
    destruct (decide (u = t)) as [->|Hne];
      [|by apply written_other_invariant, Hinv].
    simplify_eq.
    set (ms := List.filter (matches t w) (scan_of st t)) in *.
    assert (ms `sublist_of` scan_of st t) as Hsub by apply filter_sublist.
    apply (written_table_invariant st t tm _ [] ∅).
    + by apply Hinv.
    + by rewrite tombstones_filter.
    + constructor.
    + by left.
    + set_solver.
    + intros Hrid. split; [constructor|]. intros m.
      rewrite tombstones_rids. intros Hm.
      rewrite list_elem_of_In in Hm. apply in_map_iff in Hm
        as (old & <- & Hold). rewrite <- list_elem_of_In in Hold.
      destruct (Hinv t tm Ht) as (_ & _ & _ & Hrids).
      destruct (Hrids Hrid) as [Hlt _].
      assert (rid_or_zero old < next_rid st t)%Z; [|simpl; lia].
      apply scan_rids_below; [done|]. by eapply elem_of_sublist.
Qed.

Lemma reachable_rows_invariant (st : db) : reachable st → rows_invariant st.
Proof.
  induction 1 as [|st stmt r st' Hst IH Hex|st st' Hst IH Hopen].
  - intros t tm Ht. cbn in Ht. by rewrite lookup_empty in Ht.
  - by eapply execute_rows_invariant.
  - destruct (reachable_invariant st Hst) as (_ & Hper & _).
    by rewrite (reopen_same _ _ Hper Hopen).
Qed.

End RowsInvariant.

(* ================================================================== *)
(** * The tables of a reachable state *)
(* ================================================================== *)

Section ReachableTables.
Import Heap Catalog Executor.

(** X20.  Every table of a reachable state has a definition that
    [validate_create_table] accepts (pairwise different column names, at
    most one primary key, supported types with their parameters) and is
    filed under its own name; hence the type check of a value against
    any of its columns returns or raises a type error, and never fails
    on the type itself (no unsupported type, no VARCHAR without its
    length). *)
Theorem reachable_schema_valid (st : db) (t : string) (tm : TableMeta) :
  reachable st →
  tables (catalog st) !! t = Some tm →
  tm_name tm = t
  ∧ schema_ok tm
  ∧ ∀ col v, col ∈ tm_columns tm →
      validate_value tm col v = Ok tt
      ∨ ∃ msg, validate_value tm col v
               = Err (ExecutionError ("Type error: " +:+ msg)).
Proof.
  intros Hst Ht.
  destruct (reachable_invariant st Hst) as ([Hwf _] & _).
  destruct (reachable_rows_invariant st Hst t tm Ht) as (Hschema & _).
  split; [by apply (Hwf t tm)|]. split; [done|].
  intros col v Hcol. apply validate_value_total.
  destruct Hschema as (_ & _ & Hty). rewrite Forall_forall in Hty.
  by apply Hty.
Qed.

Lemma reachable_schema_valid_witness :
  let st := (run_sql ["CREATE TABLE t (a INTEGER PRIMARY KEY, b VARCHAR(3));"]
               initial).2 in
  let tm := mkTableMeta "t"
              [mkColumnDef "a" (mkTypeSpec "INTEGER" []) false false true;
               mkColumnDef "b" (mkTypeSpec "VARCHAR" [3%Z]) false false false]
              ∅ in
  reachable st ∧ tables (catalog st) !! "t" = Some tm ∧ schema_ok tm.
Proof.
  intros st tm.
  assert (reachable st) as Hst
    by (apply reachable_run_sql, reachable_initial).
  assert (tables (catalog st) !! "t" = Some tm) as Ht by (by vm_compute).
  split; [exact Hst|]. split; [exact Ht|].
  exact (proj1 (proj2 (reachable_schema_valid st "t" tm Hst Ht))).
Defined.

(** X21.  In a reachable state every live row of a table has a field for
    every column, holds no NULL in a NOT NULL or PRIMARY KEY column, and
    holds in every column NULL or a value that the type check of the
    column accepts. *)
Theorem live_rows_fit_the_schema (st : db) (t : string) (tm : TableMeta)
    (r : record) (col : ColumnDef) :
  reachable st →
  tables (catalog st) !! t = Some tm →
  r ∈ scan_of st t →
  col ∈ tm_columns tm →
  is_Some (r !! cd_name col)
  ∧ (cd_not_null col || cd_primary_key col = true →
     get (cd_name col) r ≠ VNone)
  ∧ (get (cd_name col) r ≠ VNone →
     validate_value tm col (get (cd_name col) r) = Ok tt).
Proof.
  intros Hst Ht Hr Hcol.
  destruct (reachable_rows_invariant st Hst t tm Ht) as (_ & Hrows & _).
  rewrite Forall_forall in Hrows. by apply (Hrows r Hr col).
Qed.

Lemma live_rows_fit_the_schema_witness :
  let st := (run_sql ["CREATE TABLE t (a INTEGER PRIMARY KEY, b VARCHAR(3));";
                      "INSERT INTO t (a, b) VALUES (1, 'xy');";
                      "INSERT INTO t (a, b) VALUES (2, 'toolong');";
                      "UPDATE t SET b = 'z' WHERE a = 1;"] initial).2 in
  let tm := mkTableMeta "t"
              [mkColumnDef "a" (mkTypeSpec "INTEGER" []) false false true;
               mkColumnDef "b" (mkTypeSpec "VARCHAR" [3%Z]) false false false]
              ∅ in
  let r := {[ "_rid" := VInt 2; "a" := VInt 1; "b" := VStr "z" ]} : record in
  let col := mkColumnDef "b" (mkTypeSpec "VARCHAR" [3%Z]) false false false in
  scan_of st "t" = [r]
  ∧ validate_value tm col (get "b" r) = Ok tt.
Proof.
  intros st tm r col.
  assert (scan_of st "t" = [r]) as Hscan by (by vm_compute).
  split; [exact Hscan|].
  refine (proj2 (proj2 (live_rows_fit_the_schema st "t" tm r col _ _ _ _)) _).
  - apply reachable_run_sql, reachable_initial.
  - by vm_compute.
  - rewrite Hscan. left.
  - right. left.
  - by vm_compute.
Defined.

(** X22.  In a reachable state the values of a UNIQUE column other than
    NULL are pairwise different among the live rows, under Python's [==]
    and hence as a list without duplicates; NULL may occur any number of
    times. *)
Theorem unique_column_values_differ (st : db) (t : string) (tm : TableMeta)
    (col : ColumnDef) :
  reachable st →
  tables (catalog st) !! t = Some tm →
  col ∈ tm_columns tm → cd_unique col = true →
  py_distinct (non_null (map (get (cd_name col)) (scan_of st t)))
  ∧ NoDup (non_null (map (get (cd_name col)) (scan_of st t))).
Proof.
  intros Hst Ht Hcol Hu.
  destruct (reachable_rows_invariant st Hst t tm Ht) as (_ & _ & Huniq & _).
  specialize (Huniq col Hcol Hu). split; [done|].
  by apply py_distinct_NoDup.
Qed.

Lemma unique_column_values_differ_witness :
  let st := (run_sql ["CREATE TABLE t (a INTEGER, e TEXT UNIQUE);";
                      "INSERT INTO t (a, e) VALUES (1, 'x');";
                      "INSERT INTO t (a) VALUES (2);";
                      "INSERT INTO t (a) VALUES (3);";
                      "INSERT INTO t (a, e) VALUES (4, 'x');";
                      "UPDATE t SET e = 'x' WHERE a = 2;"] initial).2 in
  let col := mkColumnDef "e" (mkTypeSpec "TEXT" []) false true false in
  map (get "e") (scan_of st "t") = [VStr "x"; VNone; VNone]
  ∧ NoDup (non_null (map (get "e") (scan_of st "t"))).
Proof.
  intros st col. split; [by vm_compute|].
  refine (proj2 (unique_column_values_differ st "t"
                   (mkTableMeta "t"
                      [mkColumnDef "a" (mkTypeSpec "INTEGER" [])
                         false false false; col] ∅) col _ _ _ _)).
  - apply reachable_run_sql, reachable_initial.
  - by vm_compute.
  - right. left.
  - reflexivity.
Defined.

(** X23.  In a reachable state, for a table without a column named
    [_rid], the next rid of the meta file exceeds every rid of the log,
    and the live rows carry pairwise different rids. *)
Theorem rids_are_fresh_and_distinct (st : db) (t : string) (tm : TableMeta) :
  reachable st →
  tables (catalog st) !! t = Some tm →
  "_rid" ∉ column_names tm →
  (∀ n, n ∈ log_rids (log_of st t) → (n < next_rid st t)%Z)
  ∧ NoDup (map rid_or_zero (scan_of st t))
  ∧ (∀ r n, r ∈ scan_of st t → as_int (get "_rid" r) = Some n →
            (n < next_rid st t)%Z).
Proof.
  intros Hst Ht Hrid.
  destruct (reachable_rows_invariant st Hst t tm Ht) as (_ & _ & _ & Hrids).
  destruct (Hrids Hrid) as [Hlt Hnd]. split; [done|]. split; [done|].
  intros r n Hr Hn. apply Hlt. by eapply scan_active_rid_in_log.
Qed.

Lemma rids_are_fresh_and_distinct_witness :
  let st := (run_sql ["CREATE TABLE t (a INTEGER);";
                      "INSERT INTO t (a) VALUES (1);";
                      "INSERT INTO t (a) VALUES (2);";
                      "UPDATE t SET a = 5;";
                      "DELETE FROM t WHERE a = 7;"] initial).2 in
  map rid_or_zero (scan_of st "t") = [3%Z; 4%Z]
  ∧ next_rid st "t" = 5%Z
  ∧ NoDup (map rid_or_zero (scan_of st "t")).
Proof.
  intros st. split; [by vm_compute|]. split; [by vm_compute|].
  refine (proj1 (proj2 (rids_are_fresh_and_distinct st "t"
                          (mkTableMeta "t"
                             [mkColumnDef "a" (mkTypeSpec "INTEGER" [])
                                false false false] ∅) _ _ _))).
  - apply reachable_run_sql, reachable_initial.
  - by vm_compute.
  - vm_compute. intros H. apply list_elem_of_singleton in H. discriminate.
Defined.

End ReachableTables.

(* ================================================================== *)
(** * What the statements do to the rows of a reachable state *)
(* ================================================================== *)

Section StatementEffects.
Import Heap Catalog Executor.

Lemma NoDup_map_inj_on {A B} (f : A → B) (l : list A) (x y : A) :
  NoDup (map f l) → x ∈ l → y ∈ l → f x = f y → x = y.
Proof.
  induction l as [|a l IH]; intros Hnd Hx Hy Hf.
  - by apply elem_of_nil in Hx.
  - simpl in Hnd. apply NoDup_cons in Hnd as [Ha Hnd].
    assert (∀ z, z ∈ l → f z ≠ f a) as Hne.
    { intros z Hz Heq. apply Ha. rewrite <- Heq.
      rewrite list_elem_of_In. apply in_map. by rewrite <- list_elem_of_In. }
    apply elem_of_cons in Hx as [->|Hx], Hy as [->|Hy]; [done| | |by apply IH].
    + by destruct (Hne y Hy).
    + by destruct (Hne x Hx).
Qed.

Lemma tombstoned_ints_tombstones (ms : list record) :
  tombstoned_ints (map (λ r, tombstone_record (rid_or_zero r)) ms)
  = list_to_set (map rid_or_zero ms).
Proof.
  induction ms as [|m ms IH]; [done|]. simpl map.
  rewrite tombstoned_ints_cons, spec_is_tombstone_record,
    tombstone_record_rid, IH.
  done.
Qed.

Lemma tombstones_not_live (d : gset Z) (ms : list record) :
  List.filter (λ r, negb (spec_is_tombstone r) && is_live d r)
    (map (λ r, tombstone_record (rid_or_zero r)) ms) = [].
Proof. induction ms as [|m ms IH]; [done|]. simpl. exact IH. Qed.

(** Tombstoning the rids of a selection of live rows with pairwise
    different rids removes exactly the selection. *)
Lemma filter_live_selection (rows : list record) (p : record → bool) :
  NoDup (map rid_or_zero rows) →
  (∀ r, r ∈ rows → ∃ n, as_int (get "_rid" r) = Some n) →
  List.filter
    (is_live (list_to_set (map rid_or_zero (List.filter p rows)))) rows
  = List.filter (λ r, negb (p r)) rows.
Proof.
  intros Hnd Hint. apply filter_ext_in_bool. intros r Hr.
  destruct (Hint r Hr) as [n Hn]. unfold is_live. rewrite Hn.
  destruct (p r) eqn:Hp; simpl.
  - apply bool_decide_eq_false_2. intros Hnot. apply Hnot.
    rewrite elem_of_list_to_set, list_elem_of_In. apply in_map_iff.
    exists r. split; [by apply rid_or_zero_int|].
    apply filter_In. by rewrite <- list_elem_of_In.
  - apply bool_decide_eq_true_2.
    rewrite elem_of_list_to_set, list_elem_of_In, in_map_iff.
    intros (m & Hm & Hin). apply filter_In in Hin as [Hin Hpm].
    rewrite <- list_elem_of_In in Hin.
    rewrite <- (rid_or_zero_int _ _ Hn) in Hm.
    rewrite (NoDup_map_inj_on _ _ _ _ Hnd Hin Hr Hm) in Hpm. congruence.
Qed.

(** X24.  In a reachable state, on a table without a column named
    [_rid], an accepted DELETE removes exactly the live rows its WHERE
    clause selects and reports their number; the other rows stay, in
    their order, and no other table changes. *)
Theorem delete_removes_the_matches (st st' : db) (t : string)
    (tm : TableMeta) (w : option WhereClause) (o : outcome) :
  reachable st →
  tables (catalog st) !! t = Some tm →
  "_rid" ∉ column_names tm →
  Executor.execute (Delete t w) st = (Ok o, st') →
  scan_of st' t = List.filter (λ r, negb (matches t w r)) (scan_of st t)
  ∧ o = CommandOk (length (List.filter (matches t w) (scan_of st t)))
          (pretty (length (List.filter (matches t w) (scan_of st t)))
           +:+ " rows deleted")
  ∧ ∀ u, u ≠ t → scan_of st' u = scan_of st u.
Proof.
  intros Hst Ht Hrid H. simpl in H.
  apply delete_effect in H as [(e & ? & _)|(tm' & _ & Ho & ->)]; [done|].
  injection Ho as ->.
  destruct (reachable_rows_invariant st Hst t tm Ht) as (_ & _ & _ & Hrids).
  destruct (Hrids Hrid) as [_ Hnd].
  split; [|split; [done|]].
  - rewrite written_scan, decide_True by done.
    rewrite scan_active_app, tombstoned_ints_tombstones.
    fold (scan_of st t).
    assert (List.filter
              (λ r, negb (spec_is_tombstone r)
                    && is_live
                         (tombstoned_ints (log_of st t)
                          ∪ list_to_set
                              (map rid_or_zero
                                 (List.filter (matches t w) (scan_of st t))))
                         r)
              (map (λ r, tombstone_record (rid_or_zero r))
                 (List.filter (matches t w) (scan_of st t))) = []) as ->.
    { apply tombstones_not_live. }
    rewrite app_nil_r. apply filter_live_selection; [done|].
    intros r Hr. by eapply scan_active_int_rids.
  - intros u Hu. rewrite written_scan. by rewrite decide_False by done.
Qed.

Lemma delete_removes_the_matches_witness :
  let st := (run_sql ["CREATE TABLE t (a INTEGER, b TEXT);";
                      "INSERT INTO t (a, b) VALUES (1, 'x');";
                      "INSERT INTO t (a, b) VALUES (2, 'y');";
                      "INSERT INTO t (a, b) VALUES (1, 'z');"] initial).2 in
  let w := Some (mkWhereClause
                   [mkCondition (mkColumnRef "a" None) "=" (VInt 1)]) in
  map (get "b") (scan_of (Executor.execute (Delete "t" w) st).2 "t")
  = [VStr "y"]
  ∧ scan_of (Executor.execute (Delete "t" w) st).2 "t"
    = List.filter (λ r, negb (matches "t" w r)) (scan_of st "t").
Proof.
  intros st w. split; [by vm_compute|].
  refine (proj1 (delete_removes_the_matches st _ "t"
                   (mkTableMeta "t"
                      [mkColumnDef "a" (mkTypeSpec "INTEGER" [])
                         false false false;
                       mkColumnDef "b" (mkTypeSpec "TEXT" [])
                         false false false] ∅)
                   w (CommandOk 2 "2 rows deleted") _ _ _ _)).
  - apply reachable_run_sql, reachable_initial.
  - by vm_compute.
  - vm_compute. intros H. repeat (apply elem_of_cons in H as [H|H];
      [discriminate|]). by apply elem_of_nil in H.
  - by vm_compute.
Defined.

Lemma plain_no_rid (tm : TableMeta) : plain tm → "_rid" ∉ column_names tm.
Proof. intros H. apply H. left. Qed.

Lemma plain_stored_live (tm : TableMeta) (row : record) (n : Z) :
  plain tm →
  (∀ k, k ∉ column_names tm → row !! k = None) →
  spec_is_tombstone (stored n row) = false
  ∧ as_int (get "_rid" (stored n row)) = Some n.
Proof.
  intros Hplain Hrow.
  assert (row !! "_rid" = None) as H1 by (apply Hrow, Hplain; left).
  assert (row !! "_op" = None) as H2
    by (apply Hrow, Hplain; right; left).
  assert (row !! "_deleted" = None) as H3
    by (apply Hrow, Hplain; right; right; left).
  split; [by apply stored_not_tombstone|].
  by rewrite stored_rid_fresh.
Qed.

Lemma insert_effect_plain (st st' : db) (t : string) (tm : TableMeta)
    (cs : list string) (vs : list value) (o : outcome) :
  reachable st →
  tables (catalog st) !! t = Some tm →
  plain tm →
  Executor.execute (Insert t cs vs) st = (Ok o, st') →
  scan_of st' t
  = scan_of st t ++ [stored (next_rid st t) (insert_row tm cs vs)]
  ∧ next_rid st' t = (next_rid st t + 1)%Z
  ∧ o = CommandOk 1 "1 row inserted"
  ∧ ∀ u, u ≠ t → scan_of st' u = scan_of st u.
Proof.
  intros Hst Ht Hplain H. simpl in H.
  apply insert_effect in H
    as [(e & ? & _)|(tm' & Ht' & Hck & _ & _ & Ho & ->)]; [done|].
  injection Ho as ->. simplify_eq.
  pose proof (plain_no_rid _ Hplain) as Hrid.
  destruct (reachable_rows_invariant st Hst t tm Ht) as (_ & _ & _ & Hrids).
  destruct (Hrids Hrid) as [Hlt _].
  set (n := next_rid st t) in *. set (row := insert_row tm cs vs) in *.
  destruct (plain_stored_live tm row n Hplain) as [Hnt Hn].
  { intros k Hk. apply insert_row_other; [|done]. right. intros c Hc.
    by eapply check_known_columns. }
  split; [|split; [|split; [done|]]].
  - rewrite written_scan, decide_True by done. rewrite scan_active_app.
    fold (scan_of st t).
    assert (tombstoned_ints [stored n row] = ∅) as Hnone.
    { rewrite tombstoned_ints_cons, Hnt. apply tombstoned_ints_nil. }
    rewrite Hnone. f_equal.
    + apply filter_live_all; [set_solver|].
      intros r Hr. by eapply scan_active_int_rids.
    + simpl. rewrite Hnt. simpl. unfold is_live. rewrite Hn.
      rewrite bool_decide_eq_true_2; [done|].
      intros Hin. apply elem_of_union in Hin as [Hin|Hin]; [|set_solver].
      apply tombstoned_ints_in_log in Hin. specialize (Hlt n Hin). lia.
  - rewrite written_next_rid. by rewrite decide_True by done.
  - intros u Hu. rewrite written_scan. by rewrite decide_False by done.
Qed.

(** X25.  In a reachable state, on a table none of whose columns has a
    reserved name, an accepted INSERT adds exactly one row, the row it
    built stored under the next rid, as the last one [scan_active]
    yields; the rows before stay, and so do the rows of the other
    tables. *)
Theorem insert_appends_the_row (st st' : db) (t : string) (tm : TableMeta)
    (cs : list string) (vs : list value) (o : outcome) :
  reachable st →
  tables (catalog st) !! t = Some tm →
  plain tm →
  Executor.execute (Insert t cs vs) st = (Ok o, st') →
  scan_of st' t
  = scan_of st t ++ [stored (next_rid st t) (insert_row tm cs vs)]
  ∧ next_rid st' t = (next_rid st t + 1)%Z
  ∧ o = CommandOk 1 "1 row inserted"
  ∧ ∀ u, u ≠ t → scan_of st' u = scan_of st u.
Proof.
  intros Hst Ht Hplain H.
  destruct (insert_effect_plain st st' t tm cs vs o Hst Ht Hplain H)
    as (Hscan & Hnext & Ho & Hother).
  split; [exact Hscan|]. split; [exact Hnext|]. split; [exact Ho|].
  exact Hother.
Qed.

Lemma insert_appends_the_row_witness :
  let st := (run_sql ["CREATE TABLE t (a INTEGER, b TEXT);";
                      "INSERT INTO t (a, b) VALUES (1, 'x');";
                      "DELETE FROM t;"] initial).2 in
  let tm := mkTableMeta "t"
              [mkColumnDef "a" (mkTypeSpec "INTEGER" []) false false false;
               mkColumnDef "b" (mkTypeSpec "TEXT" []) false false false] ∅ in
  let stmt := Insert "t" ["b"] [VStr "y"] in
  scan_of (Executor.execute stmt st).2 "t"
  = scan_of st "t" ++ [stored (next_rid st "t") (insert_row tm ["b"] [VStr "y"])]
  ∧ scan_of (Executor.execute stmt st).2 "t"
    = [ {[ "_rid" := VInt 2; "a" := VNone; "b" := VStr "y" ]} ].
Proof.
  intros st tm stmt. split; [|by vm_compute].
  refine (proj1 (insert_appends_the_row st _ "t" tm ["b"] [VStr "y"]
                   (CommandOk 1 "1 row inserted") _ _ _ _)).
  - apply reachable_run_sql, reachable_initial.
  - by vm_compute.
  - intros k Hk Hin. vm_compute in Hin.
    repeat (apply elem_of_cons in Hin as [->|Hin];
            [vm_compute in Hk;
             repeat (apply elem_of_cons in Hk as [Hk|Hk]; [discriminate|]);
             by apply elem_of_nil in Hk|]).
    by apply elem_of_nil in Hin.
  - by vm_compute.
Defined.

(** ** UPDATE *)

Lemma update_lines_tombstoned_eq (n : Z) (pairs : list (record * record)) :
  (∀ p k, p ∈ pairs → spec_is_tombstone (stored k p.2) = false) →
  tombstoned_ints (update_lines n pairs)
  = list_to_set (map (λ p, rid_or_zero p.1) pairs).
Proof.
  revert n. induction pairs as [|[old cand] pairs IH]; intros n Hnt; [done|].
  cbn [update_lines map list_to_set fst].
  rewrite (tombstoned_ints_cons (stored n cand)).
  pose proof (Hnt (old, cand) n ltac:(left)) as H0. simpl in H0.
  rewrite H0.
  rewrite (tombstoned_ints_cons (tombstone_record _)).
  rewrite spec_is_tombstone_record, tombstone_record_rid.
  rewrite IH; [done|]. intros p k Hp. apply Hnt. by right.
Qed.

Lemma update_lines_live (d : gset Z) (n : Z)
    (pairs : list (record * record)) :
  (∀ x, x ∈ d → (x < n)%Z) →
  (∀ p k, p ∈ pairs →
          spec_is_tombstone (stored k p.2) = false
          ∧ as_int (get "_rid" (stored k p.2)) = Some k) →
  List.filter (λ r, negb (spec_is_tombstone r) && is_live d r)
    (update_lines n pairs)
  = stored_from n (map snd pairs).
Proof.
  revert n. induction pairs as [|[old cand] pairs IH]; intros n Hd Hp;
    [done|].
  cbn [update_lines map snd stored_from List.filter].
  destruct (Hp (old, cand) n ltac:(left)) as [Hnt Hrid]. simpl in Hnt, Hrid.
  rewrite Hnt, spec_is_tombstone_record. cbn [negb andb].
  unfold is_live at 1. rewrite Hrid.
  rewrite bool_decide_eq_true_2.
  - f_equal. apply IH.
    + intros x Hx. specialize (Hd x Hx). lia.
    + intros p k Hin. apply Hp. by right.
  - intros Hin. specialize (Hd n Hin). lia.
Qed.

Lemma update_effect_plain (st st' : db) (t : string) (tm : TableMeta)
    (asg : list Assignment) (w : option WhereClause) (o : outcome) :
  reachable st →
  tables (catalog st) !! t = Some tm →
  plain tm →
  Executor.execute (Update t asg w) st = (Ok o, st') →
  let ms := List.filter (matches t w) (scan_of st t) in
  scan_of st' t
  = List.filter (λ r, negb (matches t w r)) (scan_of st t)
    ++ stored_from (next_rid st t) (map (candidate_of tm asg) ms)
  ∧ o = CommandOk (length ms) (pretty (length ms) +:+ " rows updated")
  ∧ ∀ u, u ≠ t → scan_of st' u = scan_of st u.
Proof.
  intros Hst Ht Hplain H ms. simpl in H.
  apply update_effect in H
    as [(e & ? & _)|(tm' & Ht' & Hck & _ & _ & Ho & ->)]; [done|].
  injection Ho as ->. simplify_eq. fold ms.
  pose proof (plain_no_rid _ Hplain) as Hrid.
  destruct (reachable_rows_invariant st Hst t tm Ht) as (_ & _ & _ & Hrids).
  destruct (Hrids Hrid) as [Hlt Hnd].
  assert (ms `sublist_of` scan_of st t) as Hsub by apply filter_sublist.
  set (n := next_rid st t) in *.
  set (pairs := zip ms (map (candidate_of tm asg) ms)).
  assert (∀ p k, p ∈ pairs →
            spec_is_tombstone (stored k p.2) = false
            ∧ as_int (get "_rid" (stored k p.2)) = Some k) as Hpairs.
  { intros p k [_ Heq]%zip_map_elem. rewrite Heq.
    apply (plain_stored_live tm); [done|]. intros c Hc.
    apply candidate_other; [|done]. intros c' Hc'.
    by eapply check_known_columns. }
  assert (tombstoned_ints (update_lines n pairs)
          = list_to_set (map rid_or_zero ms)) as Htomb.
  { rewrite update_lines_tombstoned_eq by (intros p k Hp; by apply Hpairs).
    unfold pairs. rewrite <- (map_map fst rid_or_zero).
    by rewrite zip_map_fst. }
  split; [|split; [done|]].
  - rewrite written_scan, decide_True by done. rewrite scan_active_app.
    fold (scan_of st t). fold pairs. rewrite Htomb. f_equal.
    + apply filter_live_selection; [done|].
      intros r Hr. by eapply scan_active_int_rids.
    + rewrite update_lines_live; [|..|exact Hpairs].
      * unfold pairs. by rewrite zip_map_snd.
      * intros x [Hx|Hx]%elem_of_union.
        -- apply Hlt. by apply tombstoned_ints_in_log.
        -- rewrite elem_of_list_to_set, list_elem_of_In in Hx.
           apply in_map_iff in Hx as (r & <- & Hr).
           rewrite <- list_elem_of_In in Hr.
           apply scan_rids_below; [done|]. by eapply elem_of_sublist.
  - intros u Hu. rewrite written_scan. by rewrite decide_False by done.
Qed.

Lemma stored_from_length (n : Z) (rows : list record) :
  length (stored_from n rows) = length rows.
Proof.
  revert n. induction rows as [|r rows IH]; intros n; [done|].
  simpl. by rewrite IH.
Qed.

(** X26.  In a reachable state, on a table none of whose columns has a
    reserved name, an accepted UPDATE replaces exactly the rows its
    WHERE clause selects: the other rows stay, in their order, followed
    by the replacement rows under fresh consecutive rids; the number of
    live rows does not change, and no other table changes. *)
Theorem update_replaces_the_matches (st st' : db) (t : string)
    (tm : TableMeta) (asg : list Assignment) (w : option WhereClause)
    (o : outcome) :
  reachable st →
  tables (catalog st) !! t = Some tm →
  plain tm →
  Executor.execute (Update t asg w) st = (Ok o, st') →
  scan_of st' t
  = List.filter (λ r, negb (matches t w r)) (scan_of st t)
    ++ stored_from (next_rid st t)
         (map (candidate_of tm asg)
            (List.filter (matches t w) (scan_of st t)))
  ∧ length (scan_of st' t) = length (scan_of st t)
  ∧ o = CommandOk (length (List.filter (matches t w) (scan_of st t)))
          (pretty (length (List.filter (matches t w) (scan_of st t)))
           +:+ " rows updated")
  ∧ ∀ u, u ≠ t → scan_of st' u = scan_of st u.
Proof.
  intros Hst Ht Hplain H.
  destruct (update_effect_plain st st' t tm asg w o Hst Ht Hplain H)
    as (Hscan & Ho & Hother).
  split; [exact Hscan|]. split; [|split; [exact Ho|exact Hother]].
  rewrite Hscan, length_app, stored_from_length, length_map.
  rewrite Nat.add_comm. apply List.filter_length.
Qed.

Lemma update_replaces_the_matches_witness :
  let st := (run_sql ["CREATE TABLE t (a INTEGER, b TEXT);";
                      "INSERT INTO t (a, b) VALUES (1, 'x');";
                      "INSERT INTO t (a, b) VALUES (2, 'y');";
                      "INSERT INTO t (a, b) VALUES (1, 'z');"] initial).2 in
  let tm := mkTableMeta "t"
              [mkColumnDef "a" (mkTypeSpec "INTEGER" []) false false false;
               mkColumnDef "b" (mkTypeSpec "TEXT" []) false false false] ∅ in
  let w := Some (mkWhereClause
                   [mkCondition (mkColumnRef "a" None) "=" (VInt 1)]) in
  let stmt := Update "t" [mkAssignment "b" (VStr "n")] w in
  map (λ r, (get "_rid" r, get "a" r, get "b" r))
    (scan_of (Executor.execute stmt st).2 "t")
  = [(VInt 2, VInt 2, VStr "y"); (VInt 4, VInt 1, VStr "n");
     (VInt 5, VInt 1, VStr "n")]
  ∧ length (scan_of (Executor.execute stmt st).2 "t")
    = length (scan_of st "t").
Proof.
  intros st tm w stmt. split; [by vm_compute|].
  refine (proj1 (proj2 (update_replaces_the_matches st _ "t" tm
                          [mkAssignment "b" (VStr "n")] w
                          (CommandOk 2 "2 rows updated") _ _ _ _))).
  - apply reachable_run_sql, reachable_initial.
  - by vm_compute.
  - intros k Hk Hin. vm_compute in Hin.
    repeat (apply elem_of_cons in Hin as [->|Hin];
            [vm_compute in Hk;
             repeat (apply elem_of_cons in Hk as [Hk|Hk]; [discriminate|]);
             by apply elem_of_nil in Hk|]).
    by apply elem_of_nil in Hin.
  - by vm_compute.
Defined.

End StatementEffects.

(* ================================================================== *)
(** * Queries *)
(* ================================================================== *)

Section Queries.
Import Heap Catalog Executor.

(** X27.  A SELECT that returns lists, for every live row its WHERE
    clause selects and in the order of the log, the values of the
    selected columns: all columns in the order of their definition for
    [*], else the columns named, each of which is a column of the table;
    a SELECT with a JOIN never returns. *)
Theorem select_returns_the_matches (cols : option (list ColumnRef))
    (t : string) (joins : list JoinClause) (w : option WhereClause)
    (st st' : db) (o : outcome) :
  Executor.execute (Select cols t joins w) st = (Ok o, st') →
  ∃ tm,
    joins = [] ∧ tables (catalog st) !! t = Some tm
    ∧ let out_cols := match cols with
                      | None => map cd_name (tm_columns tm)
                      | Some crs => map cr_column crs
                      end in
      (∀ c, c ∈ out_cols → c ∈ column_names tm)
      ∧ o = QueryResult out_cols
              (map (λ row, map (λ c, get c row) out_cols)
                 (List.filter (matches t w) (scan_of st t))).
Proof.
  simpl. intros [_ H]%select_effect.
  destruct (H o eq_refl) as (tm & out_cols & Hj & Ht & -> & Hin & Ho).
  exists tm. by repeat split.
Qed.

Lemma select_returns_the_matches_witness :
  let st := (run_sql ["CREATE TABLE t (a INTEGER, b TEXT);";
                      "INSERT INTO t (a, b) VALUES (1, 'x');";
                      "INSERT INTO t (a, b) VALUES (2, 'y');";
                      "INSERT INTO t (a, b) VALUES (1, 'z');"] initial).2 in
  let w := Some (mkWhereClause
                   [mkCondition (mkColumnRef "a" (Some "t")) "=" (VInt 1)]) in
  let stmt := Select (Some [mkColumnRef "b" None]) "t" [] w in
  (Executor.execute stmt st).1 = Ok (QueryResult ["b"] [[VStr "x"]; [VStr "z"]])
  ∧ ∃ tm, tables (catalog st) !! "t" = Some tm
          ∧ ∀ c, c ∈ ["b"] → c ∈ column_names tm.
Proof.
  intros st w stmt. split; [by vm_compute|].
  destruct (select_returns_the_matches (Some [mkColumnRef "b" None]) "t" []
              w st (Executor.execute stmt st).2
              (QueryResult ["b"] [[VStr "x"]; [VStr "z"]]))
    as (tm & _ & Ht & Hin & _).
  - by vm_compute.
  - exists tm. split; [exact Ht|exact Hin].
Defined.

Lemma filterR_all {A} (l : list A) :
  filterR (λ _ : A, Ok true) l = Ok l.
Proof. induction l as [|x l IH]; [done|]. simpl. by rewrite IH. Qed.

Lemma select_star_all (st : db) (t : string) (tm : TableMeta) :
  tables (catalog st) !! t = Some tm →
  (Executor.execute (Select None t [] None) st).1
  = Ok (QueryResult (map cd_name (tm_columns tm))
          (map (λ row, map (λ c, get c row) (map cd_name (tm_columns tm)))
             (scan_of st t))).
Proof.
  intros Ht. unfold execute, _select.
  unfold bindM at 1. unfold getsM at 1.
  unfold bindM at 1. unfold liftM at 1, require_table at 1. rewrite Ht.
  unfold bindM at 1. unfold heap_open, modifyM.
  unfold bindM at 1. unfold liftM at 1.
  unfold bindM at 1. rewrite heap_scan_active_open.
  unfold bindM, liftM, _row_matches_where. by rewrite filterR_all.
Qed.

(** X28.  In a reachable state, on a table none of whose columns has a
    reserved name, [SELECT *] after an accepted INSERT returns what it
    returned before followed by one more row: the values of the INSERT
    under their columns and NULL in the columns it did not name. *)
Theorem select_after_insert (st st' : db) (t : string) (tm : TableMeta)
    (cs : list string) (vs : list value) (o : outcome) :
  reachable st →
  tables (catalog st) !! t = Some tm →
  plain tm →
  Executor.execute (Insert t cs vs) st = (Ok o, st') →
  ∃ rows,
    (Executor.execute (Select None t [] None) st).1
    = Ok (QueryResult (map cd_name (tm_columns tm)) rows)
    ∧ (Executor.execute (Select None t [] None) st').1
      = Ok (QueryResult (map cd_name (tm_columns tm))
              (rows ++ [map (λ c, get c (insert_row tm cs vs))
                          (map cd_name (tm_columns tm))])).
Proof.
  intros Hst Ht Hplain H.
  destruct (insert_effect_plain st st' t tm cs vs o Hst Ht Hplain H)
    as (Hscan & _).
  assert (tables (catalog st') !! t = Some tm) as Ht'.
  { simpl in H. apply insert_effect in H
      as [(e & ? & _)|(tm' & _ & _ & _ & _ & _ & ->)]; [done|]. done. }
  eexists. split; [by apply select_star_all|].
  rewrite (select_star_all st' t tm Ht'), Hscan, map_app. simpl.
  do 4 f_equal. apply map_ext_in. intros c Hc.
  apply stored_get, insert_row_has_columns.
  by rewrite list_elem_of_In.
Qed.

Lemma select_after_insert_witness :
  let st := (run_sql ["CREATE TABLE t (a INTEGER, b TEXT);";
                      "INSERT INTO t (a, b) VALUES (1, 'x');"] initial).2 in
  let tm := mkTableMeta "t"
              [mkColumnDef "a" (mkTypeSpec "INTEGER" []) false false false;
               mkColumnDef "b" (mkTypeSpec "TEXT" []) false false false] ∅ in
  let st' := (Executor.execute (Insert "t" ["b"] [VStr "y"]) st).2 in
  (Executor.execute (Select None "t" [] None) st').1
  = Ok (QueryResult ["a"; "b"] [[VInt 1; VStr "x"]; [VNone; VStr "y"]])
  ∧ ∃ rows,
      (Executor.execute (Select None "t" [] None) st).1
      = Ok (QueryResult (map cd_name (tm_columns tm)) rows)
      ∧ (Executor.execute (Select None "t" [] None) st').1
        = Ok (QueryResult (map cd_name (tm_columns tm))
                (rows ++ [map (λ c, get c (insert_row tm ["b"] [VStr "y"]))
                            (map cd_name (tm_columns tm))])).
Proof.
  intros st tm st'. split; [by vm_compute|].
  refine (select_after_insert st st' "t" tm ["b"] [VStr "y"]
            (CommandOk 1 "1 row inserted") _ _ _ _).
  - apply reachable_run_sql, reachable_initial.
  - by vm_compute.
  - intros k Hk Hin. vm_compute in Hin.
    repeat (apply elem_of_cons in Hin as [->|Hin];
            [vm_compute in Hk;
             repeat (apply elem_of_cons in Hk as [Hk|Hk]; [discriminate|]);
             by apply elem_of_nil in Hk|]).
    by apply elem_of_nil in Hin.
  - by vm_compute.
Defined.

(** ** Lookups by key *)

Lemma py_eq_trans (a b v : value) :
  py_eq a v = true → py_eq b v = true → py_eq a b = true.
Proof.
  destruct a as [|x|s|[]], b as [|y|s'|[]], v as [|z|s''|[]]; simpl;
    try done; rewrite ?bool_decide_eq_true; congruence.
Qed.

Lemma py_distinct_at_most_one (vs : list value) (v : value) :
  py_distinct vs → (∀ x, x ∈ vs → py_eq x v = true) → (length vs ≤ 1)%nat.
Proof.
  intros Hd Hall. destruct vs as [|a [|b vs]]; simpl; [lia..|].
  destruct Hd as [Hin _]. simpl in Hin. apply orb_false_iff in Hin as [Hab _].
  rewrite (py_eq_trans a b v) in Hab; [done|apply Hall..].
  - left.
  - right. left.
Qed.

Lemma conditions_match_true (t : string) (r : record)
    (conds : list Condition) (cond : Condition) :
  conditions_match t r conds = Ok true → cond ∈ conds →
  py_eq (get (cr_column (cond_left cond)) r) (cond_right cond) = true.
Proof.
  induction conds as [|c conds IH]; intros H Hin.
  - by apply elem_of_nil in Hin.
  - simpl in H. case_bool_decide; [done|].
    destruct (_resolve_col t (cond_left c) "WHERE") as [cn|] eqn:Hres;
      [|done].
    simpl in H.
    destruct (py_eq (get cn r) (cond_right c)) eqn:Heq; [|done].
    simpl in H. apply elem_of_cons in Hin as [->|Hin]; [|by apply IH].
    unfold _resolve_col in Hres. destruct (cr_table (cond_left c)).
    + case_bool_decide; [done|]. by simplify_eq.
    + by simplify_eq.
Qed.

Lemma primary_key_column_of (tm : TableMeta) (col : ColumnDef) :
  (length (List.filter cd_primary_key (tm_columns tm)) ≤ 1)%nat →
  col ∈ tm_columns tm → cd_primary_key col = true →
  primary_key_column tm = Some (cd_name col).
Proof.
  intros Hlen Hcol Hpk. unfold primary_key_column.
  assert (col ∈ List.filter cd_primary_key (tm_columns tm)) as Hin
    by (by apply filter_elem_of).
  destruct (List.filter cd_primary_key (tm_columns tm)) as [|c [|c' l]].
  - by apply elem_of_nil in Hin.
  - apply list_elem_of_singleton in Hin. by subst.
  - simpl in Hlen. lia.
Qed.

(** X29.  In a reachable state a SELECT whose WHERE clause holds an
    equality on the primary-key column, or on a UNIQUE column with a
    value other than NULL, returns at most one row. *)
Theorem key_lookup_returns_at_most_one_row (st st' : db) (t : string)
    (tm : TableMeta) (col : ColumnDef) (cols : option (list ColumnRef))
    (wc : WhereClause) (cond : Condition) (out_cols : list string)
    (rows : list (list value)) :
  reachable st →
  tables (catalog st) !! t = Some tm →
  col ∈ tm_columns tm →
  cd_primary_key col = true
  ∨ (cd_unique col = true ∧ cond_right cond ≠ VNone) →
  cond ∈ conditions wc →
  cr_column (cond_left cond) = cd_name col →
  Executor.execute (Select cols t [] (Some wc)) st
  = (Ok (QueryResult out_cols rows), st') →
  (length rows ≤ 1)%nat.
Proof.
  intros Hst Ht Hcol Hkey Hcond Hname H.
  change (Executor.execute (Select cols t [] (Some wc)) st)
    with (_select cols t [] (Some wc) st) in H.
  apply select_effect in H as [_ H].
  destruct (H _ eq_refl) as (tm' & oc & _ & Ht' & _ & _ & Ho).
  simplify_eq. rewrite length_map.
  set (ms := List.filter (matches t (Some wc)) (scan_of st t)).
  assert (ms `sublist_of` scan_of st t) as Hsub by apply filter_sublist.
  assert (∀ r, r ∈ ms →
               py_eq (get (cd_name col) r) (cond_right cond) = true) as Heq.
  { intros r [_ Hm]%filter_elem_of. unfold matches in Hm. simpl in Hm.
    destruct (conditions_match t r (conditions wc)) as [b|] eqn:Hcm;
      [|done].
    subst b. rewrite <- Hname. by eapply conditions_match_true. }
  rewrite <- (length_map (get (cd_name col)) ms).
  apply (py_distinct_at_most_one _ (cond_right cond)).
  - destruct Hkey as [Hpk|[Hu Hnn]].
    + destruct (reachable_rows_invariant st Hst t tm Ht)
        as ((_ & Hone & _) & _).
      destruct (reachable_invariant st Hst) as (_ & _ & _ & Hpku).
      eapply py_distinct_sublist; [by apply map_sublist|].
      apply (Hpku t tm); [done|]. by apply primary_key_column_of.
    + destruct (reachable_rows_invariant st Hst t tm Ht)
        as (_ & _ & Huniq & _).
      assert (non_null (map (get (cd_name col)) ms)
              = map (get (cd_name col)) ms) as <-.
      { unfold non_null. apply forallb_filter_id. apply forallb_forall.
        intros v Hv. apply in_map_iff in Hv as (r & <- & Hr).
        rewrite <- list_elem_of_In in Hr. specialize (Heq r Hr).
        destruct (get (cd_name col) r); [|done..].
        by destruct (cond_right cond). }
      eapply py_distinct_sublist; [|by apply (Huniq col)].
      by apply non_null_sublist, map_sublist.
  - intros v Hv. rewrite list_elem_of_In in Hv.
    apply in_map_iff in Hv as (r & <- & Hr). apply Heq.
    by rewrite list_elem_of_In.
Qed.

Lemma key_lookup_returns_at_most_one_row_witness :
  let st := (run_sql ["CREATE TABLE t (a INTEGER PRIMARY KEY, b TEXT);";
                      "INSERT INTO t (a, b) VALUES (1, 'x');";
                      "INSERT INTO t (a, b) VALUES (2, 'x');"] initial).2 in
  let cond := mkCondition (mkColumnRef "a" None) "=" (VInt 2) in
  let wc := mkWhereClause
              [mkCondition (mkColumnRef "b" None) "=" (VStr "x"); cond] in
  (Executor.execute (Select None "t" [] (Some wc)) st).1
  = Ok (QueryResult ["a"; "b"] [[VInt 2; VStr "x"]])
  ∧ (length [[VInt 2; VStr "x"]] ≤ 1)%nat.
Proof.
  intros st cond wc. split; [by vm_compute|].
  refine (key_lookup_returns_at_most_one_row st
            (Executor.execute (Select None "t" [] (Some wc)) st).2 "t"
            (mkTableMeta "t"
               [mkColumnDef "a" (mkTypeSpec "INTEGER" []) false false true;
                mkColumnDef "b" (mkTypeSpec "TEXT" []) false false false] ∅)
            (mkColumnDef "a" (mkTypeSpec "INTEGER" []) false false true)
            None wc cond ["a"; "b"] [[VInt 2; VStr "x"]] _ _ _ _ _ _ _).
  - apply reachable_run_sql, reachable_initial.
  - by vm_compute.
  - left.
  - by left.
  - right. left.
  - reflexivity.
  - by vm_compute.
Defined.

End Queries.
